(** * backup.c: a shallow embedding and its verified properties

    The program is a thin layer over POSIX file-system calls.  The
    embedding has two layers:

    - a small model of the environment the program talks to: C strings,
      an inode table with permissions and symbolic links, path
      resolution, and the handful of system and library calls the
      program uses ([stat], [mkdir], [opendir], [fopen], [fwrite],
      [chmod], [realpath], [strftime], [getopt]);
    - the functions of [backup.c] themselves, written over that model
      with explicit state passing, in the order and with the control
      flow of the source.  *)

From Stdlib Require Import ZArith Ascii String List Bool Lia DecimalString.
From stdpp Require Import base tactics option list.
Import ListNotations.

Local Open Scope string_scope.
Local Open Scope nat_scope.
Local Open Scope list_scope.

(** ** C strings *)

Module CStr.

Notation "a +++ b" := (String.append a b) (at level 60, right associativity).

Definition len (s : string) : nat := String.length s.

(** The first [n] characters of [s] (all of [s] when it is shorter). *)
Fixpoint take (n : nat) (s : string) : string :=
  match n, s with
  | S k, String c r => String c (take k r)
  | _, _ => EmptyString
  end.

(** [s] without its first [n] characters. *)
Fixpoint drop (n : nat) (s : string) : string :=
  match n, s with
  | S k, String _ r => drop k r
  | _, _ => s
  end.

(** [strcspn(s, "\n")]: the length of the longest prefix without the
    character [c]. *)
Fixpoint strcspn (c : ascii) (s : string) : nat :=
  match s with
  | EmptyString => 0
  | String a r => if Ascii.eqb a c then 0 else S (strcspn c r)
  end.

(** [strrchr(s, c)]: the index of the last [c] in [s]. *)
Fixpoint strrchr (c : ascii) (s : string) : option nat :=
  match s with
  | EmptyString => None
  | String a r =>
      match strrchr c r with
      | Some i => Some (S i)
      | None => if Ascii.eqb a c then Some 0 else None
      end
  end.

Fixpoint has (c : ascii) (s : string) : bool :=
  match s with
  | EmptyString => false
  | String a r => Ascii.eqb a c || has c r
  end.

(** The pieces of [s] between occurrences of [sep]; never empty. *)
Fixpoint split (sep : ascii) (s : string) : list string :=
  match s with
  | EmptyString => [EmptyString]
  | String a r =>
      if Ascii.eqb a sep then EmptyString :: split sep r
      else match split sep r with
           | h :: t => String a h :: t
           | [] => [String a EmptyString]
           end
  end.

Definition nonempty (s : string) : bool :=
  match s with EmptyString => false | _ => true end.

Definition starts_with (c : ascii) (s : string) : bool :=
  match s with String a _ => Ascii.eqb a c | EmptyString => false end.

(** What [snprintf(buf, n, ...)] leaves in [buf] when the formatted
    text is [s]: at most [n - 1] characters. *)
Definition snprintf (n : nat) (s : string) : string := take (n - 1) s.

End CStr.
Import CStr.

Definition PATH_MAX : nat := 4096.
Definition NAME_MAX : nat := 255.
Definition EXIT_FAILURE : Z := 1.

Definition DEFAULT_TARGET_DIR : string := "/media/pi/piBackup".

(** [CONFIG_FILE_PATH] is the format ["%s/.config/backup_tool.conf"]. *)
Definition CONFIG_FILE_PATH (homedir : string) : string :=
  homedir +++ "/.config/backup_tool.conf".

Definition ESC : string := String (ascii_of_nat 27) EmptyString.
Definition NL : string := String (ascii_of_nat 10) EmptyString.
Definition RESET : string := ESC +++ "[0m".
Definition RED : string := ESC +++ "[31m".
Definition YELLOW : string := ESC +++ "[33m".
Definition GRAY : string := ESC +++ "[90m".

(** ** The environment *)

Inductive errno_t : Set :=
| E0 | ENOENT | EACCES | EEXIST | ENOTDIR | EISDIR | ELOOP
| ENAMETOOLONG | EPERM | ENOSPC | EOVERFLOW.

Definition errno_eqb (a b : errno_t) : bool :=
  match a, b with
  | E0, E0 | ENOENT, ENOENT | EACCES, EACCES | EEXIST, EEXIST
  | ENOTDIR, ENOTDIR | EISDIR, EISDIR | ELOOP, ELOOP
  | ENAMETOOLONG, ENAMETOOLONG | EPERM, EPERM | ENOSPC, ENOSPC
  | EOVERFLOW, EOVERFLOW => true
  | _, _ => false
  end.

(** The file types that are neither regular file, directory nor
    symbolic link. *)
Inductive special : Set := Chr | Blk | Fifo | Sock.

(** An inode.  [own] says whether the invoking user owns it; [perm]
    holds the twelve permission bits.  [IOther] stands for devices,
    FIFOs and sockets. *)
Inductive inode : Type :=
| IReg (own : bool) (perm : Z) (data : string)
| IDir (own : bool) (perm : Z) (entries : list (string * nat))
| ILnk (target : string)
| IOther (kind : special) (own : bool) (perm : Z).

(** [struct tm], the fields [strftime] reads here. *)
Record tm : Set := Tm {
  tm_year : Z; tm_mon : Z; tm_mday : Z;
  tm_hour : Z; tm_min : Z; tm_sec : Z
}.

(** What the process writes on its two streams, in order.  [Perror]
    stands for the line [perror] prints: the prefix and the text of
    the current [errno]. *)
Inductive event : Type :=
| Stderr (text : string)
| Stdout (text : string)
| Perror (prefix : string) (e : errno_t).

Record world : Type := World {
  inodes : list inode;        (* the file system; inode 0 is the root *)
  space : nat;                (* bytes the device still accepts *)
  errno : errno_t;
  log : list event;
  cwd : string;               (* absolute path of the working directory *)
  home : string;              (* getpwuid(getuid())->pw_dir *)
  umask : Z;
  localtime : option tm       (* localtime_r(time(NULL)); None on failure *)
}.

Definition set_inodes (t : list inode) (w : world) : world :=
  World t (space w) (errno w) (log w) (cwd w) (home w) (umask w) (localtime w).
Definition set_space (n : nat) (w : world) : world :=
  World (inodes w) n (errno w) (log w) (cwd w) (home w) (umask w) (localtime w).
Definition set_errno (e : errno_t) (w : world) : world :=
  World (inodes w) (space w) e (log w) (cwd w) (home w) (umask w) (localtime w).
Definition emit (ev : event) (w : world) : world :=
  World (inodes w) (space w) (errno w) (log w ++ [ev]) (cwd w) (home w)
        (umask w) (localtime w).

(** [fprintf(stderr, ...)], [printf(...)] and [perror(...)]. *)
Definition eprint (text : string) : world -> world := emit (Stderr text).
Definition print (text : string) : world -> world := emit (Stdout text).
Definition perror (prefix : string) (w : world) : world :=
  emit (Perror prefix (errno w)) w.

(** [random_delay] seeds the generator and sleeps: only time passes. *)
Definition random_delay (w : world) : world := w.

(** How a call that may leave the program ends. *)
Inductive outcome (A : Type) : Type :=
| Done (a : A)          (* it returned *)
| Exit (status : Z)     (* exit() was called *)
| Overrun               (* a fixed buffer was overrun: undefined *)
| Diverge.              (* the recursion never ends *)
Arguments Done {A} a.
Arguments Exit {A} status.
Arguments Overrun {A}.
Arguments Diverge {A}.

(** ** Time formatting *)

Module Strftime.

(** A number as [strftime] prints it for a conversion of minimal
    width [width]: a sign when negative, then the decimal digits
    padded on the left with zeros. *)
Definition zeros (n : nat) : string :=
  fold_right (fun _ s => String "0" s) EmptyString (seq 0 n).

Definition number (width : nat) (v : Z) : string :=
  let ds := NilZero.string_of_uint (N.to_uint (Z.abs_N v)) in
  (if (v <? 0)%Z then "-" else "") +++ zeros (width - len ds) +++ ds.

(** ["Backup %Y-%m-%d %H-%M-%S"] *)
Definition format (t : tm) : string :=
  "Backup " +++ number 1 (tm_year t + 1900) +++ "-"
    +++ number 2 (tm_mon t + 1) +++ "-" +++ number 2 (tm_mday t)
    +++ " " +++ number 2 (tm_hour t) +++ "-" +++ number 2 (tm_min t)
    +++ "-" +++ number 2 (tm_sec t).

(** [strftime(buf, max, fmt, &tm)]: the text when it fits in [max]
    bytes with its terminator; otherwise the call returns 0. *)
Definition strftime (max : nat) (t : tm) : option string :=
  let s := format t in
  if len s <? max then Some s else None.

End Strftime.

(** ** create_timestamped_dir *)

Definition create_timestamped_dir (base_path : string) (w : world)
  : outcome string * world :=
  match localtime w with
  | None =>
      (Exit EXIT_FAILURE,
       perror (RED +++ "Failed to get local time" +++ RESET)
              (set_errno EOVERFLOW w))
  | Some tm_info =>
      match Strftime.strftime 30 tm_info with
      | None =>
          (Exit EXIT_FAILURE,
           eprint (RED +++ "   [ERROR] Failed to format timestamp." +++ NL +++ RESET)
                  (random_delay w))
      | Some timestamp =>
          let full := base_path +++ "/" +++ timestamp in
          if PATH_MAX <=? len full then
            (Exit EXIT_FAILURE,
             eprint ("Path is too long" +++ NL) (random_delay w))
          else (Done (snprintf PATH_MAX full), w)
      end
  end.


(** Octal constants, written as in the C source. *)
Fixpoint octal_digits (s : string) (acc : Z) : Z :=
  match s with
  | EmptyString => acc
  | String c r => octal_digits r (8 * acc + (Z.of_nat (nat_of_ascii c) - 48))%Z
  end.
Definition octal (s : string) : Z := octal_digits s 0%Z.

(** ** The file system *)

Module Fs.

Definition S_IFMT : Z := Eval cbv in octal "170000".
Definition S_IFDIR : Z := Eval cbv in octal "040000".
Definition S_IFREG : Z := Eval cbv in octal "100000".
Definition S_IFLNK : Z := Eval cbv in octal "120000".
Definition S_IFCHR : Z := Eval cbv in octal "020000".
Definition S_IFBLK : Z := Eval cbv in octal "060000".
Definition S_IFIFO : Z := Eval cbv in octal "010000".
Definition S_IFSOCK : Z := Eval cbv in octal "140000".
Definition ALLPERMS : Z := Eval cbv in octal "7777".

Definition S_ISDIR (m : Z) : bool := (Z.land m S_IFMT =? S_IFDIR)%Z.
Definition S_ISREG (m : Z) : bool := (Z.land m S_IFMT =? S_IFREG)%Z.

Definition fmt_of (kind : special) : Z :=
  match kind with
  | Chr => S_IFCHR
  | Blk => S_IFBLK
  | Fifo => S_IFIFO
  | Sock => S_IFSOCK
  end.

(** [st_mode] of an inode: the type bits and the permission bits. *)
Definition st_mode (n : inode) : Z :=
  match n with
  | IReg _ perm _ => Z.lor S_IFREG (Z.land perm ALLPERMS)
  | IDir _ perm _ => Z.lor S_IFDIR (Z.land perm ALLPERMS)
  | ILnk _ => Z.lor S_IFLNK (octal "777")
  | IOther kind _ perm => Z.lor (fmt_of kind) (Z.land perm ALLPERMS)
  end.

(** Access checks.  [bit] is 2 for read, 1 for write, 0 for search or
    execute; the owner's class is used for an inode the user owns and
    the "other" class otherwise. *)
Definition R : Z := 2.
Definition W : Z := 1.
Definition X : Z := 0.
Definition may (bit : Z) (own : bool) (perm : Z) : bool :=
  Z.testbit perm (if own then bit + 6 else bit)%Z.

Definition may_inode (bit : Z) (n : inode) : bool :=
  match n with
  | IReg own perm _ | IDir own perm _ | IOther _ own perm => may bit own perm
  | ILnk _ => true
  end.

Definition ROOT : nat := 0.
Definition MAXSYMLINKS : nat := 40.

(** The directories walked through so far, deepest first, each with
    the name it was reached by; the empty stack is the root. *)
Definition stack : Type := list (string * nat).

Definition top (stk : stack) : nat :=
  match stk with
  | [] => ROOT
  | (_, i) :: _ => i
  end.

Fixpoint assoc (name : string) (ents : list (string * nat)) : option nat :=
  match ents with
  | [] => None
  | (k, i) :: r => if String.eqb k name then Some i else assoc name r
  end.

Definition components (p : string) : list string :=
  List.filter nonempty (split "/" p).

Inductive walked : Type :=
| Found (stk : stack)                    (* every component resolved *)
| Absent (stk : stack) (name : string)   (* only the last one is missing *)
| Link (stk : stack) (target : string) (rest : list string)
| Fail (e : errno_t).

Definition is_nil {A} (l : list A) : bool :=
  match l with [] => true | _ => false end.

(** One pass over the components, up to the first symbolic link that
    has to be followed. *)
Fixpoint walk (t : list inode) (follow : bool) (stk : stack)
         (cs : list string) : walked :=
  match cs with
  | [] => Found stk
  | c :: rest =>
      match t !! top stk with
      | Some (IDir own perm ents) =>
          if negb (may X own perm) then Fail EACCES
          else if String.eqb c "." then walk t follow stk rest
          else if String.eqb c ".." then walk t follow (tail stk) rest
          else if NAME_MAX <? len c then Fail ENAMETOOLONG
          else
            match assoc c ents with
            | None => if is_nil rest then Absent stk c else Fail ENOENT
            | Some i =>
                match t !! i with
                | Some (ILnk target) =>
                    if follow || negb (is_nil rest)
                    then Link stk target rest
                    else walk t follow ((c, i) :: stk) rest
                | Some _ => walk t follow ((c, i) :: stk) rest
                | None => Fail ENOENT
                end
            end
      | Some _ => Fail ENOTDIR
      | None => Fail ENOENT
      end
  end.

(** Resolution proper: at most [hops] symbolic links are followed. *)
Fixpoint resolve (hops : nat) (t : list inode) (follow : bool)
         (stk : stack) (cs : list string) : walked :=
  match walk t follow stk cs with
  | Link stk' target rest =>
      match hops with
      | O => Fail ELOOP
      | S h =>
          if nonempty target then
            resolve h t follow
                    (if starts_with "/" target then [] else stk')
                    (components target ++ rest)
          else Fail ENOENT
      end
  | r => r
  end.

Definition namei (w : world) (follow : bool) (p : string) : walked :=
  if negb (nonempty p) then Fail ENOENT
  else if PATH_MAX <=? len p then Fail ENAMETOOLONG
  else resolve MAXSYMLINKS (inodes w) follow []
               (if starts_with "/" p then components p
                else components (cwd w) ++ components p).

Definition error_of (r : walked) : errno_t :=
  match r with
  | Fail e => e
  | Absent _ _ => ENOENT
  | Link _ _ _ => ELOOP
  | Found _ => E0
  end.

(** *** System calls.  A failing call sets [errno]. *)

Definition stat (p : string) (w : world) : option Z * world :=
  match namei w true p with
  | Found stk =>
      match inodes w !! top stk with
      | Some n => (Some (st_mode n), w)
      | None => (None, set_errno ENOENT w)
      end
  | r => (None, set_errno (error_of r) w)
  end.

(** Append the entry [name -> i] to the directory inode [d]. *)
Definition link_in (d : nat) (name : string) (i : nat) (t : list inode)
  : list inode :=
  match t !! d with
  | Some (IDir own perm ents) => <[d := IDir own perm (ents ++ [(name, i)])]> t
  | _ => t
  end.

(** Create a new inode [n] under the name [name] in directory [d]. *)
Definition create (d : nat) (name : string) (n : inode) (w : world)
  : option nat * world :=
  match inodes w !! d with
  | Some (IDir own perm _) =>
      if may W own perm then
        let i := length (inodes w) in
        (Some i, set_inodes (link_in d name i (inodes w) ++ [n]) w)
      else (None, set_errno EACCES w)
  | _ => (None, set_errno ENOTDIR w)
  end.

Definition masked (mode : Z) (w : world) : Z :=
  Z.land mode (Z.lnot (umask w)).

(** [mkdir(p, mode)]: [true] when the call returned 0. *)
Definition mkdir (p : string) (mode : Z) (w : world) : bool * world :=
  match namei w false p with
  | Found _ => (false, set_errno EEXIST w)
  | Absent stk name =>
      match create (top stk) name (IDir true (masked mode w) []) w with
      | (Some _, w') => (true, w')
      | (None, w') => (false, w')
      end
  | r => (false, set_errno (error_of r) w)
  end.

(** [opendir(p)] and the names the following [readdir] calls give,
    as they stand when the directory is opened. *)
Definition opendir (p : string) (w : world) : option (list string) * world :=
  match namei w true p with
  | Found stk =>
      match inodes w !! top stk with
      | Some (IDir own perm ents) =>
          if may R own perm then (Some ("." :: ".." :: map fst ents), w)
          else (None, set_errno EACCES w)
      | Some _ => (None, set_errno ENOTDIR w)
      | None => (None, set_errno ENOENT w)
      end
  | r => (None, set_errno (error_of r) w)
  end.

(** [fopen(p, "r")]: the stream is the inode it reads from. *)
Definition fopen_r (p : string) (w : world) : option nat * world :=
  match namei w true p with
  | Found stk =>
      match inodes w !! top stk with
      | Some n =>
          if may_inode R n then (Some (top stk), w)
          else (None, set_errno EACCES w)
      | None => (None, set_errno ENOENT w)
      end
  | r => (None, set_errno (error_of r) w)
  end.

(** What reading the stream to its end yields. *)
Definition contents (i : nat) (w : world) : string :=
  match inodes w !! i with
  | Some (IReg _ _ data) => data
  | _ => EmptyString
  end.

(** [fopen(p, "w")]: truncate an existing file or create a new one
    with mode [0666 & ~umask]. *)
Definition fopen_w (p : string) (w : world) : option nat * world :=
  match namei w true p with
  | Found stk =>
      let i := top stk in
      match inodes w !! i with
      | Some (IReg own perm _) =>
          if may W own perm
          then (Some i, set_inodes (<[i := IReg own perm EmptyString]> (inodes w)) w)
          else (None, set_errno EACCES w)
      | Some (IDir _ _ _) => (None, set_errno EISDIR w)
      | Some (IOther _ own perm) =>
          if may W own perm then (Some i, w) else (None, set_errno EACCES w)
      | Some (ILnk _) => (None, set_errno ELOOP w)
      | None => (None, set_errno ENOENT w)
      end
  | Absent stk name =>
      create (top stk) name (IReg true (masked (octal "666") w) EmptyString) w
  | r => (None, set_errno (error_of r) w)
  end.

(** Write [buf] at the end of the stream [i]; the number of bytes
    that were written.  A regular file takes what the device still
    has room for; a device or FIFO takes everything. *)
Definition write (i : nat) (buf : string) (w : world) : nat * world :=
  match inodes w !! i with
  | Some (IReg own perm data) =>
      let n := Nat.min (len buf) (space w) in
      let w' := set_space (space w - n)
                  (set_inodes (<[i := IReg own perm (data +++ take n buf)]> (inodes w)) w) in
      (n, if n <? len buf then set_errno ENOSPC w' else w')
  | Some (IOther _ _ _) => (len buf, w)
  | _ => (0, set_errno EISDIR w)
  end.

(** [chmod(p, mode)]: [true] when the call returned 0. *)
Definition chmod (p : string) (mode : Z) (w : world) : bool * world :=
  match namei w true p with
  | Found stk =>
      let i := top stk in
      let m := Z.land mode ALLPERMS in
      match inodes w !! i with
      | Some (IReg true _ data) =>
          (true, set_inodes (<[i := IReg true m data]> (inodes w)) w)
      | Some (IDir true _ ents) =>
          (true, set_inodes (<[i := IDir true m ents]> (inodes w)) w)
      | Some (IOther fmt true _) =>
          (true, set_inodes (<[i := IOther fmt true m]> (inodes w)) w)
      | Some _ => (false, set_errno EPERM w)
      | None => (false, set_errno ENOENT w)
      end
  | r => (false, set_errno (error_of r) w)
  end.

Fixpoint join (names : list string) : string :=
  match names with
  | [] => EmptyString
  | n :: r => "/" +++ n +++ join r
  end.

(** [realpath(p, buf)]: the canonical absolute path of [p]. *)
Definition realpath (p : string) (w : world) : option string * world :=
  match namei w true p with
  | Found stk =>
      let names := rev (map fst stk) in
      let canon := if is_nil names then "/" else join names in
      if PATH_MAX <=? len canon then (None, set_errno ENAMETOOLONG w)
      else (Some canon, w)
  | r => (None, set_errno (error_of r) w)
  end.

End Fs.

(** ** The configuration store *)

Definition NUL : ascii := ascii_of_nat 0.
Definition LF : ascii := ascii_of_nat 10.

(** The C string a [char] buffer holds: what comes before the first
    zero byte. *)
Definition c_str (buf : string) : string := take (strcspn NUL buf) buf.

(** The bytes [fgets] stores: up to the first newline, included, and at
    most [k] of them. *)
Fixpoint line (k : nat) (data : string) : string :=
  match k, data with
  | S k', String c r =>
      String c (if Ascii.eqb c LF then EmptyString else line k' r)
  | _, _ => EmptyString
  end.

(** [fgets(buf, n, f)] on a stream that still has [data] to give:
    [None] when the call returns [NULL]. *)
Definition fgets (n : nat) (data : string) : option string :=
  if nonempty data then Some (line (n - 1) data) else None.

(** [buf[strcspn(buf, "\n")] = 0]: the C string left in the buffer. *)
Definition stripped (got : string) : string :=
  take (strcspn LF (c_str got)) (c_str got).

Definition config_path_of (w : world) : string :=
  snprintf PATH_MAX (CONFIG_FILE_PATH (home w)).

Definition read_default_backup_dir (w : world) : string * world :=
  let config_path := config_path_of w in
  let w := eprint (GRAY +++ "[DEBUG] Reading config file: " +++ config_path
                     +++ NL +++ RESET) (random_delay w) in
  let fallback (w : world) :=
    (DEFAULT_TARGET_DIR,
     eprint (YELLOW +++ "   [WARNING] Config file not found or empty. Using default target directory."
               +++ NL +++ RESET) (random_delay w)) in
  match Fs.fopen_r config_path w with
  | (Some config_file, w) =>
      match fgets PATH_MAX (Fs.contents config_file w) with
      | Some got =>
          let default_target_dir := stripped got in
          (default_target_dir,
           eprint (GRAY +++ "[DEBUG] Default target directory read: "
                     +++ default_target_dir +++ NL +++ RESET) (random_delay w))
      | None => fallback w
      end
  | (None, w) => fallback w
  end.

(** [strncpy] into [dir_path], then the cut at the last slash. *)
Definition dirname (config_path : string) : string :=
  let dir_path := take PATH_MAX config_path in
  match strrchr "/" dir_path with
  | Some last_slash => take last_slash dir_path
  | None => dir_path
  end.

Definition ensure_config_dir_exists (config_path : string) (w : world) : world :=
  let dir_path := dirname config_path in
  let w := eprint (GRAY +++ "[DEBUG] Ensuring config directory exists: "
                     +++ dir_path +++ NL +++ RESET) (random_delay w) in
  match Fs.mkdir dir_path (octal "755") w with
  | (true, w) => w
  | (false, w) =>
      if negb (errno_eqb (errno w) EEXIST) then
        perror (RED +++ "Failed to create config directory" +++ RESET) w
      else
        eprint (GRAY +++ "[DEBUG] Config directory already exists." +++ NL +++ RESET)
               (random_delay w)
  end.

(** The second half of [write_default_backup_dir], from [fopen] on. *)
Definition store (config_path new_default_dir : string) (w : world) : world :=
  match Fs.fopen_w config_path w with
  | (Some config_file, w) =>
      let w := snd (Fs.write config_file new_default_dir (random_delay w)) in
      eprint (GRAY +++ "[DEBUG] Config file updated successfully." +++ NL +++ RESET)
             (random_delay w)
  | (None, w) =>
      perror (RED +++ "Failed to update default backup directory" +++ RESET) w
  end.

Definition write_default_backup_dir (new_default_dir : string) (w : world)
  : world :=
  let config_path := config_path_of w in
  let w := ensure_config_dir_exists config_path w in
  let w := eprint (GRAY +++ "[DEBUG] Writing new default directory to config file: "
                     +++ config_path +++ NL +++ RESET) (random_delay w) in
  store config_path new_default_dir w.

(** ** copy_file *)

Definition BUFSIZE : nat := 4096.

(** [fread(buffer, 1, sizeof(buffer), src_file)] with the stream at
    offset [off]. *)
Definition fread (src_file : nat) (off : nat) (w : world) : string :=
  take BUFSIZE (drop off (Fs.contents src_file w)).

(** The read-and-write loop.  [fuel] bounds the number of rounds; see
    [copy_loop_fuel] for why the bound used below is never reached. *)
Fixpoint copy_loop (fuel : nat) (src dest : string) (src_file dest_file : nat)
         (off : nat) (w : world) : world :=
  match fuel with
  | O => w
  | S fuel' =>
      let buffer := fread src_file off w in
      let bytes := len buffer in
      if bytes =? 0 then w
      else
        match Fs.write dest_file buffer w with
        | (written, w) =>
            if written =? bytes then
              copy_loop fuel' src dest src_file dest_file (off + bytes) w
            else
              eprint (RED +++ "   [ERROR] Write error occurred while copying file: "
                        +++ src +++ " -> " +++ dest +++ NL +++ RESET)
                     (random_delay
                        (perror (RED +++ "Failed to write to destination file" +++ RESET) w))
        end
  end.

Definition copy_file (src dest : string) (w : world) : world :=
  match Fs.fopen_r src w with
  | (None, w) =>
      eprint (RED +++ "   [ERROR] Could not open source file: " +++ src +++ NL +++ RESET)
             (random_delay (perror (RED +++ "Failed to open source file" +++ RESET) w))
  | (Some src_file, w) =>
      let w := eprint (GRAY +++ "   [INFO] Opened source file: " +++ src +++ NL +++ RESET)
                      (random_delay w) in
      match Fs.fopen_w dest w with
      | (None, w) =>
          eprint (RED +++ "   [ERROR] Could not open destination file: " +++ dest
                    +++ NL +++ RESET)
                 (random_delay
                    (perror (RED +++ "Failed to open destination file" +++ RESET) w))
      | (Some dest_file, w) =>
          let w := eprint (GRAY +++ "   [INFO] Created destination file: " +++ dest
                             +++ NL +++ RESET) (random_delay w) in
          let w := copy_loop (S (len (Fs.contents src_file w))) src dest
                             src_file dest_file 0 w in
          let w := eprint (GRAY +++ "   [INFO] File copy completed: " +++ src +++ " -> "
                             +++ dest +++ NL +++ RESET) (random_delay w) in
          match Fs.stat src w with
          | (Some st_mode, w) =>
              match Fs.chmod dest st_mode w with
              | (false, w) =>
                  eprint (YELLOW +++ "   [WARNING] Permissions not set correctly for: "
                            +++ dest +++ NL +++ RESET)
                         (random_delay
                            (perror (RED +++ "Failed to set file permissions" +++ RESET) w))
              | (true, w) =>
                  eprint (GRAY +++ "   [INFO] Permissions set successfully for: " +++ dest
                            +++ NL +++ RESET) (random_delay w)
              end
          | (None, w) => w
          end
      end
  end.

(** ** copy_directory *)

Definition child_path (dir name : string) : string :=
  snprintf PATH_MAX (dir +++ "/" +++ name).

Section Copy_directory.

(** The recursive call; [None] when it does not return. *)
Variable recurse : string -> string -> world -> option world.

(** The body of the [while] loop for the entry [d_name]. *)
Definition copy_entry (src dest : string) (d_name : string) (w : world)
  : option world :=
  if String.eqb d_name "." || String.eqb d_name ".." then Some w
  else
    let src_path := child_path src d_name in
    let dest_path := child_path dest d_name in
    match Fs.stat src_path w with
    | (Some st_mode, w) =>
        if Fs.S_ISDIR st_mode then
          let w := eprint (GRAY +++ "   [INFO] Found directory: " +++ src_path
                             +++ NL +++ RESET) (random_delay w) in
          (* a call with the arguments of this one: it would make
             the same call in turn, without end *)
          if String.eqb src_path src && String.eqb dest_path dest then None
          else recurse src_path dest_path w
        else if Fs.S_ISREG st_mode then
          let w := eprint (GRAY +++ "   [INFO] Found file: " +++ src_path
                             +++ NL +++ RESET) (random_delay w) in
          Some (copy_file src_path dest_path w)
        else
          Some (eprint (YELLOW +++ "   [WARNING] Skipped unknown entry type: "
                          +++ src_path +++ NL +++ RESET) (random_delay w))
    | (None, w) =>
        Some (eprint (YELLOW +++ "   [WARNING] Could not stat entry: " +++ src_path
                        +++ NL +++ RESET)
                     (random_delay (perror "Failed to retrieve file metadata" w)))
    end.

Fixpoint copy_entries (src dest : string) (names : list string) (w : world)
  : option world :=
  match names with
  | [] => Some w
  | d_name :: rest =>
      match copy_entry src dest d_name w with
      | Some w => copy_entries src dest rest w
      | None => None
      end
  end.

Definition copy_directory_body (src dest : string) (w : world) : option world :=
  match Fs.opendir src w with
  | (None, w) =>
      Some (eprint (RED +++ "   [ERROR] Could not open directory: " +++ src
                      +++ NL +++ RESET)
                   (random_delay
                      (perror (RED +++ "Failed to open source directory" +++ RESET) w)))
  | (Some names, w) =>
      let w := eprint (GRAY +++ "   [INFO] Opened source directory: " +++ src
                         +++ NL +++ RESET) w in
      match Fs.mkdir dest (octal "755") w with
      | (made, w) =>
          if negb made && negb (errno_eqb (errno w) EEXIST) then
            Some (eprint (RED +++ "   [ERROR] Could not create destination directory: "
                            +++ dest +++ NL +++ RESET)
                         (random_delay
                            (perror (RED +++ "Failed to create destination directory"
                                       +++ RESET) w)))
          else
            let w := eprint (GRAY +++ "   [INFO] Destination directory created or already exists: "
                               +++ dest +++ NL +++ RESET) (random_delay w) in
            match copy_entries src dest names w with
            | Some w =>
                Some (eprint (GRAY +++ "   [INFO] Finished processing directory: "
                                +++ src +++ NL +++ RESET) (random_delay w))
            | None => None
            end
      end
  end.

End Copy_directory.

(** Every nested call has a longer source or destination path, until
    both have the greatest length a path buffer holds. *)
Definition room (src dest : string) : nat :=
  (PATH_MAX - len src) + (PATH_MAX - len dest).

Fixpoint copy_directory_at (depth : nat) (src dest : string) (w : world)
  : option world :=
  copy_directory_body
    (fun src' dest' w' =>
       match depth with
       | O => None
       | S d => copy_directory_at d src' dest' w'
       end)
    src dest w.

Definition copy_directory (src dest : string) (w : world) : option world :=
  copy_directory_at (room src dest) src dest w.

(** ** main *)

Definition usage (prog : string) : string :=
  "Usage: " +++ prog +++ " [-t target_dir] source_dir" +++ NL.

(** The [default:] branch of the [switch]. *)
Definition invalid_usage {A} (prog : string) (w : world) : outcome A * world :=
  (Exit EXIT_FAILURE,
   eprint (usage prog)
          (eprint (RED +++ "   [ERROR] Invalid usage." +++ NL +++ RESET)
                  (random_delay w))).

(** What the option loop leaves behind: [target_dir], [update_default]
    and the operands, which [getopt] has moved behind the options. *)
Record parsed : Type := Parsed {
  p_target_dir : string;
  p_update_default : bool;
  p_operands : list string
}.

(** The [while ((opt = getopt(argc, argv, "t:")) != -1)] loop over the
    arguments after [argv[0]].  [getopt] reports an unknown option and a
    missing option argument on [stderr] itself and returns ['?']. *)
Fixpoint option_loop (prog : string) (args : list string)
         (target_dir : string) (update_default : bool)
         (operands : list string) (w : world) : outcome parsed * world :=
  let case_t (optarg : string) (rest : list string)
             (continue : string -> world -> outcome parsed * world) :=
    let w := eprint (GRAY +++ "[DEBUG] -t option provided with argument: "
                       +++ optarg +++ NL +++ RESET) (random_delay w) in
    match Fs.realpath optarg w with
    | (None, w) =>
        (Exit EXIT_FAILURE,
         perror (RED +++ "Invalid target directory" +++ RESET) w)
    | (Some resolved, w) => continue resolved w
    end in
  match args with
  | [] => (Done (Parsed target_dir update_default (rev operands)), w)
  | arg :: rest =>
      if String.eqb arg "--" then
        (Done (Parsed target_dir update_default (rev operands ++ rest)), w)
      else
        match arg with
        | String "-" (String c more) =>
            if Ascii.eqb c "t" then
              match more with
              | EmptyString =>
                  match rest with
                  | [] =>
                      invalid_usage prog
                        (eprint (prog +++ ": option requires an argument -- 't'" +++ NL) w)
                  | optarg :: rest' =>
                      case_t optarg rest'
                        (fun resolved w =>
                           option_loop prog rest' resolved true operands w)
                  end
              | _ =>
                  case_t more rest
                    (fun resolved w =>
                       option_loop prog rest resolved true operands w)
              end
            else
              invalid_usage prog
                (eprint (prog +++ ": invalid option -- '" +++ String c EmptyString
                           +++ "'" +++ NL) w)
        | _ => option_loop prog rest target_dir update_default (arg :: operands) w
        end
  end.

(** The part of [main] after the source directory has been validated. *)
Definition backup (source_dir target_dir : string) (w : world)
  : outcome Z * world :=
  let w := eprint (GRAY +++ "[DEBUG] Creating timestamped backup directory in: "
                     +++ target_dir +++ NL +++ RESET) (random_delay w) in
  match create_timestamped_dir target_dir w with
  | (Done backup_dir, w) =>
      match Fs.mkdir backup_dir (octal "755") w with
      | (false, w) =>
          (Exit EXIT_FAILURE,
           perror (RED +++ "Failed to create backup directory" +++ RESET) w)
      | (true, w) =>
          let w := print ("Backing up '" +++ source_dir +++ "' to '" +++ backup_dir
                            +++ "'" +++ NL) (random_delay w) in
          let w := eprint (GRAY +++ "[DEBUG] Starting backup process." +++ NL +++ RESET)
                          (random_delay w) in
          match copy_directory source_dir backup_dir w with
          | None => (Diverge, w)
          | Some w =>
              let w := eprint (GRAY +++ "[DEBUG] Backup process completed successfully."
                                 +++ NL +++ RESET) (random_delay w) in
              (Done 0%Z, print ("Backup completed successfully!" +++ NL) (random_delay w))
          end
      end
  | (Exit status, w) => (Exit status, w)
  | (Overrun, w) => (Overrun, w)
  | (Diverge, w) => (Diverge, w)
  end.

(** [main(argc, argv)] with [argv[0] = prog] and [args] the rest. *)
Definition main (prog : string) (args : list string) (w : world)
  : outcome Z * world :=
  let target_dir := DEFAULT_TARGET_DIR in
  let w := eprint (GRAY +++ "[DEBUG] Starting backup tool." +++ NL +++ RESET) w in
  match option_loop prog args target_dir false [] w with
  | (Done (Parsed target_dir update_default operands), w) =>
      if update_default then
        let w := eprint (GRAY +++ "[DEBUG] Updating default backup directory to: "
                           +++ target_dir +++ NL +++ RESET) (random_delay w) in
        let w := write_default_backup_dir target_dir w in
        (Done 0%Z,
         print ("Updated default backup directory to: " +++ target_dir +++ NL)
               (random_delay w))
      else
        let w := eprint (GRAY +++ "[DEBUG] Reading default backup directory." +++ NL
                           +++ RESET) (random_delay w) in
        match read_default_backup_dir w with
        | (target_dir, w) =>
            match operands with
            | [] =>
                (Exit EXIT_FAILURE,
                 eprint (usage prog)
                        (eprint (RED +++ "   [ERROR] Expected source_dir after options."
                                   +++ NL +++ RESET) (random_delay w)))
            | operand :: _ =>
                (* strcpy(source_dir, argv[optind]) into PATH_MAX bytes *)
                if PATH_MAX <=? len operand then (Overrun, w)
                else
                  let source_dir := operand in
                  let w := eprint (GRAY +++ "[DEBUG] Validating source directory: "
                                     +++ source_dir +++ NL +++ RESET) (random_delay w) in
                  match Fs.stat source_dir w with
                  | (Some st_mode, w) =>
                      if Fs.S_ISDIR st_mode then backup source_dir target_dir w
                      else
                        (Exit EXIT_FAILURE,
                         perror (RED +++ "Invalid source directory" +++ RESET) w)
                  | (None, w) =>
                      (Exit EXIT_FAILURE,
                       perror (RED +++ "Invalid source directory" +++ RESET) w)
                  end
            end
        end
  | (Exit status, w) => (Exit status, w)
  | (Overrun, w) => (Overrun, w)
  | (Diverge, w) => (Diverge, w)
  end.

(** ** handle_error *)

(** [handle_error(msg)]: [perror], the [FATAL] line, [exit].  No
    function of the program calls it. *)
Definition handle_error {A} (msg : string) (w : world) : outcome A * world :=
  (Exit EXIT_FAILURE,
   eprint (RED +++ "[FATAL] Program terminating due to error: " +++ msg
               +++ NL +++ RESET)
          (random_delay (perror msg w))).

(** ** Names of directory entries *)

(** A name a directory entry can have: not empty, without a slash,
    neither [.] nor [..], of [NAME_MAX] bytes at most. *)
Definition entry_name (name : string) : Prop :=
  nonempty name = true /\ has "/" name = false
  /\ name <> "." /\ name <> ".." /\ len name <= NAME_MAX.

(** Between [w] and [w'] nothing but the configuration was touched: a
    regular file of [w'] is a file of [w] with the same bytes and mode,
    or is the file [cfg] names; a directory that is new is the one
    [dirname cfg] names; at most two inodes are new. *)
Definition config_only (cfg : string) (w w' : world) : Prop :=
  length (inodes w') <= length (inodes w) + 2
  /\ (forall i own perm data,
        inodes w' !! i = Some (IReg own perm data) ->
        inodes w !! i = Some (IReg own perm data)
        \/ exists stk, Fs.namei w' true cfg = Fs.Found stk /\ Fs.top stk = i)
  /\ (forall i own perm ents,
        inodes w' !! i = Some (IDir own perm ents) ->
        length (inodes w) <= i ->
        exists stk, Fs.namei w' false (dirname cfg) = Fs.Found stk
                    /\ Fs.top stk = i).

(** The path [cfg] names a regular file whose bytes are [c], or a
    device, which keeps nothing. *)
Definition holds (cfg c : string) (w : world) : Prop :=
  exists stk n,
    Fs.namei w true cfg = Fs.Found stk /\ inodes w !! Fs.top stk = Some n
    /\ match n with
       | IReg _ _ data => data = c
       | IOther _ _ _ => True
       | _ => False
       end.

(** Among the events [k] is the report that the configuration file
    could not be written. *)
Definition update_failed (k : list event) : Prop :=
  exists e, In (Perror (RED +++ "Failed to update default backup directory"
                            +++ RESET) e) k.

(** The world a new process finds on the machine [w] was left in. *)
Definition restart (w : world) : world :=
  World (inodes w) (space w) E0 [] (cwd w) (home w) (umask w) (localtime w).

(** ** A sample machine *)

Module Sample.

(** [/], [/home], [/home/pi], [/home/pi/docs] with a readable file, an
    unreadable one, a FIFO, a symbolic link to the readable file and a
    sub-directory; [/media/pi/piBackup] is the backup disk, next to a
    directory with a newline in its name. *)
Definition rwx : Z := octal "755".
Definition fs : list inode :=
  [ (* 0 *) IDir false rwx [("home", 1); ("media", 9)];
    (* 1 *) IDir false rwx [("pi", 2)];
    (* 2 *) IDir true rwx [("docs", 3)];
    (* 3 *) IDir true rwx [("a.txt", 4); ("secret", 5); ("pipe", 6);
                           ("link", 7); ("sub", 8)];
    (* 4 *) IReg true (octal "640") "hello";
    (* 5 *) IReg true (octal "000") "hidden";
    (* 6 *) IOther Fifo true (octal "644");
    (* 7 *) ILnk "a.txt";
    (* 8 *) IDir true (octal "700") [("b.txt", 12)];
    (* 9 *) IDir false rwx [("pi", 10)];
    (* 10 *) IDir true rwx [("piBackup", 11); ("two" +++ NL +++ "lines", 13)];
    (* 11 *) IDir true rwx [];
    (* 12 *) IReg true (octal "600") "world";
    (* 13 *) IDir true rwx [] ].

Definition now : tm := Tm 124 10 5 9 3 7.

Definition w0 : world :=
  World fs 2000 E0 [] "/home/pi" "/home/pi" (octal "022") (Some now).

(** The machine a second run finds after [backup docs]. *)
Definition after_backup : world := restart (snd (main "backup" ["docs"] w0)).

(** The machine after [copy_directory("docs", dest)]. *)
Definition dest : string := "/media/pi/piBackup/new".
Definition copied : world :=
  match copy_directory "docs" dest w0 with
  | Some w => w
  | None => w0
  end.

End Sample.

(** ** The shape of the time stamp *)

Module Stamp.

(** The digit of weight [10^k] of [v]. *)
Definition digit (k : nat) (v : Z) : ascii :=
  ascii_of_nat (48 + Z.to_nat ((v / 10 ^ Z.of_nat k) mod 10)).

(** [v] on exactly [width] decimal digits. *)
Fixpoint digits (width : nat) (v : Z) : string :=
  match width with
  | O => EmptyString
  | S k => String (digit k v) (digits k v)
  end.

(** [Backup YYYY-MM-DD HH-MM-SS], the name the specification gives. *)
Definition name (t : tm) : string :=
  "Backup " +++ digits 4 (tm_year t + 1900) +++ "-"
    +++ digits 2 (tm_mon t + 1) +++ "-" +++ digits 2 (tm_mday t)
    +++ " " +++ digits 2 (tm_hour t) +++ "-" +++ digits 2 (tm_min t)
    +++ "-" +++ digits 2 (tm_sec t).

(** A broken-down time as [localtime_r] fills it, in a year of four
    digits. *)
Definition calendar (t : tm) : Prop :=
  (1000 <= tm_year t + 1900 <= 9999 /\ 0 <= tm_mon t <= 11 /\
   1 <= tm_mday t <= 31 /\ 0 <= tm_hour t <= 23 /\
   0 <= tm_min t <= 59 /\ 0 <= tm_sec t <= 60)%Z.

End Stamp.

(** ** Comparing inode tables *)

(** [n'] is the inode [n] at a later time in a run of the program,
    which writes and creates files and directories but removes and
    renames nothing: a name a directory had is still there, a symbolic
    link is unchanged, and no inode changes its type. *)
Definition grows_inode (n n' : inode) : Prop :=
  match n, n' with
  | IReg _ _ _, IReg _ _ _ => True
  | IDir own perm ents, IDir own' perm' ents' =>
      own' = own /\ perm' = perm
      /\ forall c i, Fs.assoc c ents = Some i -> Fs.assoc c ents' = Some i
  | ILnk target, ILnk target' => target' = target
  | IOther _ _ _, IOther _ _ _ => True
  | _, _ => False
  end.

Definition grows (t t' : list inode) : Prop :=
  forall i n, t !! i = Some n -> exists n', t' !! i = Some n' /\ grows_inode n n'.

Definition is_link (n : inode) : bool :=
  match n with ILnk _ => true | _ => false end.

(** The inode table after [Fs.create d name n]. *)
Definition created (d : nat) (name : string) (n : inode) (t : list inode)
  : list inode :=
  Fs.link_in d name (length t) t ++ [n].

(** ** Entries and their types *)

(** [lstat]: the mode of the entry itself; a symbolic link is not
    followed. *)
Definition lstat (p : string) (w : world) : option Z :=
  match Fs.namei w false p with
  | Fs.Found stk => Fs.st_mode <$> inodes w !! Fs.top stk
  | _ => None
  end.

(** The lines [copy_directory] writes about an entry. *)
Definition found_directory (src_path : string) (w : world) : world :=
  eprint (GRAY +++ "   [INFO] Found directory: " +++ src_path +++ NL +++ RESET)
         (random_delay w).
Definition found_file (src_path : string) (w : world) : world :=
  eprint (GRAY +++ "   [INFO] Found file: " +++ src_path +++ NL +++ RESET)
         (random_delay w).
Definition skipped (src_path : string) (w : world) : world :=
  eprint (YELLOW +++ "   [WARNING] Skipped unknown entry type: " +++ src_path
            +++ NL +++ RESET) (random_delay w).
Definition not_statted (src_path : string) (w : world) : world :=
  eprint (YELLOW +++ "   [WARNING] Could not stat entry: " +++ src_path
            +++ NL +++ RESET)
         (random_delay (perror "Failed to retrieve file metadata" w)).

(** Dispatch on the type of the entry itself, a symbolic link counting
    among the types that are skipped: the reading of the loop under
    which links, devices and sockets alike are passed over. *)
Definition dispatch_on_entry_type
           (recurse : string -> string -> world -> option world)
           (src dest d_name : string) (w : world) : Prop :=
  let src_path := child_path src d_name in
  let dest_path := child_path dest d_name in
  forall m, lstat src_path w = Some m ->
    copy_entry recurse src dest d_name w
    = if Fs.S_ISDIR m then recurse src_path dest_path (found_directory src_path w)
      else if Fs.S_ISREG m
           then Some (copy_file src_path dest_path (found_file src_path w))
           else Some (skipped src_path w).

(** The line that shows that the loop of [copy_directory src] came to
    the entry [d_name]. *)
Definition visit_line (src d_name : string) (ev : event) : Prop :=
  let src_path := child_path src d_name in
  ev = Stderr (GRAY +++ "   [INFO] Found directory: " +++ src_path +++ NL +++ RESET)
  \/ ev = Stderr (GRAY +++ "   [INFO] Found file: " +++ src_path +++ NL +++ RESET)
  \/ ev = Stderr (YELLOW +++ "   [WARNING] Skipped unknown entry type: "
                     +++ src_path +++ NL +++ RESET)
  \/ ev = Stderr (YELLOW +++ "   [WARNING] Could not stat entry: " +++ src_path
                     +++ NL +++ RESET).

(** Two worlds with the same file system, clock and user: they differ
    in what has been printed and in [errno] at most. *)
Definition same_fs (w w' : world) : Prop :=
  inodes w' = inodes w /\ space w' = space w /\ cwd w' = cwd w
  /\ home w' = home w /\ umask w' = umask w /\ localtime w' = localtime w.

(** [w'] is [w] later in the same run: what was written on the streams
    is still there, followed by what was written since. *)
Definition later (w w' : world) : Prop := log w `prefix_of` log w'.

(** [w'] is a later state of the machine [w] in which nothing has been
    removed or renamed: the inode table has grown and the working
    directory is the same, so that every path that named something
    still names it. *)
Definition extends (w w' : world) : Prop :=
  grows (inodes w) (inodes w') /\ cwd w' = cwd w.

(** ** Trees *)

(** What [copy_directory] can copy whole.  The inode [i] of the table
    [t], reached as [src] and to be copied as [dest], is a regular file
    the user may read, or a directory the user may read and search,
    other than [avoid], whose entries have names that are distinct and
    well formed, give paths that fit a path buffer, and are of that
    kind in turn.  [depth] bounds the height of the tree. *)
Fixpoint copyable (depth : nat) (t : list inode) (avoid : nat)
         (src dest : string) (i : nat) : Prop :=
  match t !! i with
  | Some (IReg own perm _) => Fs.may Fs.R own perm = true
  | Some (IDir own perm ents) =>
      match depth with
      | O => False
      | S k =>
          i <> avoid
          /\ Fs.may Fs.R own perm = true /\ Fs.may Fs.X own perm = true
          /\ List.NoDup (map fst ents)
          /\ forall name j, In (name, j) ents ->
               entry_name name
               /\ len (src +++ "/" +++ name) < PATH_MAX
               /\ len (dest +++ "/" +++ name) < PATH_MAX
               /\ copyable k t avoid (src +++ "/" +++ name)
                           (dest +++ "/" +++ name) j
      end
  | _ => False
  end.

(** The bytes of the regular files below [i]. *)
Fixpoint tree_size (depth : nat) (t : list inode) (i : nat) : nat :=
  match t !! i with
  | Some (IReg _ _ data) => len data
  | Some (IDir _ _ ents) =>
      match depth with
      | O => 0
      | S k => list_sum (map (fun e => tree_size k t (snd e)) ents)
      end
  | _ => 0
  end.

(** The inode [i'] of [t'] is a copy of the inode [i] of [t]: a file of
    the user with the bytes and the permission bits of the file [i], or
    a directory of the user, of mode [m], with the names of the
    directory [i], each of them a copy of the entry of that name.
    Every inode of the copy is [lo] or greater. *)
Fixpoint copy_of (depth : nat) (t t' : list inode) (m : Z) (lo : nat)
         (i i' : nat) : Prop :=
  lo <= i'
  /\ match t !! i with
     | Some (IReg _ perm data) =>
         t' !! i' = Some (IReg true (Z.land perm Fs.ALLPERMS) data)
     | Some (IDir _ _ ents) =>
         match depth with
         | O => False
         | S k =>
             exists ents',
               t' !! i' = Some (IDir true m ents')
               /\ map fst ents' = map fst ents
               /\ forall name j, In (name, j) ents ->
                    exists j', Fs.assoc name ents' = Some j'
                               /\ copy_of k t t' m lo j j'
         end
     | _ => False
     end.

(** [wk] is a later state of [w] in which no inode of [w] other than
    [avoid] has changed. *)
Definition undisturbed (avoid : nat) (w wk : world) : Prop :=
  extends w wk /\ umask wk = umask w
  /\ forall i, i < length (inodes w) -> i <> avoid ->
               inodes wk !! i = inodes w !! i.

(** The loop of [copy_directory src dest], in the state [wk], before
    the entries [todo] of the source directory [ents]: the source was
    opened in [w] and is as it was; the destination directory is there,
    with the entries [entsD], none of them under a name still to come,
    and the user may write to it and search it; what is to come can be
    copied and the device has room for it. *)
Definition loop_pre (k : nat) (w : world) (avoid : nat)
           (src dest : string) (stks stkd : Fs.stack)
           (ownD : bool) (permD : Z)
           (ents entsD todo : list (string * nat)) (wk : world) : Prop :=
  undisturbed avoid w wk
  /\ Fs.namei wk true src = Fs.Found stks
  /\ (exists own perm, inodes w !! Fs.top stks = Some (IDir own perm ents)
                       /\ Fs.may Fs.X own perm = true)
  /\ Fs.top stks <> avoid
  /\ List.NoDup (map fst ents)
  /\ Fs.namei wk true dest = Fs.Found stkd
  /\ inodes wk !! Fs.top stkd = Some (IDir ownD permD entsD)
  /\ Fs.may Fs.W ownD permD = true /\ Fs.may Fs.X ownD permD = true
  /\ (Fs.top stkd = avoid \/ length (inodes w) <= Fs.top stkd)
  /\ List.NoDup (map fst todo)
  /\ (forall name j, In (name, j) todo ->
        In (name, j) ents /\ entry_name name
        /\ len (src +++ "/" +++ name) < PATH_MAX
        /\ len (dest +++ "/" +++ name) < PATH_MAX
        /\ Fs.assoc name entsD = None
        /\ copyable k (inodes w) avoid (src +++ "/" +++ name)
                    (dest +++ "/" +++ name) j)
  /\ list_sum (map (fun e => tree_size k (inodes w) (snd e)) todo) <= space wk.

(** The state [w'] after those entries: the directory [d] has one new
    entry for each of them, a copy of it made of new inodes; nothing
    else that was there has changed. *)
Definition loop_post (k : nat) (w : world) (m : Z) (d : nat)
           (ownD : bool) (permD : Z)
           (entsD todo : list (string * nat)) (wk w' : world) : Prop :=
  extends wk w' /\ umask w' = umask wk
  /\ space w'
     = space wk - list_sum (map (fun e => tree_size k (inodes w) (snd e)) todo)
  /\ (forall x, x < length (inodes wk) -> x <> d ->
                inodes w' !! x = inodes wk !! x)
  /\ length (inodes wk) <= length (inodes w')
  /\ exists news,
      inodes w' !! d = Some (IDir ownD permD (entsD ++ news))
      /\ map fst news = map fst todo
      /\ forall name j, In (name, j) todo ->
           exists j', Fs.assoc name (entsD ++ news) = Some j'
                      /\ copy_of k (inodes w) (inodes w') m
                                 (length (inodes wk)) j j'.

(** ** A machine with a tree *)

Module Nested.

(** [/home/pi/proj] holds a file and the directory [src], which holds a
    file and the directory [lib], which holds an empty file;
    [/media/pi/piBackup] is the backup disk. *)
Definition fs : list inode :=
  [ (* 0 *) IDir false Sample.rwx [("home", 1); ("media", 7)];
    (* 1 *) IDir false Sample.rwx [("pi", 2)];
    (* 2 *) IDir true Sample.rwx [("proj", 3)];
    (* 3 *) IDir true Sample.rwx [("README", 4); ("src", 5)];
    (* 4 *) IReg true (octal "644") "notes";
    (* 5 *) IDir true (octal "700") [("main.c", 6); ("lib", 10)];
    (* 6 *) IReg true (octal "600") "int main;";
    (* 7 *) IDir false Sample.rwx [("pi", 8)];
    (* 8 *) IDir true Sample.rwx [("piBackup", 9)];
    (* 9 *) IDir true Sample.rwx [("old", 12)];
    (* 10 *) IDir true Sample.rwx [("util.h", 11)];
    (* 11 *) IReg true (octal "444") "";
    (* 12 *) IDir true Sample.rwx [] ].

Definition w0 : world :=
  World fs 2000 E0 [] "/home/pi" "/home/pi" (octal "022") (Some Sample.now).

End Nested.

(** * Properties *)

(** ** C strings *)

Section CStr_facts.

Lemma len_app (a b : string) : len (a +++ b) = len a + len b.
Proof. induction a as [|c a IH]; simpl; [reflexivity | now rewrite IH]. Qed.

Lemma sapp_empty_r (a : string) : a +++ EmptyString = a.
Proof. induction a as [|c a IH]; simpl; [reflexivity | now rewrite IH]. Qed.

Lemma sapp_assoc (a b c : string) : (a +++ b) +++ c = a +++ b +++ c.
Proof. induction a as [|x a IH]; simpl; [reflexivity | now rewrite IH]. Qed.

Lemma take_all (n : nat) (s : string) : len s <= n -> take n s = s.
Proof.
  revert n; induction s as [|c s IH]; intros [|n] H; simpl in *;
    try reflexivity; try lia.
  f_equal. apply IH. lia.
Qed.

Lemma len_take (n : nat) (s : string) : len (take n s) = Nat.min n (len s).
Proof.
  revert n; induction s as [|c s IH]; intros [|n]; simpl; try reflexivity.
  now rewrite IH.
Qed.

Lemma take_drop (n : nat) (s : string) : take n s +++ drop n s = s.
Proof.
  revert n; induction s as [|c s IH]; intros [|n]; simpl; try reflexivity.
  now rewrite IH.
Qed.

Lemma len_drop (n : nat) (s : string) : len (drop n s) = len s - n.
Proof.
  revert n; induction s as [|c s IH]; intros [|n]; simpl; try reflexivity.
  apply IH.
Qed.

Lemma drop_drop (n m : nat) (s : string) : drop m (drop n s) = drop (n + m) s.
Proof.
  revert n; induction s as [|c s IH]; intros [|n]; simpl; try reflexivity.
  - now destruct m.
  - apply IH.
Qed.

Lemma drop_all (n : nat) (s : string) : len s <= n -> drop n s = EmptyString.
Proof.
  revert n; induction s as [|c s IH]; intros [|n] H; simpl in *;
    try reflexivity; try lia.
  apply IH. lia.
Qed.

Lemma take_app_exact (a b : string) : take (len a) (a +++ b) = a.
Proof. induction a as [|c a IH]; simpl; [now destruct b | now rewrite IH]. Qed.

Lemma take_app_le (n : nat) (a b : string) :
  n <= len a -> take n (a +++ b) = take n a.
Proof.
  revert n; induction a as [|c a IH]; intros [|n] H; simpl in *;
    try reflexivity; try lia.
  all: try (now destruct b).
  f_equal. apply IH. lia.
Qed.

Lemma len_zero (s : string) : len s = 0 -> s = EmptyString.
Proof. now destruct s. Qed.

Lemma nonempty_len (s : string) : nonempty s = true <-> 0 < len s.
Proof. destruct s; simpl; split; intros; try lia; congruence. Qed.

(** A string without the character [c] is its own [strcspn] prefix. *)
Lemma strcspn_absent (c : ascii) (s : string) :
  has c s = false -> strcspn c s = len s.
Proof.
  induction s as [|a s IH]; simpl; [reflexivity |].
  intros H. apply orb_false_iff in H as [Ha Hs]. rewrite Ha.
  now rewrite IH.
Qed.

Lemma strcspn_app (c : ascii) (p rest : string) :
  has c p = false -> starts_with c rest = true ->
  strcspn c (p +++ rest) = len p.
Proof.
  intros Hp Hr. induction p as [|a p IH]; simpl in *.
  - destruct rest as [|b rest]; simpl in *; [discriminate | now rewrite Hr].
  - apply orb_false_iff in Hp as [Ha Hs]. rewrite Ha. now rewrite IH.
Qed.

Lemma has_app (c : ascii) (a b : string) :
  has c (a +++ b) = has c a || has c b.
Proof.
  induction a as [|x a IH]; simpl; [reflexivity |].
  now rewrite IH, orb_assoc.
Qed.

Lemma has_take (c : ascii) (n : nat) (s : string) :
  has c s = false -> has c (take n s) = false.
Proof.
  revert n; induction s as [|a s IH]; intros [|n] H; simpl in *;
    try reflexivity.
  apply orb_false_iff in H as [Ha Hs]. rewrite Ha. simpl. now apply IH.
Qed.

Lemma take_drop_len (n : nat) (s : string) :
  take n s +++ drop (len (take n s)) s = s.
Proof.
  revert n; induction s as [|c s IH]; intros [|n]; simpl; try reflexivity.
  now rewrite IH.
Qed.

End CStr_facts.

(** ** The shape of the time stamp *)

Module StampFacts.
Import Stamp.

Lemma len_digits (width : nat) (v : Z) : len (digits width v) = width.
Proof. induction width; simpl; [reflexivity | now rewrite IHwidth]. Qed.

Lemma len_name (t : tm) : len (name t) = 26.
Proof.
  unfold name. repeat rewrite len_app. repeat rewrite len_digits. reflexivity.
Qed.

(** Checking a range of values by evaluation. *)
Definition agree (w width : nat) (lo count : nat) : bool :=
  forallb (fun n => String.eqb (Strftime.number w (Z.of_nat n))
                               (digits width (Z.of_nat n)))
          (seq lo count).

Lemma agree_sound (w width lo count : nat) :
  agree w width lo count = true ->
  forall v : Z, (Z.of_nat lo <= v < Z.of_nat (lo + count))%Z ->
  Strftime.number w v = digits width v.
Proof.
  intros H v Hv. unfold agree in H. rewrite forallb_forall in H.
  specialize (H (Z.to_nat v)). rewrite Z2Nat.id in H by lia.
  apply String.eqb_eq, H, in_seq. lia.
Qed.

Lemma two_digits (v : Z) :
  (0 <= v < 100)%Z -> Strftime.number 2 v = digits 2 v.
Proof. apply (agree_sound 2 2 0 100). now vm_compute. Qed.

Lemma four_digits (v : Z) :
  (1000 <= v < 10000)%Z -> Strftime.number 1 v = digits 4 v.
Proof.
  intros H. apply (agree_sound 1 4 1000 (9 * 1000)); [now vm_compute | lia].
Qed.

(** In such a time, ["Backup %Y-%m-%d %H-%M-%S"] prints the name. *)
Lemma format_name (t : tm) : calendar t -> Strftime.format t = name t.
Proof.
  intros (Hy & Hm & Hd & Hh & Hi & Hs). unfold Strftime.format, name.
  rewrite four_digits by lia. rewrite !two_digits by lia. reflexivity.
Qed.

End StampFacts.

(** ** create_timestamped_dir *)

Lemma exit_failure_nonzero : EXIT_FAILURE <> 0%Z.
Proof. discriminate. Qed.

Lemma strftime_calendar (t : tm) :
  Stamp.calendar t -> Strftime.strftime 30 t = Some (Stamp.name t).
Proof.
  intros H. unfold Strftime.strftime.
  rewrite (StampFacts.format_name t H), StampFacts.len_name. reflexivity.
Qed.

(** C6.  With the local time [t] of a four-digit year,
    [create_timestamped_dir] yields [base/Backup YYYY-MM-DD HH-MM-SS],
    a function of [base] and [t] alone, when that path fits in
    [PATH_MAX] bytes; when the path does not fit, when [strftime]
    fails, or when the local time cannot be had, the process exits
    with [EXIT_FAILURE], which is not zero. *)
Theorem create_timestamped_dir_contract (base_path : string) (w : world) :
  (forall t, localtime w = Some t -> Stamp.calendar t ->
     len base_path + 27 < PATH_MAX ->
     create_timestamped_dir base_path w
     = (Done (base_path +++ "/" +++ Stamp.name t), w))
  /\ (forall t stamp, localtime w = Some t ->
        Strftime.strftime 30 t = Some stamp ->
        PATH_MAX <= len (base_path +++ "/" +++ stamp) ->
        fst (create_timestamped_dir base_path w) = Exit EXIT_FAILURE)
  /\ (forall t, localtime w = Some t -> Strftime.strftime 30 t = None ->
        fst (create_timestamped_dir base_path w) = Exit EXIT_FAILURE)
  /\ (localtime w = None ->
        fst (create_timestamped_dir base_path w) = Exit EXIT_FAILURE)
  /\ EXIT_FAILURE <> 0%Z.
Proof.
  unfold create_timestamped_dir. repeat split.
  - intros t Ht Hc Hfit. rewrite Ht, (strftime_calendar t Hc).
    assert (Hlen : len (base_path +++ "/" +++ Stamp.name t) = len base_path + 27).
    { rewrite !len_app, StampFacts.len_name. simpl. lia. }
    rewrite Hlen.
    destruct (Nat.leb_spec PATH_MAX (len base_path + 27)) as [Hle|_]; [lia|].
    unfold snprintf. rewrite take_all by lia. reflexivity.
  - intros t stamp Ht Hs Hlong. rewrite Ht, Hs.
    destruct (Nat.leb_spec PATH_MAX (len (base_path +++ "/" +++ stamp)))
      as [_|Hlt]; [reflexivity | lia].
  - intros t Ht Hs. now rewrite Ht, Hs.
  - intros Ht. now rewrite Ht.
  - discriminate.
Qed.

Lemma create_timestamped_dir_contract_witness :
  create_timestamped_dir "/media/pi/piBackup" Sample.w0
  = (Done "/media/pi/piBackup/Backup 2024-11-05 09-03-07", Sample.w0).
Proof.
  apply (proj1 (create_timestamped_dir_contract "/media/pi/piBackup" Sample.w0)
               Sample.now).
  - reflexivity.
  - unfold Stamp.calendar. simpl. lia.
  - vm_compute. lia.
Defined.

(** A year that needs more room than [timestamp[30]] leaves makes
    [strftime] fail. *)
Example strftime_overflow :
  Strftime.strftime 30 (Tm 2147483647 0 1 0 0 0) = None.
Proof. reflexivity. Qed.

(** ** Calls that only look *)

Section Frames.

Context (w : world).

Lemma inodes_emit ev : inodes (emit ev w) = inodes w.
Proof. reflexivity. Qed.
Lemma inodes_set_errno e : inodes (set_errno e w) = inodes w.
Proof. reflexivity. Qed.
Lemma log_set_errno e : log (set_errno e w) = log w.
Proof. reflexivity. Qed.
Lemma log_set_inodes t : log (set_inodes t w) = log w.
Proof. reflexivity. Qed.
Lemma log_emit ev : log (emit ev w) = log w ++ [ev].
Proof. reflexivity. Qed.

(** Resolution reads the inode table and the working directory only. *)
Lemma namei_same (w' : world) follow p :
  inodes w' = inodes w -> cwd w' = cwd w ->
  Fs.namei w' follow p = Fs.namei w follow p.
Proof. intros Hi Hc. unfold Fs.namei. now rewrite Hi, Hc. Qed.

Lemma fopen_r_some p f w' : Fs.fopen_r p w = (Some f, w') -> w' = w.
Proof.
  unfold Fs.fopen_r. intros H.
  destruct (Fs.namei w true p); try discriminate.
  destruct (inodes w !! Fs.top stk); try discriminate.
  destruct (Fs.may_inode Fs.R i); now inversion H.
Qed.

Lemma fopen_r_none p w' :
  Fs.fopen_r p w = (None, w') -> exists e, w' = set_errno e w.
Proof.
  unfold Fs.fopen_r. intros H.
  destruct (Fs.namei w true p); try (inversion H; eauto; fail).
  destruct (inodes w !! Fs.top stk); try (inversion H; eauto; fail).
  destruct (Fs.may_inode Fs.R i); inversion H; eauto.
Qed.

Lemma stat_world p r w' :
  Fs.stat p w = (r, w') -> inodes w' = inodes w /\ log w' = log w
                           /\ space w' = space w /\ cwd w' = cwd w.
Proof.
  unfold Fs.stat. intros H.
  destruct (Fs.namei w true p); try (inversion H; subst; now simpl).
  destruct (inodes w !! Fs.top stk); inversion H; subst; now simpl.
Qed.

Lemma realpath_world p r w' :
  Fs.realpath p w = (r, w') -> inodes w' = inodes w /\ log w' = log w
                               /\ space w' = space w /\ cwd w' = cwd w.
Proof.
  unfold Fs.realpath. intros H.
  destruct (Fs.namei w true p); try (inversion H; subst; now simpl).
  destruct (PATH_MAX <=? _); inversion H; subst; now simpl.
Qed.

Lemma opendir_world p r w' :
  Fs.opendir p w = (r, w') -> inodes w' = inodes w /\ log w' = log w
                              /\ space w' = space w /\ cwd w' = cwd w.
Proof.
  unfold Fs.opendir. intros H.
  destruct (Fs.namei w true p); try (inversion H; subst; now simpl).
  destruct (inodes w !! Fs.top stk) as [[]|]; try (inversion H; subst; now simpl).
  destruct (Fs.may Fs.R own perm); inversion H; subst; now simpl.
Qed.

End Frames.

(** ** copy_file: the source that cannot be opened *)

(** C10.  When [fopen(src, "rb")] fails, [copy_file] reports it and
    returns: the inode table, and with it the destination, is what it
    was, as is the room on the device. *)
Theorem copy_file_source_unopened (src dest : string) (w : world) :
  fst (Fs.fopen_r src w) = None ->
  inodes (copy_file src dest w) = inodes w
  /\ space (copy_file src dest w) = space w
  /\ exists e,
      log (copy_file src dest w)
      = log w ++ [Perror (RED +++ "Failed to open source file" +++ RESET) e;
                  Stderr (RED +++ "   [ERROR] Could not open source file: "
                              +++ src +++ NL +++ RESET)].
Proof.
  intros H. unfold copy_file.
  destruct (Fs.fopen_r src w) as [[f|] w'] eqn:E; [discriminate|].
  apply fopen_r_none in E as [e ->].
  repeat split. exists e. simpl. now rewrite <- List.app_assoc.
Qed.

Lemma copy_file_source_unopened_witness :
  inodes (copy_file "docs/secret" "/media/pi/piBackup/secret" Sample.w0)
  = inodes Sample.w0.
Proof.
  apply (copy_file_source_unopened "docs/secret" "/media/pi/piBackup/secret"
                                   Sample.w0).
  reflexivity.
Defined.

(** ** Reading the configuration file *)

Section Line.

Lemma lf_not_nul : Ascii.eqb LF NUL = false.
Proof. reflexivity. Qed.

(** [fgets] on a text without newline that fits the buffer. *)
Lemma line_plain (k : nat) (p : string) :
  has LF p = false -> len p <= k -> line k p = p.
Proof.
  revert k; induction p as [|c p IH]; intros [|k] Hp Hk; simpl in *;
    try reflexivity; try lia.
  apply orb_false_iff in Hp as [Hc Hp]. rewrite Hc. f_equal.
  apply IH; [assumption | lia].
Qed.

(** [fgets] stops behind the first newline. *)
Lemma line_newline (k : nat) (p r : string) :
  has LF p = false -> len p < k ->
  line k (p +++ String LF r) = p +++ String LF EmptyString.
Proof.
  revert k; induction p as [|c p IH]; intros [|k] Hp Hk; simpl in *; try lia.
  - reflexivity.
  - apply orb_false_iff in Hp as [Hc Hp]. rewrite Hc. f_equal.
    apply IH; [assumption | lia].
Qed.

(** [fgets] stops when the buffer is full. *)
Lemma line_full (p rest : string) :
  has LF p = false -> line (len p) (p +++ rest) = p.
Proof.
  induction p as [|c p IH]; intros Hp; simpl in *; [reflexivity|].
  apply orb_false_iff in Hp as [Hc Hp]. rewrite Hc. f_equal. now apply IH.
Qed.

Lemma c_str_clean (s : string) : has NUL s = false -> c_str s = s.
Proof.
  intros H. unfold c_str. rewrite strcspn_absent by assumption.
  now apply take_all.
Qed.

Lemma stripped_plain (p : string) :
  has LF p = false -> has NUL p = false -> stripped p = p.
Proof.
  intros Hl Hn. unfold stripped. rewrite c_str_clean by assumption.
  rewrite strcspn_absent by assumption. now apply take_all.
Qed.

Lemma stripped_newline (p : string) :
  has LF p = false -> has NUL p = false ->
  stripped (p +++ String LF EmptyString) = p.
Proof.
  intros Hl Hn. unfold stripped. rewrite c_str_clean.
  - rewrite strcspn_app by (assumption || reflexivity). apply take_app_exact.
  - rewrite has_app, Hn. reflexivity.
Qed.

(** What [read_default_backup_dir] makes of a file that holds the line
    [p], alone or followed by a newline and more. *)
Lemma stripped_line (p rest : string) :
  has LF p = false -> has NUL p = false -> len p < PATH_MAX ->
  rest = EmptyString \/ starts_with LF rest = true ->
  stripped (line (PATH_MAX - 1) (p +++ rest)) = p.
Proof.
  intros Hl Hn Hlen [-> | Hr].
  - rewrite sapp_empty_r, line_plain by (assumption || lia).
    now apply stripped_plain.
  - destruct rest as [|c r]; [discriminate|]. simpl in Hr.
    apply Ascii.eqb_eq in Hr as ->.
    destruct (Nat.eq_dec (len p) (PATH_MAX - 1)) as [E|E].
    + rewrite <- E, line_full by assumption. now apply stripped_plain.
    + rewrite line_newline by (assumption || lia). now apply stripped_newline.
Qed.

End Line.

(** The file holds the line [p]: that is what is read. *)
Lemma read_default_backup_dir_line (w : world) (f : nat) (p rest : string) :
  fst (Fs.fopen_r (config_path_of w) w) = Some f ->
  Fs.contents f w = p +++ rest ->
  nonempty (p +++ rest) = true ->
  rest = EmptyString \/ starts_with LF rest = true ->
  has LF p = false -> has NUL p = false -> len p < PATH_MAX ->
  fst (read_default_backup_dir w) = p.
Proof.
  unfold read_default_backup_dir, random_delay, eprint.
  intros Hopen Hdata Hne Hrest Hl Hn Hlen.
  set (w1 := emit _ w) in *.
  assert (Hsame : Fs.fopen_r (config_path_of w) w1
                  = (Some f, w1) /\ Fs.contents f w1 = Fs.contents f w).
  { destruct (Fs.fopen_r (config_path_of w) w) as [r w'] eqn:E.
    simpl in Hopen; subst r. apply fopen_r_some in E as E'; subst w'.
    unfold Fs.fopen_r in *. rewrite (namei_same w w1) by reflexivity.
    change (inodes w1) with (inodes w).
    destruct (Fs.namei w true (config_path_of w)); try discriminate.
    destruct (inodes w !! Fs.top stk); try discriminate.
    destruct (Fs.may_inode Fs.R i); try discriminate.
    inversion E; subst. split; reflexivity. }
  destruct Hsame as [-> ->]. rewrite Hdata. unfold fgets. rewrite Hne.
  simpl. now apply stripped_line.
Qed.

(** C5.  [read_default_backup_dir] returns the path stored in the
    configuration file: the line [p] the file holds, alone or followed
    by a newline.  When the file cannot be opened for reading (it is
    absent or unreadable) the function returns [/media/pi/piBackup];
    it returns normally, having written one [WARNING] line, and leaves
    the file system as it was. *)
Theorem read_default_backup_dir_contract (w : world) :
  (forall f p rest,
      fst (Fs.fopen_r (config_path_of w) w) = Some f ->
      Fs.contents f w = p +++ rest ->
      nonempty (p +++ rest) = true ->
      rest = EmptyString \/ starts_with LF rest = true ->
      has LF p = false -> has NUL p = false -> len p < PATH_MAX ->
      fst (read_default_backup_dir w) = p)
  /\ (fst (Fs.fopen_r (config_path_of w) w) = None ->
      fst (read_default_backup_dir w) = "/media/pi/piBackup"
      /\ inodes (snd (read_default_backup_dir w)) = inodes w
      /\ log (snd (read_default_backup_dir w))
         = log w
             ++ [Stderr (GRAY +++ "[DEBUG] Reading config file: "
                           +++ config_path_of w +++ NL +++ RESET);
                 Stderr (YELLOW +++ "   [WARNING] Config file not found or empty. Using default target directory."
                           +++ NL +++ RESET)]).
Proof.
  split; [intros f p rest; apply read_default_backup_dir_line|].
  unfold read_default_backup_dir, random_delay, eprint.
  intros Hopen. set (w1 := emit _ w) in *.
  assert (Hnone : exists e, Fs.fopen_r (config_path_of w) w1
                            = (None, set_errno e w1)).
  { unfold Fs.fopen_r in *. rewrite (namei_same w w1) by reflexivity.
    change (inodes w1) with (inodes w).
    destruct (Fs.namei w true (config_path_of w)); eauto.
    destruct (inodes w !! Fs.top stk); eauto.
    destruct (Fs.may_inode Fs.R i); [discriminate | eauto]. }
  destruct Hnone as [e ->]. simpl. repeat split.
  now rewrite <- List.app_assoc.
Qed.

Lemma read_default_backup_dir_contract_witness :
  fst (read_default_backup_dir Sample.w0) = "/media/pi/piBackup".
Proof.
  apply (proj2 (read_default_backup_dir_contract Sample.w0)).
  reflexivity.
Defined.

(** ** Resolution in a table that has grown *)

Section Grows.

Lemma grows_inode_refl (n : inode) : grows_inode n n.
Proof. destruct n; simpl; auto. Qed.

Lemma grows_inode_trans (a b c : inode) :
  grows_inode a b -> grows_inode b c -> grows_inode a c.
Proof.
  destruct a, b, c; simpl; try tauto; try congruence.
  intros (-> & -> & H1) (-> & -> & H2). auto.
Qed.

Lemma grows_refl (t : list inode) : grows t t.
Proof. intros i n H. exists n. split; [assumption | apply grows_inode_refl]. Qed.

Lemma grows_trans (a b c : list inode) : grows a b -> grows b c -> grows a c.
Proof.
  intros H1 H2 i n Hi. destruct (H1 i n Hi) as (n1 & Hn1 & G1).
  destruct (H2 i n1 Hn1) as (n2 & Hn2 & G2).
  exists n2. split; [assumption | eapply grows_inode_trans; eassumption].
Qed.

(** Replacing an inode by a later state of itself. *)
Lemma grows_insert (t : list inode) (i : nat) (n n' : inode) :
  t !! i = Some n -> grows_inode n n' -> grows t (<[i := n']> t).
Proof.
  intros Hi G j m Hj. destruct (decide (i = j)) as [<-|Hne].
  - rewrite Hi in Hj. inversion Hj; subst m. exists n'. split; [|assumption].
    apply list_lookup_insert_eq. now apply lookup_lt_Some in Hi.
  - exists m. split; [|apply grows_inode_refl].
    now rewrite list_lookup_insert_ne.
Qed.

Lemma grows_app (t more : list inode) : grows t (t ++ more).
Proof.
  intros i n Hi. exists n. split; [|apply grows_inode_refl].
  now apply lookup_app_l_Some.
Qed.

Lemma assoc_app_some (c : string) (ents more : list (string * nat)) (i : nat) :
  Fs.assoc c ents = Some i -> Fs.assoc c (ents ++ more) = Some i.
Proof.
  induction ents as [|[k j] ents IH]; simpl; [discriminate|].
  destruct (String.eqb k c); auto.
Qed.

Lemma assoc_app_none (c : string) (ents : list (string * nat)) (i : nat) :
  Fs.assoc c ents = None -> Fs.assoc c (ents ++ [(c, i)]) = Some i.
Proof.
  induction ents as [|[k j] ents IH]; simpl.
  - now rewrite String.eqb_refl.
  - destruct (String.eqb k c); [discriminate | auto].
Qed.

Lemma grows_link_in (t : list inode) (d : nat) (name : string) (i : nat) :
  grows t (Fs.link_in d name i t).
Proof.
  unfold Fs.link_in. destruct (t !! d) as [[]|] eqn:E; try apply grows_refl.
  eapply grows_insert; [eassumption|]. simpl. repeat split.
  intros c j. apply assoc_app_some.
Qed.

(** A walk that found its way finds it again. *)
Lemma walk_grows (t t' : list inode) (follow : bool) :
  grows t t' ->
  forall cs stk r,
    Fs.walk t follow stk cs = r ->
    match r with
    | Fs.Found _ | Fs.Link _ _ _ => Fs.walk t' follow stk cs = r
    | _ => True
    end.
Proof.
  intros G. induction cs as [|c rest IH]; intros stk r H; simpl in H.
  - subst r. reflexivity.
  - simpl.
    destruct (t !! Fs.top stk) as [[own perm data|own perm ents|tg|f own perm]|] eqn:Et;
      try (subst r; exact I).
    destruct (G _ _ Et) as (n' & Et' & Gn). destruct n'; simpl in Gn; try tauto.
    destruct Gn as (-> & -> & Hents). rewrite Et'.
    destruct (negb (Fs.may Fs.X own perm)); [subst r; exact I|].
    destruct (String.eqb c "."); [now apply IH|].
    destruct (String.eqb c ".."); [now apply IH|].
    destruct (NAME_MAX <? len c); [subst r; exact I|].
    destruct (Fs.assoc c ents) as [i|] eqn:Ea.
    + rewrite (Hents _ _ Ea).
      destruct (t !! i) as [n|] eqn:Ei; [|subst r; exact I].
      destruct (G _ _ Ei) as (n' & Ei' & Gn). rewrite Ei'.
      destruct n, n'; simpl in Gn; try tauto; try (now apply IH).
      subst target0.
      destruct (follow || negb (Fs.is_nil rest)); [subst r; reflexivity | now apply IH].
    + destruct (Fs.is_nil rest); subst r; exact I.
Qed.

Lemma walk_found_grows t t' follow cs stk s :
  grows t t' -> Fs.walk t follow stk cs = Fs.Found s ->
  Fs.walk t' follow stk cs = Fs.Found s.
Proof. intros G H. exact (walk_grows t t' follow G cs stk _ H). Qed.

Lemma walk_link_grows t t' follow cs stk s tg rest :
  grows t t' -> Fs.walk t follow stk cs = Fs.Link s tg rest ->
  Fs.walk t' follow stk cs = Fs.Link s tg rest.
Proof. intros G H. exact (walk_grows t t' follow G cs stk _ H). Qed.

Lemma resolve_grows (t t' : list inode) (follow : bool) :
  grows t t' ->
  forall hops stk cs s,
    Fs.resolve hops t follow stk cs = Fs.Found s ->
    Fs.resolve hops t' follow stk cs = Fs.Found s.
Proof.
  intros G. induction hops as [|h IH]; intros stk cs s H; simpl in *.
  - destruct (Fs.walk t follow stk cs) eqn:E; try discriminate.
    now rewrite (walk_found_grows _ _ _ _ _ _ G E).
  - destruct (Fs.walk t follow stk cs) eqn:E; try discriminate.
    + now rewrite (walk_found_grows _ _ _ _ _ _ G E).
    + rewrite (walk_link_grows _ _ _ _ _ _ _ _ G E).
      destruct (nonempty target); [now apply IH | discriminate].
Qed.

(** A walk that missed only the last name finds it once it is there. *)
Lemma walk_absent_grows (t t' : list inode) (follow : bool) :
  grows t t' ->
  forall cs stk0 stk name i own perm ents n,
    Fs.walk t follow stk0 cs = Fs.Absent stk name ->
    t' !! Fs.top stk = Some (IDir own perm ents) ->
    Fs.assoc name ents = Some i ->
    t' !! i = Some n -> is_link n = false ->
    Fs.walk t' follow stk0 cs = Fs.Found ((name, i) :: stk).
Proof.
  intros G. induction cs as [|c rest IH];
    intros stk0 stk name i own' perm' ents' n H Hd Ha Hi Hn; simpl in H;
    [discriminate|].
  simpl.
  destruct (t !! Fs.top stk0) as [[|own perm ents| |]|] eqn:Et; try discriminate.
  destruct (G _ _ Et) as (n' & Et' & Gn). destruct n'; simpl in Gn; try tauto.
  destruct Gn as (-> & -> & Hents). rewrite Et'.
  destruct (negb (Fs.may Fs.X own perm)); [discriminate|].
  destruct (String.eqb c "."); [eapply IH; eassumption|].
  destruct (String.eqb c ".."); [eapply IH; eassumption|].
  destruct (NAME_MAX <? len c); [discriminate|].
  destruct (Fs.assoc c ents) as [j|] eqn:Ea.
  - rewrite (Hents _ _ Ea).
    destruct (t !! j) as [m|] eqn:Ej; [|discriminate].
    destruct (G _ _ Ej) as (m' & Ej' & Gm). rewrite Ej'.
    destruct m, m'; simpl in Gm; try tauto; try (eapply IH; eassumption).
    subst target0.
    destruct (follow || negb (Fs.is_nil rest)); [discriminate | eapply IH; eassumption].
  - destruct rest; simpl in H; [|discriminate].
    inversion H; subst stk name. rewrite Et' in Hd. inversion Hd; subst.
    rewrite Ha, Hi. destruct n; simpl in Hn; try discriminate; reflexivity.
Qed.

Lemma resolve_absent_grows (t t' : list inode) (follow : bool) :
  grows t t' ->
  forall hops stk0 cs stk name i own perm ents n,
    Fs.resolve hops t follow stk0 cs = Fs.Absent stk name ->
    t' !! Fs.top stk = Some (IDir own perm ents) ->
    Fs.assoc name ents = Some i ->
    t' !! i = Some n -> is_link n = false ->
    Fs.resolve hops t' follow stk0 cs = Fs.Found ((name, i) :: stk).
Proof.
  intros G. induction hops as [|h IH];
    intros stk0 cs stk name i own perm ents n H Hd Ha Hi Hn; simpl in *.
  - destruct (Fs.walk t follow stk0 cs) eqn:E; try discriminate.
    inversion H; subst.
    now rewrite (walk_absent_grows _ _ _ G _ _ _ _ _ _ _ _ _ E Hd Ha Hi Hn).
  - destruct (Fs.walk t follow stk0 cs) eqn:E; try discriminate.
    + inversion H; subst.
      now rewrite (walk_absent_grows _ _ _ G _ _ _ _ _ _ _ _ _ E Hd Ha Hi Hn).
    + rewrite (walk_link_grows _ _ _ _ _ _ _ _ G E).
      destruct (nonempty target); [eapply IH; eassumption | discriminate].
Qed.

(** When only the last name is missing, its directory was reached and
    may be searched. *)
Lemma walk_absent_dir (t : list inode) (follow : bool) :
  forall cs stk0 stk name,
    Fs.walk t follow stk0 cs = Fs.Absent stk name ->
    exists own perm ents,
      t !! Fs.top stk = Some (IDir own perm ents) /\ Fs.assoc name ents = None.
Proof.
  induction cs as [|c rest IH]; intros stk0 stk name H; simpl in H;
    [discriminate|].
  destruct (t !! Fs.top stk0) as [[|own perm ents| |]|] eqn:Et; try discriminate.
  destruct (negb (Fs.may Fs.X own perm)); [discriminate|].
  destruct (String.eqb c "."); [eapply IH; eassumption|].
  destruct (String.eqb c ".."); [eapply IH; eassumption|].
  destruct (NAME_MAX <? len c); [discriminate|].
  destruct (Fs.assoc c ents) as [j|] eqn:Ea.
  - destruct (t !! j) as [[]|]; try discriminate; try (eapply IH; eassumption).
    destruct (follow || negb (Fs.is_nil rest)); [discriminate | eapply IH; eassumption].
  - destruct rest; simpl in H; [|discriminate].
    inversion H; subst. eauto.
Qed.

Lemma resolve_absent_dir (t : list inode) (follow : bool) :
  forall hops stk0 cs stk name,
    Fs.resolve hops t follow stk0 cs = Fs.Absent stk name ->
    exists own perm ents,
      t !! Fs.top stk = Some (IDir own perm ents) /\ Fs.assoc name ents = None.
Proof.
  induction hops as [|h IH]; intros stk0 cs stk name H; simpl in *.
  - destruct (Fs.walk t follow stk0 cs) eqn:E; try discriminate.
    inversion H; subst. eapply walk_absent_dir; eassumption.
  - destruct (Fs.walk t follow stk0 cs) eqn:E; try discriminate.
    + inversion H; subst. eapply walk_absent_dir; eassumption.
    + destruct (nonempty target); [eapply IH; eassumption | discriminate].
Qed.

End Grows.

(** ** What the calls do to the file system *)

Section Calls.

Lemma namei_grows (w w' : world) follow p s :
  grows (inodes w) (inodes w') -> cwd w' = cwd w ->
  Fs.namei w follow p = Fs.Found s -> Fs.namei w' follow p = Fs.Found s.
Proof.
  unfold Fs.namei. intros G Hc H. rewrite Hc.
  destruct (negb (nonempty p)); [discriminate|].
  destruct (PATH_MAX <=? len p); [discriminate|].
  eapply resolve_grows; eassumption.
Qed.

Lemma namei_absent_dir (w : world) follow p stk name :
  Fs.namei w follow p = Fs.Absent stk name ->
  exists own perm ents,
    inodes w !! Fs.top stk = Some (IDir own perm ents)
    /\ Fs.assoc name ents = None.
Proof.
  unfold Fs.namei. intros H.
  destruct (negb (nonempty p)); [discriminate|].
  destruct (PATH_MAX <=? len p); [discriminate|].
  eapply resolve_absent_dir; eassumption.
Qed.

Lemma namei_absent_grows (w w' : world) follow p stk name i own perm ents n :
  grows (inodes w) (inodes w') -> cwd w' = cwd w ->
  Fs.namei w follow p = Fs.Absent stk name ->
  inodes w' !! Fs.top stk = Some (IDir own perm ents) ->
  Fs.assoc name ents = Some i ->
  inodes w' !! i = Some n -> is_link n = false ->
  Fs.namei w' follow p = Fs.Found ((name, i) :: stk).
Proof.
  unfold Fs.namei. intros G Hc H Hd Ha Hi Hn. rewrite Hc.
  destruct (negb (nonempty p)); [discriminate|].
  destruct (PATH_MAX <=? len p); [discriminate|].
  eapply resolve_absent_grows; eassumption.
Qed.

Lemma namei_short (w : world) follow p :
  PATH_MAX <= len p -> Fs.namei w follow p = Fs.Fail ENAMETOOLONG
                       \/ Fs.namei w follow p = Fs.Fail ENOENT.
Proof.
  intros H. unfold Fs.namei. destruct (negb (nonempty p)); [now right|].
  destruct (Nat.leb_spec PATH_MAX (len p)); [now left | lia].
Qed.

Lemma length_link_in d name i t : length (Fs.link_in d name i t) = length t.
Proof.
  unfold Fs.link_in. destruct (t !! d) as [[]|]; try reflexivity.
  apply length_insert.
Qed.

Lemma grows_created d name n t : grows t (created d name n t).
Proof.
  unfold created. eapply grows_trans; [apply grows_link_in | apply grows_app].
Qed.

Lemma created_new d name n t : created d name n t !! length t = Some n.
Proof.
  unfold created. rewrite lookup_app_r; rewrite length_link_in; [|lia].
  now rewrite Nat.sub_diag.
Qed.

Lemma created_dir d name n t own perm ents :
  t !! d = Some (IDir own perm ents) ->
  created d name n t !! d = Some (IDir own perm (ents ++ [(name, length t)])).
Proof.
  intros H. unfold created, Fs.link_in. rewrite H.
  apply lookup_lt_Some in H as Hlt.
  rewrite lookup_app_l by (now rewrite length_insert).
  now apply list_lookup_insert_eq.
Qed.

Lemma created_other d name n t j :
  j <> d -> j < length t -> created d name n t !! j = t !! j.
Proof.
  intros Hne Hlt. unfold created.
  rewrite lookup_app_l by (now rewrite length_link_in).
  unfold Fs.link_in. destruct (t !! d) as [[]|]; try reflexivity.
  now rewrite list_lookup_insert_ne.
Qed.

Lemma create_some d name n w i w' :
  Fs.create d name n w = (Some i, w') ->
  i = length (inodes w) /\ w' = set_inodes (created d name n (inodes w)) w
  /\ exists own perm ents, inodes w !! d = Some (IDir own perm ents).
Proof.
  unfold Fs.create. intros H.
  destruct (inodes w !! d) as [[|own perm ents| |]|]; try discriminate.
  destruct (Fs.may Fs.W own perm); inversion H; subst. eauto 6.
Qed.

Lemma create_none d name n w w' :
  Fs.create d name n w = (None, w') -> exists e, w' = set_errno e w.
Proof.
  unfold Fs.create. intros H.
  destruct (inodes w !! d) as [[|own perm ents| |]|];
    try (inversion H; eauto; fail).
  destruct (Fs.may Fs.W own perm); inversion H; eauto.
Qed.

(** [fopen(p, "w")] that succeeds: the stream is the file [p] names
    from then on, and it is empty. *)
Lemma fopen_w_some (p : string) (w w1 : world) (d : nat) :
  Fs.fopen_w p w = (Some d, w1) ->
  (exists t1, w1 = set_inodes t1 w /\ grows (inodes w) t1
     /\ (forall j n, inodes w !! j = Some n -> j <> d ->
           match n with IDir _ _ _ => True | _ => t1 !! j = Some n end)
     /\ length t1 <= S (length (inodes w))
     /\ (forall j, length (inodes w) <= j -> j < length t1 -> j = d))
  /\ (exists stk, Fs.namei w1 true p = Fs.Found stk /\ Fs.top stk = d)
  /\ ((exists own perm, inodes w1 !! d = Some (IReg own perm EmptyString)
         /\ (forall n, inodes w !! d = Some n ->
               exists data, n = IReg own perm data)
         /\ (length (inodes w) <= d -> own = true))
      \/ (exists kind own perm, inodes w !! d = Some (IOther kind own perm)
            /\ inodes w1 = inodes w)).
Proof.
  unfold Fs.fopen_w. intros H.
  destruct (Fs.namei w true p) as [stk|stk name| |] eqn:En; try discriminate.
  - destruct (inodes w !! Fs.top stk) as [[own perm data|?|?|f own perm]|] eqn:Ei;
      try discriminate.
    + destruct (Fs.may Fs.W own perm); inversion H; subst; clear H.
      assert (G : grows (inodes w)
                        (<[Fs.top stk := IReg own perm EmptyString]> (inodes w))).
      { eapply grows_insert; [eassumption | exact I]. }
      apply lookup_lt_Some in Ei as Hlt.
      split; [|split].
      * eexists. split; [reflexivity|]. split; [exact G|]. split; [|split].
        -- intros j n Hj Hne. destruct n; auto;
             rewrite list_lookup_insert_ne by congruence; assumption.
        -- rewrite length_insert. lia.
        -- intros j Hj1 Hj2. rewrite length_insert in Hj2. lia.
      * exists stk. split; [|reflexivity].
        eapply namei_grows; [exact G | reflexivity | exact En].
      * left. exists own, perm. split; [|split].
        -- simpl. now apply list_lookup_insert_eq.
        -- intros n Hn. rewrite Ei in Hn. inversion Hn. eauto.
        -- intros Hle. lia.
    + destruct (Fs.may Fs.W own perm); [|discriminate].
      injection H as Hd Hw; subst d w1.
      split; [|split].
      * exists (inodes w). split; [now destruct w|]. split; [apply grows_refl|].
        split; [|split]; [| lia |intros; lia].
        intros j n Hj _. now destruct n.
      * exists stk. split; [assumption | reflexivity].
      * right. eauto 6.
  - apply create_some in H as (-> & -> & own & perm & ents & Hd).
    destruct (namei_absent_dir _ _ _ _ _ En) as (own' & perm' & ents' & Hd' & Hnone).
    rewrite Hd in Hd'. inversion Hd'; subst own' perm' ents'; clear Hd'.
    apply lookup_lt_Some in Hd as Hlt.
    split; [|split].
    + eexists. split; [reflexivity|]. split; [apply grows_created|].
      split; [|split].
      * intros j n Hj Hne. apply lookup_lt_Some in Hj as Hjl.
        destruct (decide (j = Fs.top stk)) as [->|Hjd].
        -- rewrite Hd in Hj. inversion Hj; subst. exact I.
        -- destruct n; auto; rewrite created_other by assumption; assumption.
      * unfold created. rewrite length_app, length_link_in. simpl. lia.
      * intros j Hj1 Hj2. unfold created in Hj2.
        rewrite length_app, length_link_in in Hj2. simpl in Hj2. lia.
    + exists ((name, length (inodes w)) :: stk). split; [|reflexivity].
      apply (namei_absent_grows w _ true p stk name (length (inodes w)) own perm
               (ents ++ [(name, length (inodes w))])
               (IReg true (Fs.masked (octal "666") w) EmptyString)).
      * apply grows_created.
      * reflexivity.
      * exact En.
      * now apply created_dir.
      * now apply assoc_app_none.
      * apply created_new.
      * reflexivity.
    + left. exists true, (Fs.masked (octal "666") w). split; [|split].
      * simpl. apply created_new.
      * intros n Hn. apply lookup_lt_Some in Hn. lia.
      * reflexivity.
Qed.

Lemma fopen_w_none (p : string) (w w1 : world) :
  Fs.fopen_w p w = (None, w1) -> exists e, w1 = set_errno e w.
Proof.
  unfold Fs.fopen_w. intros H.
  destruct (Fs.namei w true p) as [stk|stk name| |] eqn:En;
    try (inversion H; eauto; fail).
  - destruct (inodes w !! Fs.top stk) as [[own perm data|?|?|f own perm]|];
      try (inversion H; eauto; fail).
    + destruct (Fs.may Fs.W own perm); inversion H; eauto.
    + destruct (Fs.may Fs.W own perm); inversion H; eauto.
  - eapply create_none; eassumption.
Qed.

End Calls.

(** ** copy_file: what a copy that succeeds leaves *)

Section Copy_file.

Lemma fopen_r_found (p : string) (w : world) (f : nat) :
  fst (Fs.fopen_r p w) = Some f ->
  Fs.fopen_r p w = (Some f, w)
  /\ exists stk, Fs.namei w true p = Fs.Found stk /\ Fs.top stk = f.
Proof.
  unfold Fs.fopen_r. intros H.
  destruct (Fs.namei w true p) as [stk| | |]; try discriminate.
  destruct (inodes w !! Fs.top stk); try discriminate.
  destruct (Fs.may_inode Fs.R i); try discriminate.
  simpl in H. inversion H; subst. eauto.
Qed.

Lemma fopen_w_emit (p : string) (ev : event) (w : world) :
  Fs.fopen_w p (emit ev w)
  = (fst (Fs.fopen_w p w), emit ev (snd (Fs.fopen_w p w))).
Proof.
  unfold Fs.fopen_w, Fs.create.
  change (Fs.namei (emit ev w) true p) with (Fs.namei w true p).
  change (inodes (emit ev w)) with (inodes w).
  destruct (Fs.namei w true p) as [stk|stk name| |]; try reflexivity.
  - destruct (inodes w !! Fs.top stk) as [[own perm ?|?|?|? own perm]|];
      try reflexivity; destruct (Fs.may Fs.W own perm); reflexivity.
  - destruct (inodes w !! Fs.top stk) as [[|own perm ?| |]|]; try reflexivity.
    destruct (Fs.may Fs.W own perm); reflexivity.
Qed.

Lemma stat_found (p : string) (w : world) (stk : Fs.stack) (n : inode) :
  Fs.namei w true p = Fs.Found stk -> inodes w !! Fs.top stk = Some n ->
  Fs.stat p w = (Some (Fs.st_mode n), w).
Proof. intros H1 H2. unfold Fs.stat. now rewrite H1, H2. Qed.

Lemma chmod_file (p : string) (mode : Z) (w : world) stk perm data :
  Fs.namei w true p = Fs.Found stk ->
  inodes w !! Fs.top stk = Some (IReg true perm data) ->
  Fs.chmod p mode w
  = (true, set_inodes (<[Fs.top stk := IReg true (Z.land mode Fs.ALLPERMS) data]>
                         (inodes w)) w).
Proof. intros H1 H2. unfold Fs.chmod. now rewrite H1, H2. Qed.

(** [fwrite] with room on the device. *)
Lemma write_all (d : nat) (buf : string) (w : world) own perm data :
  inodes w !! d = Some (IReg own perm data) -> len buf <= space w ->
  Fs.write d buf w
  = (len buf,
     set_space (space w - len buf)
       (set_inodes (<[d := IReg own perm (data +++ buf)]> (inodes w)) w)).
Proof.
  intros Hd Hs. unfold Fs.write. rewrite Hd.
  rewrite Nat.min_l by assumption. rewrite take_all by lia.
  now rewrite Nat.ltb_irrefl.
Qed.

(** The permission bits [chmod] takes from the [st_mode] of a regular
    file are the file's own. *)
Lemma perms_of_st_mode own perm data :
  Z.land (Fs.st_mode (IReg own perm data)) Fs.ALLPERMS = Z.land perm Fs.ALLPERMS.
Proof.
  simpl. rewrite Z.land_lor_distr_l.
  rewrite <- Z.land_assoc, Z.land_diag.
  change (Z.land Fs.S_IFREG Fs.ALLPERMS) with 0%Z. apply Z.lor_0_l.
Qed.

(** The loop writes what is left of the source behind what the
    destination holds, in rounds of [BUFSIZE] bytes. *)
Lemma copy_loop_all (src dest : string) (s d : nat) os ps data od pd :
  s <> d ->
  forall fuel off w acc,
    inodes w !! s = Some (IReg os ps data) ->
    inodes w !! d = Some (IReg od pd acc) ->
    len data - off < fuel -> len data - off <= space w ->
    copy_loop fuel src dest s d off w
    = set_space (space w - (len data - off))
        (set_inodes (<[d := IReg od pd (acc +++ drop off data)]> (inodes w)) w).
Proof.
  intros Hsd. induction fuel as [|fuel IH]; intros off w acc Hs Hd Hf Hsp;
    [lia|].
  cbn [copy_loop]. unfold fread, Fs.contents. rewrite Hs.
  set (buffer := take BUFSIZE (drop off data)).
  assert (Hb : len buffer = Nat.min BUFSIZE (len data - off)).
  { unfold buffer. now rewrite len_take, len_drop. }
  destruct (Nat.eqb_spec (len buffer) 0) as [Hz|Hnz].
  - assert (Hend : len data - off = 0).
    { unfold BUFSIZE in Hb. lia. }
    rewrite Hend, Nat.sub_0_r.
    rewrite (drop_all off data) by lia. rewrite sapp_empty_r.
    rewrite list_insert_id by assumption. now destruct w.
  - rewrite (write_all d buffer w od pd acc Hd) by lia.
    rewrite Nat.eqb_refl.
    apply lookup_lt_Some in Hd as Hlt.
    rewrite (IH (off + len buffer) _ (acc +++ buffer)); simpl.
    + unfold set_space, set_inodes; simpl. f_equal.
      * rewrite list_insert_insert_eq, sapp_assoc. do 3 f_equal.
        rewrite <- drop_drop. unfold buffer. apply take_drop_len.
      * unfold BUFSIZE in Hb. lia.
    + now rewrite list_lookup_insert_ne by congruence.
    + now apply list_lookup_insert_eq.
    + lia.
    + lia.
Qed.

(** The heart of C1: a regular file that can be read, copied to a
    destination that can be created or overwritten on a device with
    enough room, arrives with the same bytes and the same mode, and is
    itself unchanged. *)
Lemma copy_file_copies (src dest : string) (w : world) (s d : nat) os ps data :
  fst (Fs.fopen_r src w) = Some s ->
  inodes w !! s = Some (IReg os ps data) ->
  fst (Fs.fopen_w dest w) = Some d ->
  s <> d ->
  (forall n, inodes w !! d = Some n -> exists perm old, n = IReg true perm old) ->
  len data <= space w ->
  let w' := copy_file src dest w in
  (exists stk, Fs.namei w' true dest = Fs.Found stk /\ Fs.top stk = d)
  /\ inodes w' !! d = Some (IReg true (Z.land ps Fs.ALLPERMS) data)
  /\ inodes w' !! s = Some (IReg os ps data).
Proof.
  intros Hr Hs Hw Hsd Hown Hroom. unfold copy_file.
  destruct (fopen_r_found _ _ _ Hr) as (-> & stks & Hns & Hts).
  unfold eprint, random_delay. rewrite fopen_w_emit.
  destruct (Fs.fopen_w dest w) as [r w1] eqn:Ew. simpl in Hw; subst r.
  destruct (fopen_w_some _ _ _ _ Ew)
    as ((t1 & -> & G1 & Hkeep & _) & (stk & Hnd & Htd) & Hkind).
  simpl fst. simpl snd. cbv iota beta.
  assert (Hs1 : t1 !! s = Some (IReg os ps data)).
  { exact (Hkeep s _ Hs Hsd). }
  destruct Hkind as [(od & pd & Hd1 & Hold & Hnew) | (f & own & perm & Hd0 & _)];
    [|destruct (Hown _ Hd0) as (? & ? & ?); discriminate].
  simpl in Hd1.
  assert (od = true) as ->.
  { destruct (inodes w !! d) as [n|] eqn:Ed.
    - destruct (Hown _ eq_refl) as (perm & old & ->).
      destruct (Hold _ eq_refl) as (data' & E). now inversion E.
    - apply Hnew. now apply lookup_ge_None in Ed. }
  set (wc := emit _ (emit _ (set_inodes t1 w))).
  assert (Hc : Fs.contents s wc = data).
  { unfold Fs.contents. change (inodes wc) with t1. now rewrite Hs1. }
  rewrite Hc.
  rewrite (copy_loop_all src dest s d os ps data true pd Hsd
             (S (len data)) 0 wc EmptyString Hs1 Hd1)
    by (change (space wc) with (space w); lia).
  simpl drop. simpl String.append.
  set (t2 := <[d := IReg true pd data]> (inodes wc)).
  assert (G2 : grows t1 t2).
  { eapply grows_insert; [exact Hd1 | exact I]. }
  apply lookup_lt_Some in Hd1 as Hlt.
  assert (Hs2 : t2 !! s = Some (IReg os ps data)).
  { unfold t2. change (inodes wc) with t1.
    now rewrite list_lookup_insert_ne by congruence. }
  assert (Hd2 : t2 !! d = Some (IReg true pd data)).
  { unfold t2. now apply list_lookup_insert_eq. }
  match goal with
  | |- context [Fs.stat src ?x] => set (wd := x)
  end.
  assert (Hnsd : Fs.namei wd true src = Fs.Found stks).
  { apply (namei_grows w wd); [|reflexivity|assumption].
    eapply grows_trans; eassumption. }
  assert (Hndd : Fs.namei wd true dest = Fs.Found stk).
  { apply (namei_grows (set_inodes t1 w) wd); [exact G2|reflexivity|assumption]. }
  rewrite (stat_found src wd stks (IReg os ps data) Hnsd)
    by (rewrite Hts; exact Hs2).
  rewrite (chmod_file dest _ wd stk pd data Hndd)
    by (rewrite Htd; exact Hd2).
  rewrite perms_of_st_mode, Htd.
  set (t3 := <[d := _]> (inodes wd)).
  change (inodes wd) with t2 in t3.
  assert (G3 : grows t2 t3).
  { eapply grows_insert; [exact Hd2 | exact I]. }
  simpl. split; [|split].
  - exists stk. split; [|assumption].
    apply (namei_grows wd); [exact G3 | reflexivity | assumption].
  - apply list_lookup_insert_eq. unfold t2. now rewrite length_insert.
  - unfold t3. now rewrite list_lookup_insert_ne by congruence.
Qed.

End Copy_file.

(** ** copy_directory: one entry *)

Section Entry.

Lemma type_bits (ty perm : Z) :
  Z.land ty Fs.S_IFMT = ty ->
  Z.land (Z.lor ty (Z.land perm Fs.ALLPERMS)) Fs.S_IFMT = ty.
Proof.
  intros H. rewrite Z.land_lor_distr_l, H, <- Z.land_assoc.
  change (Z.land Fs.ALLPERMS Fs.S_IFMT) with 0%Z.
  now rewrite Z.land_0_r, Z.lor_0_r.
Qed.

Lemma fmt_bits (n : inode) :
  Z.land (Fs.st_mode n) Fs.S_IFMT
  = match n with
    | IReg _ _ _ => Fs.S_IFREG
    | IDir _ _ _ => Fs.S_IFDIR
    | ILnk _ => Fs.S_IFLNK
    | IOther kind _ _ => Fs.fmt_of kind
    end.
Proof.
  destruct n as [? ? ?|? ? ?|?|[] ? ?]; simpl;
    try (apply type_bits; reflexivity); reflexivity.
Qed.

(** What [S_ISDIR] and [S_ISREG] say of an inode. *)
Lemma S_ISDIR_inode (n : inode) :
  Fs.S_ISDIR (Fs.st_mode n) = match n with IDir _ _ _ => true | _ => false end.
Proof.
  unfold Fs.S_ISDIR. rewrite fmt_bits. now destruct n as [| | |[]].
Qed.

Lemma S_ISREG_inode (n : inode) :
  Fs.S_ISREG (Fs.st_mode n) = match n with IReg _ _ _ => true | _ => false end.
Proof.
  unfold Fs.S_ISREG. rewrite fmt_bits. now destruct n as [| | |[]].
Qed.

Lemma fopen_r_emit (p : string) (ev : event) (w : world) :
  fst (Fs.fopen_r p (emit ev w)) = fst (Fs.fopen_r p w).
Proof.
  unfold Fs.fopen_r.
  change (Fs.namei (emit ev w) true p) with (Fs.namei w true p).
  change (inodes (emit ev w)) with (inodes w).
  destruct (Fs.namei w true p); try reflexivity.
  destruct (inodes w !! Fs.top stk); try reflexivity.
  now destruct (Fs.may_inode Fs.R i).
Qed.

Lemma eqb_name (a b : string) : a <> b -> String.eqb a b = false.
Proof. intros H. now apply String.eqb_neq. Qed.

End Entry.

(** C1, as the program has it.  An entry other than [.] and [..] is
    dispatched on the inode [stat] finds for it, symbolic links being
    followed: a directory is handed to the recursive call; a regular
    file is handed to [copy_file], after which -- when the source can be
    read, the destination can be created or is a file of the user, and
    the device has room -- the destination path names a regular file
    with the bytes and the permission bits of the source, the source
    being unchanged; a device, FIFO or socket is passed over with one
    [WARNING] line and nothing else. *)
Theorem copy_entry_dispatch
        (recurse : string -> string -> world -> option world)
        (src dest d_name : string) (w : world) (stk : Fs.stack) (n : inode) :
  d_name <> "." -> d_name <> ".." ->
  let src_path := child_path src d_name in
  let dest_path := child_path dest d_name in
  Fs.namei w true src_path = Fs.Found stk ->
  inodes w !! Fs.top stk = Some n ->
  match n with
  | IDir _ _ _ =>
      src_path <> src \/ dest_path <> dest ->
      copy_entry recurse src dest d_name w
      = recurse src_path dest_path (found_directory src_path w)
  | IReg own perm data =>
      copy_entry recurse src dest d_name w
      = Some (copy_file src_path dest_path (found_file src_path w))
      /\ forall d,
          Fs.may Fs.R own perm = true ->
          fst (Fs.fopen_w dest_path w) = Some d ->
          Fs.top stk <> d ->
          (forall n', inodes w !! d = Some n' ->
                      exists perm' old, n' = IReg true perm' old) ->
          len data <= space w ->
          exists w',
            copy_entry recurse src dest d_name w = Some w'
            /\ (exists stk', Fs.namei w' true dest_path = Fs.Found stk'
                             /\ Fs.top stk' = d)
            /\ inodes w' !! d = Some (IReg true (Z.land perm Fs.ALLPERMS) data)
            /\ Fs.st_mode (IReg true (Z.land perm Fs.ALLPERMS) data)
               = Fs.st_mode (IReg own perm data)
            /\ inodes w' !! Fs.top stk = Some (IReg own perm data)
  | IOther _ _ _ =>
      copy_entry recurse src dest d_name w = Some (skipped src_path w)
      /\ inodes (skipped src_path w) = inodes w
      /\ log (skipped src_path w)
         = log w ++ [Stderr (YELLOW +++ "   [WARNING] Skipped unknown entry type: "
                               +++ src_path +++ NL +++ RESET)]
  | ILnk _ => True
  end.
Proof.
  intros Hdot Hdotdot src_path dest_path Hn Hi.
  assert (Hentry : copy_entry recurse src dest d_name w
                   = if Fs.S_ISDIR (Fs.st_mode n) then
                       if String.eqb src_path src && String.eqb dest_path dest
                       then None
                       else recurse src_path dest_path (found_directory src_path w)
                     else if Fs.S_ISREG (Fs.st_mode n)
                          then Some (copy_file src_path dest_path
                                               (found_file src_path w))
                          else Some (skipped src_path w)).
  { unfold copy_entry. rewrite (eqb_name _ _ Hdot), (eqb_name _ _ Hdotdot).
    simpl orb. cbv iota. fold src_path dest_path.
    rewrite (stat_found src_path w stk n Hn Hi). reflexivity. }
  rewrite S_ISDIR_inode, S_ISREG_inode in Hentry.
  destruct n as [own perm data|own perm ents|target|kind own perm].
  - split; [exact Hentry|].
    intros d Hread Hw Hsd Hown Hroom. eexists. split; [exact Hentry|].
    assert (Hr : fst (Fs.fopen_r src_path (found_file src_path w))
                 = Some (Fs.top stk)).
    { unfold found_file, eprint, random_delay. rewrite fopen_r_emit.
      unfold Fs.fopen_r. rewrite Hn, Hi. simpl. now rewrite Hread. }
    assert (Hw' : fst (Fs.fopen_w dest_path (found_file src_path w)) = Some d).
    { unfold found_file, eprint, random_delay. now rewrite fopen_w_emit. }
    destruct (copy_file_copies src_path dest_path (found_file src_path w)
                (Fs.top stk) d own perm data Hr Hi Hw' Hsd Hown Hroom)
      as (Hres & Hd & Hs).
    repeat split; try assumption.
    simpl. now rewrite <- Z.land_assoc, Z.land_diag.
  - intros [Hs|Hd].
    + now rewrite Hentry, (eqb_name _ _ Hs).
    + now rewrite Hentry, (eqb_name _ _ Hd), andb_false_r.
  - exact I.
  - split; [exact Hentry|]. split; reflexivity.
Qed.

(** The regular file [docs/a.txt] of the sample machine. *)
Lemma copy_entry_dispatch_witness :
  copy_entry (fun _ _ _ => None) "docs" "/media/pi/piBackup" "a.txt" Sample.w0
  = Some (copy_file (child_path "docs" "a.txt")
                    (child_path "/media/pi/piBackup" "a.txt")
                    (found_file (child_path "docs" "a.txt") Sample.w0)).
Proof.
  pose proof (copy_entry_dispatch (fun _ _ _ => None) "docs"
                "/media/pi/piBackup" "a.txt" Sample.w0
                [("a.txt", 4); ("docs", 3); ("pi", 2); ("home", 1)]
                (IReg true (octal "640") "hello")) as H.
  cbv zeta in H. apply H.
  - discriminate.
  - discriminate.
  - vm_compute. reflexivity.
  - reflexivity.
Defined.

(** C1, as stated, fails: the entry [docs/link] of the sample machine is
    a symbolic link, and it is not passed over: [stat] follows it to
    [a.txt] and the file is copied. *)
Lemma symlink_entry_is_copied :
  lstat "docs/link" Sample.w0 = Some (Z.lor Fs.S_IFLNK (octal "777"))
  /\ copy_entry (fun _ _ _ => None) "docs" "/media/pi/piBackup" "link" Sample.w0
     = Some (copy_file "docs/link" "/media/pi/piBackup/link"
                       (found_file "docs/link" Sample.w0))
  /\ ~ dispatch_on_entry_type (fun _ _ _ => None) "docs" "/media/pi/piBackup"
                              "link" Sample.w0.
Proof.
  split; [reflexivity|]. split; [reflexivity|].
  intros H. specialize (H _ eq_refl). vm_compute in H. discriminate H.
Qed.

(** ** copy_directory: the loop goes on *)

Section Later.

Lemma later_refl (w : world) : later w w.
Proof. unfold later. reflexivity. Qed.

Lemma later_trans (a b c : world) : later a b -> later b c -> later a c.
Proof. unfold later. intros. etransitivity; eassumption. Qed.

Lemma later_emit (ev : event) (w : world) : later w (emit ev w).
Proof. unfold later. now apply prefix_app_r. Qed.

Lemma later_same_log (w w' : world) : log w' = log w -> later w w'.
Proof. unfold later. now intros ->. Qed.

Lemma mkdir_true p mode w w' :
  Fs.mkdir p mode w = (true, w') ->
  exists stk name,
    Fs.namei w false p = Fs.Absent stk name
    /\ w' = set_inodes (created (Fs.top stk) name
                                (IDir true (Fs.masked mode w) []) (inodes w)) w.
Proof.
  unfold Fs.mkdir. intros H.
  destruct (Fs.namei w false p) as [|stk name| |]; try discriminate.
  destruct (Fs.create _ _ _ w) as [[i|] w1] eqn:E; [|discriminate].
  apply create_some in E as (_ & -> & _). inversion H. eauto.
Qed.

Lemma mkdir_false p mode w w' :
  Fs.mkdir p mode w = (false, w') -> exists e, w' = set_errno e w.
Proof.
  unfold Fs.mkdir. intros H.
  destruct (Fs.namei w false p) as [|stk name| |]; try (inversion H; eauto; fail).
  destruct (Fs.create _ _ _ w) as [[i|] w1] eqn:E; [discriminate|].
  apply create_none in E as [e ->]. inversion H. eauto.
Qed.

(** No call writes on the streams. *)
Lemma log_stat p w : log (snd (Fs.stat p w)) = log w.
Proof.
  destruct (Fs.stat p w) as [r w'] eqn:E. now apply stat_world in E.
Qed.

Lemma log_opendir p w : log (snd (Fs.opendir p w)) = log w.
Proof.
  destruct (Fs.opendir p w) as [r w'] eqn:E. now apply opendir_world in E.
Qed.

Lemma log_fopen_r p w : log (snd (Fs.fopen_r p w)) = log w.
Proof.
  destruct (Fs.fopen_r p w) as [[f|] w'] eqn:E; simpl.
  - now apply fopen_r_some in E as ->.
  - now apply fopen_r_none in E as [e ->].
Qed.

Lemma log_fopen_w p w : log (snd (Fs.fopen_w p w)) = log w.
Proof.
  destruct (Fs.fopen_w p w) as [[f|] w'] eqn:E; simpl.
  - now apply fopen_w_some in E as ((t1 & -> & _) & _).
  - now apply fopen_w_none in E as [e ->].
Qed.

Lemma log_mkdir p mode w : log (snd (Fs.mkdir p mode w)) = log w.
Proof.
  destruct (Fs.mkdir p mode w) as [[] w'] eqn:E; simpl.
  - now apply mkdir_true in E as (stk & name & _ & ->).
  - now apply mkdir_false in E as [e ->].
Qed.

Lemma log_write i buf w : log (snd (Fs.write i buf w)) = log w.
Proof.
  unfold Fs.write.
  destruct (inodes w !! i) as [[own perm data| | |]|]; simpl; try reflexivity.
  now destruct (_ <? _).
Qed.

Lemma log_chmod p mode w : log (snd (Fs.chmod p mode w)) = log w.
Proof.
  unfold Fs.chmod. destruct (Fs.namei w true p); try reflexivity.
  now destruct (inodes w !! Fs.top stk) as [[[] ? ?|[] ? ?| |? [] ?]|].
Qed.

Lemma later_copy_loop src dest s d :
  forall fuel off w, later w (copy_loop fuel src dest s d off w).
Proof.
  induction fuel as [|fuel IH]; intros off w; simpl; [apply later_refl|].
  destruct (len (fread s off w) =? 0); [apply later_refl|].
  pose proof (log_write d (fread s off w) w) as L.
  destruct (Fs.write d (fread s off w) w) as [written w1]. simpl in L.
  apply later_same_log in L.
  destruct (written =? len (fread s off w)).
  - eapply later_trans; [exact L | apply IH].
  - unfold eprint, perror, random_delay.
    eapply later_trans; [exact L|].
    eapply later_trans; apply later_emit.
Qed.

Lemma later_copy_file src dest w : later w (copy_file src dest w).
Proof.
  unfold copy_file, eprint, perror, random_delay.
  pose proof (later_same_log _ _ (log_fopen_r src w)) as L1.
  destruct (Fs.fopen_r src w) as [[s|] w1]; simpl in L1.
  2:{ eapply later_trans; [exact L1|]. eapply later_trans; apply later_emit. }
  set (w2 := emit _ w1).
  assert (L2 : later w w2) by (eapply later_trans; [exact L1 | apply later_emit]).
  pose proof (later_same_log _ _ (log_fopen_w dest w2)) as L3.
  destruct (Fs.fopen_w dest w2) as [[d|] w3]; simpl in L3.
  2:{ eapply later_trans; [exact L2|]. eapply later_trans; [exact L3|].
      eapply later_trans; apply later_emit. }
  set (w4 := emit _ w3).
  set (w5 := copy_loop _ _ _ _ _ _ w4).
  set (w6 := emit _ w5).
  assert (L6 : later w w6).
  { eapply later_trans; [exact L2|]. eapply later_trans; [exact L3|].
    eapply later_trans; [apply later_emit|].
    eapply later_trans; [apply later_copy_loop | apply later_emit]. }
  pose proof (later_same_log _ _ (log_stat src w6)) as L7.
  destruct (Fs.stat src w6) as [[m|] w7]; simpl in L7.
  2:{ eapply later_trans; eassumption. }
  pose proof (later_same_log _ _ (log_chmod dest m w7)) as L8.
  destruct (Fs.chmod dest m w7) as [[] w8]; simpl in L8.
  - eapply later_trans; [exact L6|]. eapply later_trans; [exact L7|].
    eapply later_trans; [exact L8 | apply later_emit].
  - eapply later_trans; [exact L6|]. eapply later_trans; [exact L7|].
    eapply later_trans; [exact L8|]. eapply later_trans; apply later_emit.
Qed.

End Later.

Section Loop.

Variable recurse : string -> string -> world -> option world.
Hypothesis recurse_later :
  forall s d w w', recurse s d w = Some w' -> later w w'.

Lemma later_after (ev : event) (w0 w w' : world) :
  log w = log w0 -> later (emit ev w) w' ->
  exists k, log w' = log w0 ++ k /\ In ev k.
Proof.
  intros Hw [k Hk]. exists (ev :: k). split; [|now left].
  rewrite Hk. simpl. now rewrite Hw, <- List.app_assoc.
Qed.

(** Every outcome of the loop body for a named entry leaves its line. *)
Lemma copy_entry_visits (src dest d_name : string) (w w' : world) :
  d_name <> "." -> d_name <> ".." ->
  copy_entry recurse src dest d_name w = Some w' ->
  exists k, log w' = log w ++ k /\ exists ev, In ev k /\ visit_line src d_name ev.
Proof.
  intros Hdot Hdotdot. unfold copy_entry, visit_line.
  rewrite (eqb_name _ _ Hdot), (eqb_name _ _ Hdotdot). simpl orb. cbv iota.
  set (src_path := child_path src d_name).
  set (dest_path := child_path dest d_name).
  pose proof (log_stat src_path w) as Ls.
  destruct (Fs.stat src_path w) as [[m|] w1]; simpl in Ls.
  - destruct (Fs.S_ISDIR m); [|destruct (Fs.S_ISREG m)].
    + destruct (_ && _); [discriminate|]. intros H.
      apply recurse_later in H.
      destruct (later_after _ w _ _ Ls H) as (k & Hk & Hin).
      exists k. split; [exact Hk|]. eexists. split; [exact Hin|]. now left.
    + intros H. inversion H; subst w'; clear H.
      pose proof (later_copy_file src_path dest_path (found_file src_path w1)) as L.
      unfold found_file, eprint, random_delay in L.
      destruct (later_after _ w _ _ Ls L) as (k & Hk & Hin).
      exists k. split; [exact Hk|]. eexists. split; [exact Hin|].
      right. now left.
    + intros H. inversion H; subst w'; clear H.
      eexists. split.
      { unfold eprint, random_delay. rewrite log_emit, Ls. reflexivity. }
      eexists. split; [now left|]. right. right. now left.
  - intros H. inversion H; subst w'; clear H.
    eexists. split.
    { unfold eprint, perror, random_delay. rewrite !log_emit, Ls.
      rewrite <- List.app_assoc. reflexivity. }
    eexists. split; [right; now left|]. right. right. now right.
Qed.

Lemma copy_entry_later (src dest d_name : string) (w w' : world) :
  copy_entry recurse src dest d_name w = Some w' -> later w w'.
Proof.
  destruct (String.eqb d_name ".") eqn:E1.
  { unfold copy_entry. rewrite E1. simpl. intros H. inversion H.
    apply later_refl. }
  destruct (String.eqb d_name "..") eqn:E2.
  { unfold copy_entry. rewrite E1, E2. simpl. intros H. inversion H.
    apply later_refl. }
  apply String.eqb_neq in E1, E2. intros H.
  destruct (copy_entry_visits _ _ _ _ _ E1 E2 H) as (k & Hk & _).
  now exists k.
Qed.

(** The loop comes to every name [readdir] gives. *)
Lemma copy_entries_visits (src dest : string) :
  forall (names : list string) (w w' : world),
    copy_entries recurse src dest names w = Some w' ->
    exists k, log w' = log w ++ k
      /\ forall d_name, In d_name names -> d_name <> "." -> d_name <> ".." ->
           exists ev, In ev k /\ visit_line src d_name ev.
Proof.
  induction names as [|name rest IH]; intros w w' H; simpl in H.
  - inversion H. exists []. split; [now rewrite List.app_nil_r | intros ? []].
  - destruct (copy_entry recurse src dest name w) as [w1|] eqn:E; [|discriminate].
    destruct (IH _ _ H) as (k2 & Hk2 & Hrest).
    pose proof (copy_entry_later _ _ _ _ _ E) as [k1 Hk1].
    exists (k1 ++ k2). split; [now rewrite Hk2, Hk1, <- List.app_assoc|].
    intros d_name [<-|Hin] Hdot Hdotdot.
    + destruct (copy_entry_visits _ _ _ _ _ Hdot Hdotdot E) as (k & Hk & ev & Hev & Hv).
      rewrite Hk1 in Hk. apply List.app_inv_head in Hk. subst k.
      exists ev. split; [apply List.in_app_iff; now left | exact Hv].
    + destruct (Hrest _ Hin Hdot Hdotdot) as (ev & Hev & Hv).
      exists ev. split; [apply List.in_app_iff; now right | exact Hv].
Qed.

Lemma copy_directory_body_later (src dest : string) (w w' : world) :
  copy_directory_body recurse src dest w = Some w' -> later w w'.
Proof.
  unfold copy_directory_body, eprint, perror, random_delay.
  pose proof (later_same_log _ _ (log_opendir src w)) as L1.
  destruct (Fs.opendir src w) as [[names|] w1]; simpl in L1.
  2:{ intros H. inversion H. eapply later_trans; [exact L1|].
      eapply later_trans; apply later_emit. }
  set (w2 := emit _ w1).
  pose proof (later_same_log _ _ (log_mkdir dest (octal "755") w2)) as L2.
  destruct (Fs.mkdir dest (octal "755") w2) as [made w3]; simpl in L2.
  assert (L3 : later w w3).
  { eapply later_trans; [exact L1|]. eapply later_trans; [apply later_emit|].
    exact L2. }
  destruct (negb made && negb (errno_eqb (errno w3) EEXIST)).
  { intros H. inversion H. eapply later_trans; [exact L3|].
    eapply later_trans; apply later_emit. }
  destruct (copy_entries recurse src dest names (emit _ w3)) as [w4|] eqn:E;
    [|discriminate].
  intros H. inversion H.
  destruct (copy_entries_visits _ _ _ _ _ E) as (k & Hk & _).
  assert (L4 : later (emit (Stderr (GRAY +++ "   [INFO] Destination directory created or already exists: "
                                      +++ dest +++ NL +++ RESET)) w3) w4)
    by (exists k; exact Hk).
  eapply later_trans; [exact L3|]. eapply later_trans; [apply later_emit|].
  eapply later_trans; [exact L4 | apply later_emit].
Qed.

End Loop.

Lemma copy_directory_at_later :
  forall depth src dest w w',
    copy_directory_at depth src dest w = Some w' -> later w w'.
Proof.
  induction depth as [|depth IH]; intros src dest w w' H.
  - apply (copy_directory_body_later (fun _ _ _ => None) ltac:(discriminate)
             src dest w w' H).
  - exact (copy_directory_body_later (copy_directory_at depth) IH
             src dest w w' H).
Qed.

(** ** copy_directory: how deep the recursion goes *)

Section Depth.

Lemma child_path_len (dir name : string) :
  len dir < PATH_MAX ->
  len dir <= len (child_path dir name) < PATH_MAX
  /\ (child_path dir name <> dir -> len dir < len (child_path dir name)).
Proof.
  intros H. unfold child_path, snprintf.
  pose proof (len_take (PATH_MAX - 1) (dir +++ "/" +++ name)) as L.
  rewrite !len_app in L. change (len "/") with 1 in L.
  split; [lia|]. intros Hne.
  destruct (Nat.eq_dec (len dir) (PATH_MAX - 1)) as [E|E]; [|lia].
  exfalso. apply Hne. rewrite <- E. apply take_app_exact.
Qed.

Lemma opendir_some_len (p : string) (w : world) (names : list string) :
  fst (Fs.opendir p w) = Some names -> len p < PATH_MAX.
Proof.
  intros H. destruct (Nat.lt_ge_cases (len p) PATH_MAX) as [|Hge]; [assumption|].
  unfold Fs.opendir in H.
  destruct (namei_short w true p Hge) as [E|E]; rewrite E in H; discriminate.
Qed.

Lemma mkdir_done_len (p : string) (mode : Z) (w : world) :
  negb (fst (Fs.mkdir p mode w))
  && negb (errno_eqb (errno (snd (Fs.mkdir p mode w))) EEXIST) = false ->
  len p < PATH_MAX.
Proof.
  intros H. destruct (Nat.lt_ge_cases (len p) PATH_MAX) as [|Hge]; [assumption|].
  unfold Fs.mkdir in H.
  destruct (namei_short w false p Hge) as [E|E]; rewrite E in H; discriminate.
Qed.

Variables recurse1 recurse2 : string -> string -> world -> option world.
Variables src dest : string.

(** The two stand-ins for the recursive call agree on the calls this
    directory can make. *)
Hypothesis agree :
  forall d_name w,
    child_path src d_name <> src \/ child_path dest d_name <> dest ->
    recurse1 (child_path src d_name) (child_path dest d_name) w
    = recurse2 (child_path src d_name) (child_path dest d_name) w.

Lemma copy_entry_ext (d_name : string) (w : world) :
  copy_entry recurse1 src dest d_name w = copy_entry recurse2 src dest d_name w.
Proof.
  unfold copy_entry. destruct (_ || _); [reflexivity|].
  destruct (Fs.stat (child_path src d_name) w) as [[m|] w1]; [|reflexivity].
  destruct (Fs.S_ISDIR m); [|reflexivity].
  destruct (String.eqb_spec (child_path src d_name) src) as [E1|E1];
    [destruct (String.eqb_spec (child_path dest d_name) dest) as [E2|E2]|];
    simpl; try reflexivity; apply agree; auto.
Qed.

Lemma copy_entries_ext (names : list string) (w : world) :
  copy_entries recurse1 src dest names w = copy_entries recurse2 src dest names w.
Proof.
  revert w. induction names as [|name rest IH]; intros w; simpl; [reflexivity|].
  rewrite copy_entry_ext. destruct (copy_entry recurse2 src dest name w); auto.
Qed.

End Depth.

Lemma copy_directory_body_ext
      (recurse1 recurse2 : string -> string -> world -> option world)
      (src dest : string) (w : world) :
  (len src < PATH_MAX -> len dest < PATH_MAX ->
   forall d_name w',
     child_path src d_name <> src \/ child_path dest d_name <> dest ->
     recurse1 (child_path src d_name) (child_path dest d_name) w'
     = recurse2 (child_path src d_name) (child_path dest d_name) w') ->
  copy_directory_body recurse1 src dest w = copy_directory_body recurse2 src dest w.
Proof.
  intros Hagree. unfold copy_directory_body.
  destruct (Fs.opendir src w) as [[names|] w1] eqn:Eo; [|reflexivity].
  assert (Hs : len src < PATH_MAX).
  { apply (opendir_some_len src w names). now rewrite Eo. }
  set (w2 := eprint _ w1).
  destruct (Fs.mkdir dest (octal "755") w2) as [made w3] eqn:Em.
  destruct (negb made && negb (errno_eqb (errno w3) EEXIST)) eqn:Ec;
    [reflexivity|].
  assert (Hd : len dest < PATH_MAX).
  { apply (mkdir_done_len dest (octal "755") w2). now rewrite Em. }
  rewrite (copy_entries_ext recurse1 recurse2 src dest (Hagree Hs Hd)).
  reflexivity.
Qed.

(** The depth [copy_directory] allows is never used up: any depth from
    [room src dest] on gives the same result. *)
Lemma copy_directory_at_enough :
  forall d1 d2 src dest w,
    room src dest <= d1 -> room src dest <= d2 ->
    copy_directory_at d1 src dest w = copy_directory_at d2 src dest w.
Proof.
  induction d1 as [|d1 IH]; intros d2 src dest w H1 H2.
  - destruct d2 as [|d2]; [reflexivity|]. simpl.
    apply copy_directory_body_ext. intros Hs Hd. unfold room in H1. lia.
  - destruct d2 as [|d2]; simpl; apply copy_directory_body_ext;
      intros Hs Hd d_name w' Hne.
    + unfold room in H2. lia.
    + destruct (child_path_len src d_name Hs) as (Ls & Ls').
      destruct (child_path_len dest d_name Hd) as (Ld & Ld').
      assert (room (child_path src d_name) (child_path dest d_name)
              < room src dest).
      { unfold room. destruct Hne as [Hne|Hne];
          [apply Ls' in Hne | apply Ld' in Hne]; lia. }
      apply IH; lia.
Qed.

Lemma copy_directory_depth (depth : nat) (src dest : string) (w : world) :
  room src dest <= depth ->
  copy_directory_at depth src dest w = copy_directory src dest w.
Proof. intros H. unfold copy_directory. now apply copy_directory_at_enough. Qed.

(** ** copy_directory: failures and the loop *)

Section Top.

Lemma copy_directory_at_body (depth : nat) (src dest : string) (w : world) :
  copy_directory_at depth src dest w
  = copy_directory_body
      (fun s d w' =>
         match depth with
         | O => None
         | S depth' => copy_directory_at depth' s d w'
         end) src dest w.
Proof. destruct depth; reflexivity. Qed.

Lemma opendir_some p w names w' :
  Fs.opendir p w = (Some names, w') -> w' = w.
Proof.
  unfold Fs.opendir. intros H.
  destruct (Fs.namei w true p); try discriminate.
  destruct (inodes w !! Fs.top stk) as [[]|]; try discriminate.
  destruct (Fs.may Fs.R own perm); now inversion H.
Qed.

Lemma opendir_none p w w' :
  Fs.opendir p w = (None, w') -> exists e, w' = set_errno e w.
Proof.
  unfold Fs.opendir. intros H.
  destruct (Fs.namei w true p); try (inversion H; eauto; fail).
  destruct (inodes w !! Fs.top stk) as [[]|]; try (inversion H; eauto; fail).
  destruct (Fs.may Fs.R own perm); inversion H; eauto.
Qed.

Lemma stat_none p w w' :
  Fs.stat p w = (None, w') -> exists e, w' = set_errno e w.
Proof.
  unfold Fs.stat. intros H.
  destruct (Fs.namei w true p); try (inversion H; eauto; fail).
  destruct (inodes w !! Fs.top stk); inversion H; eauto.
Qed.

Lemma mkdir_emit (p : string) (mode : Z) (ev : event) (w : world) :
  Fs.mkdir p mode (emit ev w)
  = (fst (Fs.mkdir p mode w), emit ev (snd (Fs.mkdir p mode w))).
Proof.
  unfold Fs.mkdir, Fs.create.
  change (Fs.namei (emit ev w) false p) with (Fs.namei w false p).
  change (inodes (emit ev w)) with (inodes w).
  destruct (Fs.namei w false p) as [stk|stk name| |]; try reflexivity.
  destruct (inodes w !! Fs.top stk) as [[|own perm ?| |]|]; try reflexivity.
  destruct (Fs.may Fs.W own perm); reflexivity.
Qed.

(** Past [opendir] and [mkdir], the loop comes to every name and the
    closing line is written. *)
Lemma copy_directory_visits (src dest : string) (w w' : world)
      (names : list string) :
  fst (Fs.opendir src w) = Some names ->
  fst (Fs.mkdir dest (octal "755") w) = true
  \/ errno (snd (Fs.mkdir dest (octal "755") w)) = EEXIST ->
  copy_directory src dest w = Some w' ->
  exists k,
    log w'
    = log w
        ++ [Stderr (GRAY +++ "   [INFO] Opened source directory: " +++ src
                      +++ NL +++ RESET);
            Stderr (GRAY +++ "   [INFO] Destination directory created or already exists: "
                      +++ dest +++ NL +++ RESET)]
        ++ k
        ++ [Stderr (GRAY +++ "   [INFO] Finished processing directory: " +++ src
                      +++ NL +++ RESET)]
    /\ forall d_name,
        In d_name names -> d_name <> "." -> d_name <> ".." ->
        exists ev, In ev k /\ visit_line src d_name ev.
Proof.
  unfold copy_directory. rewrite copy_directory_at_body.
  unfold copy_directory_body, eprint, perror, random_delay.
  intros Ho Hm.
  destruct (Fs.opendir src w) as [r w1] eqn:Eo. simpl in Ho; subst r.
  apply opendir_some in Eo as ->. rewrite mkdir_emit.
  pose proof (log_mkdir dest (octal "755") w) as Lm.
  destruct (Fs.mkdir dest (octal "755") w) as [made w3] eqn:Em.
  simpl in Hm, Lm |- *.
  assert (Hc : negb made && negb (errno_eqb (errno w3) EEXIST) = false).
  { destruct Hm as [->| ->]; [reflexivity | apply andb_false_r]. }
  rewrite Hc.
  match goal with
  | |- context [copy_entries ?r src dest names ?x] =>
      destruct (copy_entries r src dest names x) as [w4|] eqn:Ee;
        [|discriminate]
  end.
  intros H. inversion H; subst w'; clear H.
  apply copy_entries_visits in Ee as (k & Hk & Hvisit).
  2:{ intros s d wa wb. destruct (room src dest); [discriminate|].
      apply copy_directory_at_later. }
  exists k. split; [|exact Hvisit].
  rewrite log_emit, Hk, !log_emit, Lm, <- !List.app_assoc. reflexivity.
Qed.

End Top.



(** ** Worlds with the same file system *)

Section Same_fs.

Lemma same_fs_refl (w : world) : same_fs w w.
Proof. now repeat split. Qed.

Lemma same_fs_trans (a b c : world) : same_fs a b -> same_fs b c -> same_fs a c.
Proof.
  unfold same_fs. intros (?&?&?&?&?&?) (?&?&?&?&?&?). repeat split; congruence.
Qed.

Lemma same_fs_emit (ev : event) (w : world) : same_fs w (emit ev w).
Proof. now repeat split. Qed.

Lemma same_fs_set_errno (e : errno_t) (w : world) : same_fs w (set_errno e w).
Proof. now repeat split. Qed.

Lemma same_fs_namei (w w' : world) follow p :
  same_fs w w' -> Fs.namei w' follow p = Fs.namei w follow p.
Proof. intros (Hi & _ & Hc & _). now apply namei_same. Qed.

Lemma same_fs_stat (w w' : world) p :
  same_fs w w' -> fst (Fs.stat p w') = fst (Fs.stat p w).
Proof.
  intros H. unfold Fs.stat. rewrite (same_fs_namei w w' true p H).
  destruct H as (-> & _). destruct (Fs.namei w true p); try reflexivity.
  now destruct (inodes w !! Fs.top stk).
Qed.

Lemma stat_same_fs p w : same_fs w (snd (Fs.stat p w)).
Proof.
  unfold Fs.stat. destruct (Fs.namei w true p); try apply same_fs_set_errno.
  destruct (inodes w !! Fs.top stk); [apply same_fs_refl | apply same_fs_set_errno].
Qed.

Lemma same_fs_realpath (w w' : world) p :
  same_fs w w' -> fst (Fs.realpath p w') = fst (Fs.realpath p w).
Proof.
  intros H. unfold Fs.realpath. rewrite (same_fs_namei w w' true p H).
  destruct (Fs.namei w true p); try reflexivity.
  now destruct (PATH_MAX <=? _).
Qed.

Lemma realpath_same_fs p w : same_fs w (snd (Fs.realpath p w)).
Proof.
  unfold Fs.realpath. destruct (Fs.namei w true p); try apply same_fs_set_errno.
  destruct (PATH_MAX <=? _); [apply same_fs_set_errno | apply same_fs_refl].
Qed.

Lemma same_fs_fopen_r (w w' : world) p :
  same_fs w w' -> fst (Fs.fopen_r p w') = fst (Fs.fopen_r p w).
Proof.
  intros H. unfold Fs.fopen_r. rewrite (same_fs_namei w w' true p H).
  destruct H as (-> & _). destruct (Fs.namei w true p); try reflexivity.
  destruct (inodes w !! Fs.top stk); try reflexivity.
  now destruct (Fs.may_inode Fs.R i).
Qed.

Lemma fopen_r_same_fs p w : same_fs w (snd (Fs.fopen_r p w)).
Proof.
  destruct (Fs.fopen_r p w) as [[f|] w'] eqn:E; simpl.
  - apply fopen_r_some in E as ->. apply same_fs_refl.
  - apply fopen_r_none in E as [e ->]. apply same_fs_set_errno.
Qed.

Lemma same_fs_contents (w w' : world) f :
  same_fs w w' -> Fs.contents f w' = Fs.contents f w.
Proof. intros (Hi & _). unfold Fs.contents. now rewrite Hi. Qed.

Lemma same_fs_mkdir (w w' : world) p mode :
  same_fs w w' -> fst (Fs.mkdir p mode w') = fst (Fs.mkdir p mode w).
Proof.
  intros H. unfold Fs.mkdir, Fs.create.
  rewrite (same_fs_namei w w' false p H).
  destruct H as (-> & _). destruct (Fs.namei w false p); try reflexivity.
  destruct (inodes w !! Fs.top stk) as [[|own perm ?| |]|]; try reflexivity.
  now destruct (Fs.may Fs.W own perm).
Qed.

Lemma same_fs_config_path (w w' : world) :
  same_fs w w' -> config_path_of w' = config_path_of w.
Proof. intros (_ & _ & _ & Hh & _). unfold config_path_of. now rewrite Hh. Qed.

(** Reading the default looks at the file system only. *)
Lemma read_default_backup_dir_same_fs (w : world) :
  same_fs w (snd (read_default_backup_dir w)).
Proof.
  unfold read_default_backup_dir, eprint, random_delay.
  set (w1 := emit _ w).
  pose proof (fopen_r_same_fs (config_path_of w) w1) as H.
  destruct (Fs.fopen_r (config_path_of w) w1) as [[f|] w2]; simpl in H.
  - destruct (fgets PATH_MAX (Fs.contents f w2)); simpl;
      (eapply same_fs_trans; [apply same_fs_emit|]);
      (eapply same_fs_trans; [exact H | apply same_fs_emit]).
  - simpl. eapply same_fs_trans; [apply same_fs_emit|].
    eapply same_fs_trans; [exact H | apply same_fs_emit].
Qed.

Lemma same_fs_read_default_backup_dir (w w' : world) :
  same_fs w w' ->
  fst (read_default_backup_dir w') = fst (read_default_backup_dir w).
Proof.
  intros H. unfold read_default_backup_dir, eprint, random_delay.
  rewrite (same_fs_config_path w w' H).
  set (wa := emit _ w). set (wb := emit _ w').
  assert (Hab : same_fs wa wb).
  { now destruct H as (?&?&?&?&?&?). }
  pose proof (same_fs_fopen_r wa wb (config_path_of w) Hab) as Hf.
  pose proof (fopen_r_same_fs (config_path_of w) wa) as Ha.
  pose proof (fopen_r_same_fs (config_path_of w) wb) as Hb.
  destruct (Fs.fopen_r (config_path_of w) wa) as [ra wa1].
  destruct (Fs.fopen_r (config_path_of w) wb) as [rb wb1].
  simpl in *. subst rb. destruct ra as [f|]; [|reflexivity].
  assert (Hc : Fs.contents f wb1 = Fs.contents f wa1).
  { unfold Fs.contents.
    destruct Ha as (-> & _), Hb as (-> & _). now destruct Hab as (-> & _). }
  rewrite Hc. now destruct (fgets PATH_MAX (Fs.contents f wa1)).
Qed.

Lemma create_timestamped_dir_same_fs base w :
  same_fs w (snd (create_timestamped_dir base w)).
Proof.
  unfold create_timestamped_dir, eprint, perror, random_delay.
  destruct (localtime w); [|now repeat split].
  destruct (Strftime.strftime 30 t); [|now repeat split].
  destruct (PATH_MAX <=? _); now repeat split.
Qed.

Lemma same_fs_create_timestamped_dir base (w w' : world) :
  same_fs w w' ->
  fst (create_timestamped_dir base w') = fst (create_timestamped_dir base w).
Proof.
  intros (_&_&_&_&_&Hl). unfold create_timestamped_dir. rewrite Hl.
  destruct (localtime w); [|reflexivity].
  destruct (Strftime.strftime 30 t); [|reflexivity].
  now destruct (PATH_MAX <=? _).
Qed.

End Same_fs.

(** ** main: the option loop *)

Section Options.

(** [-t optarg] as two arguments. *)
Lemma option_loop_t prog optarg rest target_dir update_default operands w :
  option_loop prog ("-t" :: optarg :: rest) target_dir update_default operands w
  = match Fs.realpath optarg
            (eprint (GRAY +++ "[DEBUG] -t option provided with argument: "
                       +++ optarg +++ NL +++ RESET) (random_delay w)) with
    | (None, w) =>
        (Exit EXIT_FAILURE,
         perror (RED +++ "Invalid target directory" +++ RESET) w)
    | (Some resolved, w) => option_loop prog rest resolved true operands w
    end.
Proof. reflexivity. Qed.

(** The option loop changes nothing in the file system. *)
Lemma option_loop_same_fs prog :
  forall args target_dir update_default operands w,
    same_fs w (snd (option_loop prog args target_dir update_default operands w)).
Proof.
  intros args. remember (length args) as n eqn:Hn. revert args Hn.
  induction n as [n IHn] using lt_wf_ind.
  intros args Hn target_dir update_default operands w.
  assert (IH : forall rest' target_dir' update_default' operands' w',
            length rest' < length args ->
            same_fs w' (snd (option_loop prog rest' target_dir' update_default'
                                         operands' w'))).
  { intros rest' ? ? ? ? Hlt. eapply IHn; [|reflexivity]. lia. }
  clear IHn Hn.
  destruct args as [|arg rest]; [apply same_fs_refl|].
  cbn [option_loop].
  destruct (String.eqb arg "--"); [apply same_fs_refl|].
  assert (Husage : forall w', same_fs w w' ->
            same_fs w (snd (@invalid_usage parsed prog w'))).
  { intros w' Hw'. unfold invalid_usage, eprint, random_delay. simpl.
    eapply same_fs_trans; [exact Hw'|].
    eapply same_fs_trans; apply same_fs_emit. }
  assert (Ht : forall optarg rest' ,
            length rest' < length (arg :: rest) ->
            same_fs w
              (snd (match Fs.realpath optarg
                            (eprint (GRAY +++ "[DEBUG] -t option provided with argument: "
                                       +++ optarg +++ NL +++ RESET) (random_delay w))
                    with
                    | (None, w) =>
                        (Exit EXIT_FAILURE,
                         perror (RED +++ "Invalid target directory" +++ RESET) w)
                    | (Some resolved, w) =>
                        option_loop prog rest' resolved true operands w
                    end))).
  { intros optarg rest' Hlt. unfold eprint, random_delay.
    set (w1 := emit _ w).
    pose proof (realpath_same_fs optarg w1) as Hr.
    destruct (Fs.realpath optarg w1) as [[r|] w2]; simpl in Hr.
    - eapply same_fs_trans; [apply same_fs_emit|].
      eapply same_fs_trans; [exact Hr | now apply IH].
    - simpl. eapply same_fs_trans; [apply same_fs_emit|].
      eapply same_fs_trans; [exact Hr | apply same_fs_emit]. }
  destruct arg as [|a arg']; [apply IH; simpl; lia|].
  destruct (Ascii.eqb_spec a "-") as [->|Hna].
  2:{ destruct a as [[] [] [] [] [] [] [] []]; try (apply IH; simpl; lia).
      now contradiction Hna. }
  destruct arg' as [|c more]; [apply IH; simpl; lia|].
  destruct (Ascii.eqb c "t").
  - destruct more as [|m more'].
    + destruct rest as [|optarg rest'].
      * apply Husage, same_fs_emit.
      * apply Ht. simpl. lia.
    + apply Ht. simpl. lia.
  - apply Husage, same_fs_emit.
Qed.

End Options.

Section Main_facts.

Lemma read_default_backup_dir_later (w : world) :
  later w (snd (read_default_backup_dir w)).
Proof.
  unfold read_default_backup_dir, eprint, random_delay.
  set (w1 := emit _ w).
  pose proof (later_same_log _ _ (log_fopen_r (config_path_of w) w1)) as H.
  destruct (Fs.fopen_r (config_path_of w) w1) as [[f|] w2]; simpl in H.
  - destruct (fgets PATH_MAX (Fs.contents f w2)); simpl;
      (eapply later_trans; [apply later_emit|]);
      (eapply later_trans; [exact H | apply later_emit]).
  - simpl. eapply later_trans; [apply later_emit|].
    eapply later_trans; [exact H | apply later_emit].
Qed.

(** A lone operand that is no option. *)
Lemma option_loop_operand prog operand target_dir update_default w :
  starts_with "-" operand = false ->
  option_loop prog [operand] target_dir update_default [] w
  = (Done (Parsed target_dir update_default [operand]), w).
Proof.
  intros H. destruct operand as [|a rest]; [reflexivity|].
  simpl in H. cbn [option_loop].
  destruct (Ascii.eqb_spec a "-") as [->|Hne]; [discriminate|].
  assert (E : String.eqb (String a rest) "--" = false).
  { apply String.eqb_neq. intros E. inversion E. contradiction. }
  rewrite E.
  destruct a as [[] [] [] [] [] [] [] []]; try reflexivity.
  now contradiction Hne.
Qed.

Lemma mkdir_exists p mode w stk :
  Fs.namei w false p = Fs.Found stk ->
  Fs.mkdir p mode w = (false, set_errno EEXIST w).
Proof. intros H. unfold Fs.mkdir. now rewrite H. Qed.

End Main_facts.

(** C7.  [-t] with a path that [realpath] cannot resolve: the process
    exits with [EXIT_FAILURE], which is not zero; the inode table is
    what it was, and so is the default a later run would read. *)
Theorem main_invalid_target (prog optarg : string) (rest : list string)
        (w : world) :
  fst (Fs.realpath optarg w) = None ->
  let r := main prog ("-t" :: optarg :: rest) w in
  fst r = Exit EXIT_FAILURE /\ EXIT_FAILURE <> 0%Z
  /\ inodes (snd r) = inodes w
  /\ fst (read_default_backup_dir (snd r)) = fst (read_default_backup_dir w).
Proof.
  intros Hr. unfold main. rewrite option_loop_t.
  unfold eprint, random_delay.
  set (w2 := emit _ (emit _ w)).
  assert (H2 : same_fs w w2).
  { eapply same_fs_trans; apply same_fs_emit. }
  pose proof (same_fs_realpath w w2 optarg H2) as Hf.
  pose proof (realpath_same_fs optarg w2) as Hs.
  destruct (Fs.realpath optarg w2) as [r w3]. simpl in Hf, Hs.
  rewrite Hr in Hf. subst r. cbn [fst snd].
  assert (H3 : same_fs w (perror (RED +++ "Invalid target directory" +++ RESET) w3)).
  { eapply same_fs_trans; [exact H2|].
    eapply same_fs_trans; [exact Hs | apply same_fs_emit]. }
  repeat split; try discriminate.
  - exact (proj1 H3).
  - now apply same_fs_read_default_backup_dir.
Qed.

Lemma main_invalid_target_witness :
  fst (main "backup" ["-t"; "/nonexistent"] Sample.w0) = Exit EXIT_FAILURE.
Proof.
  apply (main_invalid_target "backup" "/nonexistent" [] Sample.w0).
  reflexivity.
Defined.

(** C9.  A run without [-t] and without operand: the default is read,
    the error and the usage line are written, and the process exits
    with [EXIT_FAILURE]; the inode table is what it was. *)
Theorem main_without_source (prog : string) (args : list string) (w : world) :
  args = [] \/ args = ["--"] ->
  let r := main prog args w in
  fst r = Exit EXIT_FAILURE /\ EXIT_FAILURE <> 0%Z
  /\ inodes (snd r) = inodes w
  /\ exists k,
      log (snd r)
      = log w ++ k
          ++ [Stderr (RED +++ "   [ERROR] Expected source_dir after options."
                          +++ NL +++ RESET);
              Stderr (usage prog)].
Proof.
  intros Hargs.
  assert (Hloop : forall w0,
            option_loop prog args DEFAULT_TARGET_DIR false [] w0
            = (Done (Parsed DEFAULT_TARGET_DIR false []), w0)).
  { intros w0. destruct Hargs as [-> | ->]; reflexivity. }
  unfold main. rewrite Hloop. cbv iota beta.
  unfold eprint, random_delay.
  set (w2 := emit _ (emit _ w)).
  assert (H2 : same_fs w w2) by (eapply same_fs_trans; apply same_fs_emit).
  pose proof (read_default_backup_dir_same_fs w2) as Hs.
  pose proof (read_default_backup_dir_later w2) as [k Hk].
  destruct (read_default_backup_dir w2) as [target_dir w3].
  cbn [fst snd] in Hs, Hk |- *.
  repeat split; try discriminate.
  - exact (proj1 (same_fs_trans _ _ _ H2
                    (same_fs_trans _ _ _ Hs
                       (same_fs_trans _ _ _ (same_fs_emit _ _) (same_fs_emit _ _))))).
  - exists ([Stderr (GRAY +++ "[DEBUG] Starting backup tool." +++ NL +++ RESET);
             Stderr (GRAY +++ "[DEBUG] Reading default backup directory." +++ NL
                          +++ RESET)] ++ k).
    rewrite !log_emit, Hk. unfold w2. rewrite !log_emit.
    rewrite <- !List.app_assoc. reflexivity.
Qed.

Lemma main_without_source_witness :
  fst (main "backup" [] Sample.w0) = Exit EXIT_FAILURE.
Proof.
  apply (main_without_source "backup" [] Sample.w0). left. reflexivity.
Defined.

(** ** main: the backup directory that is already there *)

Lemma create_timestamped_dir_done base w b :
  fst (create_timestamped_dir base w) = Done b ->
  snd (create_timestamped_dir base w) = w.
Proof.
  unfold create_timestamped_dir. destruct (localtime w); [|discriminate].
  destruct (Strftime.strftime 30 t); [|discriminate].
  destruct (PATH_MAX <=? _); [discriminate | reflexivity].
Qed.




(** ** Writing the configuration file *)

(** [later w w'] where [w'] is [w] after prints and [errno] updates. *)
Ltac later_prints :=
  unfold later, prefix; eexists;
  cbn [log emit set_errno set_inodes set_space];
  rewrite <- ?List.app_assoc; reflexivity.

Section Write_default.

Lemma created_keeps_files d name n t i own perm data :
  (exists own' perm' ents, t !! d = Some (IDir own' perm' ents)) ->
  (forall o p dt, n <> IReg o p dt) ->
  created d name n t !! i = Some (IReg own perm data) ->
  t !! i = Some (IReg own perm data).
Proof.
  intros (own' & perm' & ents & Hd) Hn Hi.
  apply lookup_lt_Some in Hi as Hlt. unfold created in Hlt.
  rewrite length_app, length_link_in in Hlt. simpl in Hlt.
  destruct (decide (i = length t)) as [->|Hnew].
  { rewrite created_new in Hi. inversion Hi. now apply Hn in H0. }
  destruct (decide (i = d)) as [->|Hid].
  { rewrite (created_dir _ _ _ _ _ _ _ Hd) in Hi. discriminate. }
  rewrite created_other in Hi by lia. exact Hi.
Qed.

(** What [ensure_config_dir_exists] does: nothing, or one new empty
    directory under the path [dirname config_path]. *)
Lemma ensure_config_dir_exists_effect (config_path : string) (w : world) :
  let w1 := ensure_config_dir_exists config_path w in
  space w1 = space w /\ cwd w1 = cwd w /\ umask w1 = umask w /\ later w w1
  /\ (inodes w1 = inodes w
      \/ exists stk name,
          (exists own perm ents,
              inodes w !! Fs.top stk = Some (IDir own perm ents))
          /\ inodes w1 = created (Fs.top stk) name
                                 (IDir true (Fs.masked (octal "755") w) [])
                                 (inodes w)
          /\ Fs.namei w1 false (dirname config_path)
             = Fs.Found ((name, length (inodes w)) :: stk)).
Proof.
  cbv zeta. unfold ensure_config_dir_exists, eprint, perror, random_delay.
  rewrite mkdir_emit.
  destruct (Fs.mkdir (dirname config_path) (octal "755") w) as [[] w1] eqn:Em;
    cbn [fst snd].
  - apply mkdir_true in Em as (stk & name & Hn & ->).
    destruct (namei_absent_dir _ _ _ _ _ Hn) as (own & perm & ents & Hd & Hnone).
    split; [reflexivity|]. split; [reflexivity|]. split; [reflexivity|].
    split; [later_prints|].
    right. exists stk, name. split; [eauto|]. split; [reflexivity|].
    apply (namei_absent_grows w _ false (dirname config_path) stk name
             (length (inodes w)) own perm
             (ents ++ [(name, length (inodes w))])
             (IDir true (Fs.masked (octal "755") w) [])).
    + apply grows_created.
    + reflexivity.
    + exact Hn.
    + now apply created_dir.
    + now apply assoc_app_none.
    + apply created_new.
    + reflexivity.
  - apply mkdir_false in Em as [e ->].
    destruct (negb (errno_eqb (errno (emit _ (set_errno e w))) EEXIST));
      (split; [reflexivity|]); (split; [reflexivity|]);
      (split; [reflexivity|]); (split; [|now left]); later_prints.
Qed.

(** What [fwrite] does to the inode table. *)
Lemma write_effect (f : nat) (buf : string) (w : world) :
  let w1 := snd (Fs.write f buf w) in
  cwd w1 = cwd w /\ log w1 = log w
  /\ ((exists own perm data,
          inodes w !! f = Some (IReg own perm data)
          /\ inodes w1
             = <[f := IReg own perm
                        (data +++ take (Nat.min (len buf) (space w)) buf)]>
                 (inodes w))
      \/ inodes w1 = inodes w).
Proof.
  cbv zeta. unfold Fs.write.
  destruct (inodes w !! f) as [[own perm data| | |]|] eqn:E; cbn [snd];
    try (split; [reflexivity|]; split; [reflexivity|]; now right).
  destruct (_ <? _);
    (split; [reflexivity|]; split; [reflexivity|]; left; eauto).
Qed.

End Write_default.

Section Store.

(** A file other than the one [fopen(p, "w")] opened was there before
    the call, as it is. *)
Lemma fopen_w_keeps_files (t t1 : list inode) (f i : nat) own perm data :
  grows t t1 ->
  (forall j n, t !! j = Some n -> j <> f ->
     match n with IDir _ _ _ => True | _ => t1 !! j = Some n end) ->
  (forall j, length t <= j -> j < length t1 -> j = f) ->
  t1 !! i = Some (IReg own perm data) -> i <> f ->
  t !! i = Some (IReg own perm data).
Proof.
  intros G Hkeep Hnew Hi Hne.
  apply lookup_lt_Some in Hi as Hlt.
  destruct (t !! i) as [n|] eqn:E.
  - destruct (G _ _ E) as (n' & Hn' & Gn). rewrite Hi in Hn'.
    inversion Hn'; subst n'. specialize (Hkeep _ _ E Hne).
    destruct n; simpl in Gn; try tauto. now rewrite Hi in Hkeep.
  - apply lookup_ge_None in E. now specialize (Hnew i E Hlt).
Qed.

Lemma write_reg (f : nat) (buf : string) (w : world) own perm data :
  inodes w !! f = Some (IReg own perm data) ->
  inodes (snd (Fs.write f buf w))
  = <[f := IReg own perm (data +++ take (Nat.min (len buf) (space w)) buf)]>
      (inodes w)
  /\ cwd (snd (Fs.write f buf w)) = cwd w
  /\ log (snd (Fs.write f buf w)) = log w.
Proof.
  intros H. unfold Fs.write. rewrite H. now destruct (_ <? _).
Qed.

Lemma write_other (f : nat) (buf : string) (w : world) kind own perm :
  inodes w !! f = Some (IOther kind own perm) ->
  snd (Fs.write f buf w) = w.
Proof. intros H. unfold Fs.write. now rewrite H. Qed.

Lemma store_unfold (cfg c : string) (w : world) :
  store cfg c w
  = match Fs.fopen_w cfg w with
    | (Some f, w3) =>
        emit (Stderr (GRAY +++ "[DEBUG] Config file updated successfully."
                           +++ NL +++ RESET)) (snd (Fs.write f c w3))
    | (None, w3) =>
        emit (Perror (RED +++ "Failed to update default backup directory" +++ RESET)
                     (errno w3)) w3
    end.
Proof. reflexivity. Qed.

(** [store] when the file cannot be opened. *)
Lemma store_fails (cfg c : string) (w w3 : world) :
  Fs.fopen_w cfg w = (None, w3) ->
  exists e,
    inodes (store cfg c w) = inodes w /\ cwd (store cfg c w) = cwd w
    /\ log (store cfg c w)
       = log w ++ [Perror (RED +++ "Failed to update default backup directory"
                               +++ RESET) e].
Proof.
  intros Ew. rewrite store_unfold, Ew.
  apply fopen_w_none in Ew as [e ->]. exists e. now repeat split.
Qed.

(** [store] when the file is open: the table is that of [fopen] with
    the bytes of [c] in the file. *)
Lemma store_succeeds (cfg c : string) (w w3 : world) (f : nat) :
  Fs.fopen_w cfg w = (Some f, w3) ->
  cwd (store cfg c w) = cwd w
  /\ log (store cfg c w)
     = log w ++ [Stderr (GRAY +++ "[DEBUG] Config file updated successfully."
                              +++ NL +++ RESET)]
  /\ grows (inodes w3) (inodes (store cfg c w))
  /\ length (inodes (store cfg c w)) = length (inodes w3)
  /\ (forall i, i <> f -> inodes (store cfg c w) !! i = inodes w3 !! i)
  /\ ((exists own perm,
          inodes (store cfg c w) !! f
          = Some (IReg own perm (take (Nat.min (len c) (space w)) c)))
      \/ (exists kind own perm,
             inodes (store cfg c w) !! f = Some (IOther kind own perm))).
Proof.
  intros Ew. rewrite store_unfold, Ew.
  destruct (fopen_w_some _ _ _ _ Ew) as ((t3 & -> & _) & _ & Hkind).
  destruct Hkind as [(own & perm & Hf & _)|(kind & own & perm & Hf & Ht)].
  - destruct (write_reg f c (set_inodes t3 w) own perm EmptyString Hf)
      as (Hi & Hc & Hl).
    rewrite inodes_emit, Hi. cbn [inodes set_inodes space] in *.
    split; [cbn [cwd emit]; now rewrite Hc|].
    split; [rewrite log_emit, Hl; reflexivity|].
    split; [eapply grows_insert; [exact Hf | exact I]|].
    split; [apply length_insert|].
    split; [intros i Hne; now rewrite list_lookup_insert_ne by congruence|].
    left. exists own, perm. apply list_lookup_insert_eq.
    now apply lookup_lt_Some in Hf.
  - cbn [inodes set_inodes] in Ht.
    assert (Hf3 : inodes (set_inodes t3 w) !! f = Some (IOther kind own perm)).
    { cbn [inodes set_inodes]. now rewrite Ht. }
    rewrite (write_other f c (set_inodes t3 w) kind own perm Hf3).
    rewrite inodes_emit.
    split; [reflexivity|]. split; [reflexivity|].
    split; [apply grows_refl|]. split; [reflexivity|].
    split; [reflexivity|]. right. eauto.
Qed.

End Store.

Section Write_default_effect.

Lemma write_default_backup_dir_unfold (c : string) (w : world) :
  write_default_backup_dir c w
  = store (config_path_of w) c
          (emit (Stderr (GRAY +++ "[DEBUG] Writing new default directory to config file: "
                              +++ config_path_of w +++ NL +++ RESET))
                (ensure_config_dir_exists (config_path_of w) w)).
Proof. reflexivity. Qed.

(** The frame of [store] after a step that made at most the
    configuration directory. *)
Lemma store_after_ensure (cfg c : string) (w w1 w2 : world) :
  cwd w1 = cwd w -> space w1 = space w ->
  (inodes w1 = inodes w
   \/ exists stk name,
       (exists own perm ents,
           inodes w !! Fs.top stk = Some (IDir own perm ents))
       /\ inodes w1 = created (Fs.top stk) name
                              (IDir true (Fs.masked (octal "755") w) [])
                              (inodes w)
       /\ Fs.namei w1 false (dirname cfg)
          = Fs.Found ((name, length (inodes w)) :: stk)) ->
  inodes w2 = inodes w1 -> cwd w2 = cwd w1 -> space w2 = space w1 ->
  cwd (store cfg c w2) = cwd w
  /\ config_only cfg w (store cfg c w2)
  /\ exists k,
      log (store cfg c w2) = log w2 ++ k
      /\ ((exists e, In (Perror (RED +++ "Failed to update default backup directory"
                                     +++ RESET) e) k)
          \/ (len c <= space w -> holds cfg c (store cfg c w2))).
Proof.
  intros Hcwd1 Hsp1 Hdir Hi2 Hcwd2 Hsp2.
  assert (Hlen1 : length (inodes w1) <= S (length (inodes w))).
  { destruct Hdir as [->|(stk & name & _ & -> & _)]; [lia|].
    unfold created. rewrite length_app, length_link_in. simpl. lia. }
  assert (Hfiles1 : forall i own perm data,
             inodes w1 !! i = Some (IReg own perm data) ->
             inodes w !! i = Some (IReg own perm data)).
  { intros i own perm data Hi.
    destruct Hdir as [E|(stk & name & Hd & E & _)]; rewrite E in Hi;
      [assumption|].
    apply (created_keeps_files _ _ _ _ _ _ _ _ Hd) in Hi;
      [exact Hi | intros ? ? ?; discriminate]. }
  assert (Hdirs1 : forall w', grows (inodes w1) (inodes w') -> cwd w' = cwd w1 ->
             forall i, length (inodes w) <= i -> i < length (inodes w1) ->
             exists stk, Fs.namei w' false (dirname cfg) = Fs.Found stk
                         /\ Fs.top stk = i).
  { intros w' G Hc i Hge Hlt.
    destruct Hdir as [E|(stk & name & _ & E & Hn)].
    - rewrite E in Hlt. lia.
    - exists ((name, length (inodes w)) :: stk). split.
      + eapply namei_grows; eassumption.
      + rewrite E in Hlt. unfold created in Hlt.
        rewrite length_app, length_link_in in Hlt. simpl in *. lia. }
  destruct (Fs.fopen_w cfg w2) as [[f|] w3] eqn:Ew.
  - (* the file is open *)
    destruct (store_succeeds cfg c w2 w3 f Ew)
      as (Hcwd' & Hlog' & G' & Hlen' & Hsame' & Hf').
    destruct (fopen_w_some _ _ _ _ Ew)
      as ((t3 & Ew3 & G3 & Hkeep & Hlen3 & Hnew) & (stkf & Hnf & Htf) & Hkind).
    assert (Hi3 : inodes w3 = t3) by (now rewrite Ew3).
    assert (Hcwd3 : cwd w3 = cwd w2) by (now rewrite Ew3).
    clear Ew3. rewrite Hi3 in *. rewrite Hi2 in *.
    remember (store cfg c w2) as w' eqn:Ew'. clear Ew'.
    assert (Hnf' : Fs.namei w' true cfg = Fs.Found stkf).
    { apply (namei_grows w3); [now rewrite Hi3 | congruence | exact Hnf]. }
    assert (Hf3 : forall ow pm es, t3 !! f <> Some (IDir ow pm es)).
    { intros ow pm es E.
      destruct Hkind as [(o & p & E' & _)|(k & o & p & E' & Et)].
      - congruence.
      - rewrite Et in E. congruence. }
    split; [congruence|]. split.
    { split; [lia|]. split.
      - intros i own perm data Hi.
        destruct (decide (i = f)) as [->|Hne]; [right; eauto|]. left.
        apply Hfiles1. rewrite Hsame' in Hi by assumption.
        eapply fopen_w_keeps_files; eassumption.
      - intros i own perm ents Hi Hge.
        assert (Hne : i <> f).
        { intros ->. destruct Hf' as [(o & p & E)|(k & o & p & E)]; congruence. }
        rewrite Hsame' in Hi by assumption.
        assert (Hlt1 : i < length (inodes w1)).
        { destruct (Nat.lt_ge_cases i (length (inodes w1))) as [|Hge1];
            [assumption|].
          apply lookup_lt_Some in Hi as Hlt3. now specialize (Hnew i Hge1 Hlt3). }
        apply (Hdirs1 w'); try assumption; [|congruence].
        eapply grows_trans; eassumption. }
    eexists. split; [exact Hlog'|].
    right. intros Hroom. exists stkf. rewrite Htf.
    destruct Hf' as [(o & p & E)|(k & o & p & E)].
    + exists (IReg o p (take (Nat.min (len c) (space w2)) c)).
      split; [exact Hnf'|]. split; [exact E|].
      rewrite Nat.min_l by lia. now apply take_all.
    + exists (IOther k o p). split; [exact Hnf'|]. now split.
  - (* the file cannot be opened *)
    destruct (store_fails cfg c w2 w3 Ew) as (e & Hi' & Hcwd' & Hlog').
    remember (store cfg c w2) as w' eqn:Ew'. clear Ew'.
    split; [congruence|]. split.
    { split; [rewrite Hi', Hi2; lia|]. split.
      - intros i own perm data Hi. left. apply Hfiles1. congruence.
      - intros i own perm ents Hi Hge. rewrite Hi', Hi2 in Hi.
        apply lookup_lt_Some in Hi as Hlt.
        apply (Hdirs1 w'); try assumption; [|congruence].
        rewrite Hi', Hi2. apply grows_refl. }
    eexists. split; [exact Hlog'|]. left. exists e. now left.
Qed.

(** What [write_default_backup_dir] does. *)
Lemma write_default_backup_dir_effect (c : string) (w : world) :
  cwd (write_default_backup_dir c w) = cwd w
  /\ config_only (config_path_of w) w (write_default_backup_dir c w)
  /\ exists k,
      log (write_default_backup_dir c w) = log w ++ k
      /\ ((exists e, In (Perror (RED +++ "Failed to update default backup directory"
                                     +++ RESET) e) k)
          \/ (len c <= space w ->
              holds (config_path_of w) c (write_default_backup_dir c w))).
Proof.
  rewrite write_default_backup_dir_unfold.
  destruct (ensure_config_dir_exists_effect (config_path_of w) w)
    as (Hsp1 & Hcwd1 & _ & [k1 Hk1] & Hdir).
  remember (ensure_config_dir_exists (config_path_of w) w) as w1 eqn:E1.
  clear E1.
  remember (emit (Stderr (GRAY +++ "[DEBUG] Writing new default directory to config file: "
                               +++ config_path_of w +++ NL +++ RESET)) w1)
    as w2 eqn:E2.
  assert (Hi2 : inodes w2 = inodes w1) by (now rewrite E2).
  assert (Hcwd2 : cwd w2 = cwd w1) by (now rewrite E2).
  assert (Hsp2 : space w2 = space w1) by (now rewrite E2).
  assert (Hlog2 : log w2 = log w1 ++ [Stderr (GRAY +++ "[DEBUG] Writing new default directory to config file: "
                               +++ config_path_of w +++ NL +++ RESET)])
    by (now rewrite E2).
  clear E2.
  destruct (store_after_ensure (config_path_of w) c w w1 w2
              Hcwd1 Hsp1 Hdir Hi2 Hcwd2 Hsp2)
    as (Hc & Hframe & k & Hk & Hres).
  split; [exact Hc|]. split; [exact Hframe|].
  exists (k1 ++ [Stderr (GRAY +++ "[DEBUG] Writing new default directory to config file: "
                           +++ config_path_of w +++ NL +++ RESET)] ++ k).
  split; [rewrite Hk, Hlog2, Hk1, <- !List.app_assoc; reflexivity|].
  destruct Hres as [(e & Hin)|Hres]; [left|right; exact Hres].
  exists e. apply List.in_app_iff. right. now right.
Qed.

End Write_default_effect.

(** ** main: setting the default *)

Section Set_default.

Lemma realpath_some (p c : string) (w w' : world) :
  Fs.realpath p w = (Some c, w') ->
  w' = w /\ nonempty c = true /\ len c < PATH_MAX.
Proof.
  unfold Fs.realpath. intros H.
  destruct (Fs.namei w true p) as [stk| | |]; try discriminate.
  destruct (Nat.leb_spec PATH_MAX
              (len (if Fs.is_nil (rev (map fst stk)) then "/"
                    else Fs.join (rev (map fst stk))))) as [|Hlt];
    [discriminate|].
  inversion H; subst. split; [reflexivity|]. split; [|exact Hlt].
  now destruct (rev (map fst stk)).
Qed.

(** The run [prog -t optarg] with a path that resolves to [c]. *)
Lemma main_t (prog optarg c : string) (w : world) :
  fst (Fs.realpath optarg w) = Some c ->
  main prog ["-t"; optarg] w
  = (Done 0%Z,
     emit (Stdout ("Updated default backup directory to: " +++ c +++ NL))
       (write_default_backup_dir c
          (emit (Stderr (GRAY +++ "[DEBUG] Updating default backup directory to: "
                              +++ c +++ NL +++ RESET))
             (emit (Stderr (GRAY +++ "[DEBUG] -t option provided with argument: "
                                 +++ optarg +++ NL +++ RESET))
                (emit (Stderr (GRAY +++ "[DEBUG] Starting backup tool." +++ NL
                                    +++ RESET)) w))))).
Proof.
  intros Hr. unfold main. rewrite option_loop_t.
  unfold eprint, print, random_delay.
  remember (emit (Stderr (GRAY +++ "[DEBUG] -t option provided with argument: "
                               +++ optarg +++ NL +++ RESET))
              (emit (Stderr (GRAY +++ "[DEBUG] Starting backup tool." +++ NL
                                  +++ RESET)) w)) as w2 eqn:E2.
  assert (H2 : same_fs w w2).
  { rewrite E2. eapply same_fs_trans; apply same_fs_emit. }
  pose proof (same_fs_realpath w w2 optarg H2) as Hf.
  destruct (Fs.realpath optarg w2) as [r w3] eqn:E3.
  cbn [fst] in Hf. rewrite Hr in Hf. subst r.
  apply realpath_some in E3 as (-> & _). reflexivity.
Qed.

Lemma config_only_same (cfg : string) (w w' v v' : world) :
  inodes v = inodes w -> inodes v' = inodes w' -> cwd v' = cwd w' ->
  config_only cfg w w' -> config_only cfg v v'.
Proof.
  intros Hv Hv' Hc (H1 & H2 & H3). unfold config_only.
  rewrite Hv, Hv'. rewrite !(namei_same w' v') by assumption.
  repeat split; assumption.
Qed.

Lemma holds_same (cfg c : string) (w w' : world) :
  inodes w' = inodes w -> cwd w' = cwd w -> holds cfg c w -> holds cfg c w'.
Proof.
  intros Hi Hc (stk & n & H1 & H2 & H3). exists stk, n.
  rewrite (namei_same w w') by assumption. rewrite Hi. now repeat split.
Qed.

End Set_default.



(** ** The default that is set is the default that is read *)

Section Round_trip.

Lemma home_mkdir p mode w : home (snd (Fs.mkdir p mode w)) = home w.
Proof.
  destruct (Fs.mkdir p mode w) as [[] w'] eqn:E; cbn [snd].
  - now apply mkdir_true in E as (stk & name & _ & ->).
  - now apply mkdir_false in E as [e ->].
Qed.

Lemma home_fopen_w p w : home (snd (Fs.fopen_w p w)) = home w.
Proof.
  destruct (Fs.fopen_w p w) as [[f|] w'] eqn:E; cbn [snd].
  - now apply fopen_w_some in E as ((t1 & -> & _) & _).
  - now apply fopen_w_none in E as [e ->].
Qed.

Lemma home_write f buf w : home (snd (Fs.write f buf w)) = home w.
Proof.
  unfold Fs.write.
  destruct (inodes w !! f) as [[own perm data| | |]|]; try reflexivity.
  now destruct (_ <? _).
Qed.

Lemma home_ensure_config_dir_exists cfg w :
  home (ensure_config_dir_exists cfg w) = home w.
Proof.
  unfold ensure_config_dir_exists, eprint, perror, random_delay.
  pose proof (home_mkdir (dirname cfg) (octal "755")
                (emit (Stderr (GRAY +++ "[DEBUG] Ensuring config directory exists: "
                                    +++ dirname cfg +++ NL +++ RESET)) w)) as H.
  destruct (Fs.mkdir _ _ _) as [[] w1]; cbn [snd] in H; [exact H|].
  destruct (negb _); exact H.
Qed.

Lemma home_store cfg c w : home (store cfg c w) = home w.
Proof.
  rewrite store_unfold.
  pose proof (home_fopen_w cfg w) as H.
  destruct (Fs.fopen_w cfg w) as [[f|] w3]; cbn [snd] in H; [|exact H].
  rewrite <- H. apply (home_write f c w3).
Qed.

Lemma home_emit ev w : home (emit ev w) = home w.
Proof. reflexivity. Qed.

Lemma home_write_default_backup_dir c w :
  home (write_default_backup_dir c w) = home w.
Proof.
  rewrite write_default_backup_dir_unfold, home_store, home_emit.
  apply home_ensure_config_dir_exists.
Qed.

Lemma config_path_home (w w' : world) :
  home w' = home w -> config_path_of w' = config_path_of w.
Proof. intros H. unfold config_path_of. now rewrite H. Qed.

Lemma found_inj (a b : Fs.stack) : Fs.Found a = Fs.Found b -> a = b.
Proof. now inversion 1. Qed.

Lemma main_t_snd (prog optarg c : string) (w : world) :
  fst (Fs.realpath optarg w) = Some c ->
  snd (main prog ["-t"; optarg] w)
  = emit (Stdout ("Updated default backup directory to: " +++ c +++ NL))
      (write_default_backup_dir c
         (emit (Stderr (GRAY +++ "[DEBUG] Updating default backup directory to: "
                             +++ c +++ NL +++ RESET))
            (emit (Stderr (GRAY +++ "[DEBUG] -t option provided with argument: "
                                +++ optarg +++ NL +++ RESET))
               (emit (Stderr (GRAY +++ "[DEBUG] Starting backup tool." +++ NL
                                   +++ RESET)) w)))).
Proof. intros Hr. now rewrite (main_t prog optarg c w Hr). Qed.

Lemma same_fs_emit_l ev (w w' : world) : same_fs (emit ev w) w' -> same_fs w w'.
Proof. intros H. exact H. Qed.

(** A process that finds the file holding [c] reads [c]. *)
Lemma holds_read (c : string) (w4 w5 w' : world) (f : nat) :
  nonempty c = true -> len c < PATH_MAX ->
  has LF c = false -> has NUL c = false ->
  holds (config_path_of w4) c w5 ->
  home w5 = home w4 ->
  same_fs w5 w' ->
  fst (Fs.fopen_r (config_path_of w') w') = Some f ->
  (exists own perm data, inodes w' !! f = Some (IReg own perm data)) ->
  fst (read_default_backup_dir w') = c.
Proof.
  intros Hne Hlen Hlf Hnul (stk & n & Hn & Hi & Hdata) Hh5
         (Hi' & _ & Hc' & Hh' & _) Hopen (own & perm & data & Hf).
  assert (Hp : config_path_of w' = config_path_of w4)
    by (apply config_path_home; congruence).
  destruct (fopen_r_found _ _ _ Hopen) as (_ & stk' & Hn' & Ht').
  rewrite Hp, (namei_same w5 w') in Hn' by assumption.
  rewrite Hn in Hn'. apply found_inj in Hn'. subst stk'.
  rewrite Hi', <- Ht', Hi in Hf. inversion Hf; subst n. subst data.
  apply (read_default_backup_dir_line w' f c EmptyString); try assumption.
  - unfold Fs.contents. now rewrite Hi', <- Ht', Hi, sapp_empty_r.
  - now rewrite sapp_empty_r.
  - now left.
Qed.

End Round_trip.

(** C4, as the program has it.  After [prog -t optarg], with [optarg]
    resolving to the path [c] that has no newline in it, a later
    process that finds the machine as this run left it reads [c] as
    the default -- provided the run did not report that the file could
    not be written, the device had room for [c], and the configuration
    file is then a regular file that can be opened for reading. *)
Theorem default_round_trip (prog optarg c : string) (w w' : world) (f : nat) :
  fst (Fs.realpath optarg w) = Some c ->
  has LF c = false -> has NUL c = false -> len c <= space w ->
  (forall k, log (snd (main prog ["-t"; optarg] w)) = log w ++ k ->
             ~ update_failed k) ->
  same_fs (snd (main prog ["-t"; optarg] w)) w' ->
  fst (Fs.fopen_r (config_path_of w') w') = Some f ->
  (exists own perm data, inodes w' !! f = Some (IReg own perm data)) ->
  fst (read_default_backup_dir w') = c.
Proof.
  intros Hr Hlf Hnul Hroom Hok Hsame Hopen (own & perm & data & Hf).
  assert (Hc : nonempty c = true /\ len c < PATH_MAX).
  { destruct (Fs.realpath optarg w) as [rc w0] eqn:Er. cbn [fst] in Hr.
    subst rc. now apply realpath_some in Er as (_ & Hne & Hlen). }
  destruct Hc as [Hne Hlen].
  rewrite (main_t_snd prog optarg c w Hr) in Hok, Hsame.
  remember (emit (Stderr (GRAY +++ "[DEBUG] Updating default backup directory to: "
                               +++ c +++ NL +++ RESET))
              (emit (Stderr (GRAY +++ "[DEBUG] -t option provided with argument: "
                                  +++ optarg +++ NL +++ RESET))
                 (emit (Stderr (GRAY +++ "[DEBUG] Starting backup tool." +++ NL
                                     +++ RESET)) w))) as w4 eqn:E4.
  assert (Hs4 : space w4 = space w) by (now rewrite E4).
  assert (Hl4 : exists k4, log w4 = log w ++ k4).
  { rewrite E4, !log_emit, <- !List.app_assoc. eauto. }
  clear E4. destruct Hl4 as [k4 Hl4].
  destruct (write_default_backup_dir_effect c w4) as (_ & _ & k & Hk & Hres).
  pose proof (home_write_default_backup_dir c w4) as Hh5.
  remember (write_default_backup_dir c w4) as w5 eqn:E5. clear E5.
  apply same_fs_emit_l in Hsame.
  destruct Hres as [(e & Hin)|Hholds].
  - exfalso. apply (Hok (k4 ++ k ++ [Stdout ("Updated default backup directory to: "
                                               +++ c +++ NL)])).
    + rewrite log_emit, Hk, Hl4, <- !List.app_assoc. reflexivity.
    + exists e. apply List.in_app_iff. right. apply List.in_app_iff. now left.
  - apply (holds_read c w4 w5 w' f); try assumption.
    + apply Hholds. lia.
    + now exists own, perm, data.
Qed.

(** The default set on the sample machine is read back. *)
Lemma default_round_trip_witness :
  fst (read_default_backup_dir
         (restart (snd (main "backup" ["-t"; "/media/pi"] Sample.w0))))
  = "/media/pi".
Proof.
  apply (default_round_trip "backup" "/media/pi" "/media/pi" Sample.w0 _ 15).
  - reflexivity.
  - reflexivity.
  - reflexivity.
  - vm_compute. lia.
  - intros k Hk (e & Hin). vm_compute in Hk.
    apply (f_equal (fun l => List.length l)) in Hk as Hlen.
    repeat (destruct k as [|? k]; [discriminate Hlen|]).
    destruct k; [|discriminate Hlen].
    inversion Hk; subst. simpl in Hin.
    repeat (destruct Hin as [Hin|Hin]; [discriminate Hin|]). exact Hin.
  - vm_compute. repeat split.
  - vm_compute. reflexivity.
  - vm_compute. eauto.
Defined.

(** C4, as stated, fails: [/media/pi/two\nlines] is a directory of the
    sample machine and its own canonical path; set as the default, it
    is read back as [/media/pi/two]. *)
Lemma newline_path_not_read_back :
  let p := "/media/pi/two" +++ NL +++ "lines" in
  fst (Fs.realpath p Sample.w0) = Some p
  /\ fst (main "backup" ["-t"; p] Sample.w0) = Done 0%Z
  /\ fst (read_default_backup_dir
            (restart (snd (main "backup" ["-t"; p] Sample.w0))))
     = "/media/pi/two"
  /\ "/media/pi/two" <> p.
Proof. vm_compute. repeat split. discriminate. Qed.
(** ** copy_file: the destination *)

Section Copy_file_edges.

Lemma take_take (n m : nat) (s : string) :
  n <= m -> take n (take m s) = take n s.
Proof.
  revert m s. induction n as [|n IH]; intros m s H; [reflexivity|].
  destruct m as [|m]; [lia|]. destruct s as [|c r]; [reflexivity|].
  simpl. f_equal. apply IH. lia.
Qed.

Lemma take_add (n k : nat) (s : string) :
  take (n + k) s = take n s +++ take k (drop n s).
Proof.
  revert s. induction n as [|n IH]; intros s; [reflexivity|].
  destruct s as [|c r]; simpl.
  - now destruct k.
  - f_equal. apply IH.
Qed.

Lemma inodes_set_inodes t (w : world) : inodes (set_inodes t w) = t.
Proof. reflexivity. Qed.

Lemma space_emit ev (w : world) : space (emit ev w) = space w.
Proof. reflexivity. Qed.

Lemma space_set_inodes t (w : world) : space (set_inodes t w) = space w.
Proof. reflexivity. Qed.

Lemma cwd_emit ev (w : world) : cwd (emit ev w) = cwd w.
Proof. reflexivity. Qed.

Lemma cwd_set_inodes t (w : world) : cwd (set_inodes t w) = cwd w.
Proof. reflexivity. Qed.

Lemma umask_emit ev (w : world) : umask (emit ev w) = umask w.
Proof. reflexivity. Qed.

Lemma umask_set_inodes t (w : world) : umask (set_inodes t w) = umask w.
Proof. reflexivity. Qed.

Lemma take_zero (s : string) : take 0 s = EmptyString.
Proof. reflexivity. Qed.

(** What the loop leaves, with or without room on the device: the
    destination has grown by as much of the rest of the source as the
    device took. *)
Lemma copy_loop_prefix (src dest : string) (s d : nat) os ps data od pd :
  s <> d ->
  forall fuel off w acc,
    inodes w !! s = Some (IReg os ps data) ->
    inodes w !! d = Some (IReg od pd acc) ->
    len data - off < fuel ->
    let n := Nat.min (len data - off) (space w) in
    let w' := copy_loop fuel src dest s d off w in
    inodes w' = <[d := IReg od pd (acc +++ take n (drop off data))]> (inodes w)
    /\ space w' = space w - n /\ cwd w' = cwd w
    /\ (space w < len data - off ->
        In (Stderr (RED +++ "   [ERROR] Write error occurred while copying file: "
                        +++ src +++ " -> " +++ dest +++ NL +++ RESET)) (log w')).
Proof.
  intros Hsd. induction fuel as [|fuel IH]; intros off w acc Hs Hd Hf; [lia|].
  cbv zeta. cbn [copy_loop]. unfold fread, Fs.contents. rewrite Hs.
  set (buffer := take BUFSIZE (drop off data)).
  assert (Hb : len buffer = Nat.min BUFSIZE (len data - off)).
  { unfold buffer. now rewrite len_take, len_drop. }
  destruct (Nat.eqb_spec (len buffer) 0) as [Hz|Hnz].
  - assert (Hend : len data - off = 0) by (unfold BUFSIZE in Hb; lia).
    rewrite Hend. simpl Nat.min. rewrite take_zero, sapp_empty_r.
    rewrite list_insert_id by assumption.
    repeat split; try lia. 
  - unfold Fs.write. rewrite Hd.
    set (k := Nat.min (len buffer) (space w)).
    destruct (Nat.eqb_spec k (len buffer)) as [Hk|Hk].
    + (* the whole buffer was written *)
      assert (Hlt : (k <? len buffer) = false) by (apply Nat.ltb_ge; lia).
      rewrite Hlt. rewrite Hk. rewrite (take_all (len buffer) buffer) by lia.
      apply lookup_lt_Some in Hd as Hlen.
      match goal with
      | |- context [copy_loop fuel src dest s d (off + len buffer) ?x] =>
          set (w1 := x)
      end.
      destruct (IH (off + len buffer) w1 (acc +++ buffer)) as (Hi & Hsp & Hc & Hl).
      * unfold w1; simpl. now rewrite list_lookup_insert_ne by congruence.
      * unfold w1; simpl. now apply list_lookup_insert_eq.
      * unfold BUFSIZE in Hb. lia.
      * change (space w1) with (space w - len buffer) in Hi, Hsp, Hl.
        change (inodes w1) with (<[d := IReg od pd (acc +++ buffer)]> (inodes w)) in Hi.
        change (cwd w1) with (cwd w) in Hc.
        assert (Hsw : len buffer <= space w) by (unfold k in Hk; lia).
        assert (Hbd : len buffer <= len data - off) by lia.
        assert (Hn : Nat.min (len data - off) (space w)
                     = len buffer
                       + Nat.min (len data - (off + len buffer))
                                 (space w - len buffer)) by lia.
        rewrite Hn. repeat split.
        -- rewrite Hi, list_insert_insert_eq. do 2 f_equal.
           rewrite sapp_assoc. f_equal.
           rewrite take_add. f_equal.
           ++ rewrite <- (take_take (len buffer) BUFSIZE)
                by (unfold BUFSIZE in *; lia).
              fold buffer. symmetry. apply take_all. lia.
           ++ now rewrite drop_drop.
        -- rewrite Hsp. lia.
        -- exact Hc.
        -- intros Hshort. apply Hl. lia.
    + (* the device took less *)
      assert (Hlt : (k <? len buffer) = true) by (apply Nat.ltb_lt; unfold k in *; lia).
      rewrite Hlt.
      assert (Hks : k = space w) by (unfold k in *; lia).
      assert (Hn : Nat.min (len data - off) (space w) = space w)
        by (unfold k in *; lia).
      rewrite Hn, Hks. unfold eprint, random_delay, perror.
      repeat split.
      * simpl. do 3 f_equal. unfold buffer. apply take_take.
        unfold BUFSIZE in *. unfold k in *. lia.
      * intros _. simpl. apply List.in_app_iff. right. now left.
Qed.

End Copy_file_edges.

(** X1.  When the source has been opened but the destination cannot be
    opened for writing, [copy_file] reports it and returns: no inode
    and no byte of the device has changed. *)
Theorem copy_file_destination_unopened (src dest : string) (w : world) (s : nat) :
  fst (Fs.fopen_r src w) = Some s ->
  fst (Fs.fopen_w dest w) = None ->
  inodes (copy_file src dest w) = inodes w
  /\ space (copy_file src dest w) = space w
  /\ exists e,
      log (copy_file src dest w)
      = log w ++ [Stderr (GRAY +++ "   [INFO] Opened source file: " +++ src
                            +++ NL +++ RESET);
                  Perror (RED +++ "Failed to open destination file" +++ RESET) e;
                  Stderr (RED +++ "   [ERROR] Could not open destination file: "
                              +++ dest +++ NL +++ RESET)].
Proof.
  intros Hr Hw. unfold copy_file.
  destruct (fopen_r_found _ _ _ Hr) as (-> & _).
  unfold eprint, random_delay, perror. rewrite fopen_w_emit.
  destruct (Fs.fopen_w dest w) as [r w1] eqn:Ew. cbn [fst] in Hw. subst r.
  apply fopen_w_none in Ew as [e ->]. cbn [fst snd].
  split; [reflexivity|]. split; [reflexivity|].
  exists e. rewrite !log_emit, <- !List.app_assoc. reflexivity.
Qed.

(** Copying [docs/a.txt] onto the directory [/media/pi/piBackup]. *)
Lemma copy_file_destination_unopened_witness :
  inodes (copy_file "docs/a.txt" "/media/pi/piBackup" Sample.w0)
  = inodes Sample.w0.
Proof.
  apply (copy_file_destination_unopened "docs/a.txt" "/media/pi/piBackup"
           Sample.w0 4).
  - reflexivity.
  - reflexivity.
Defined.



Lemma copy_loop_empty (src dest : string) (s d fuel off : nat) (w : world) :
  Fs.contents s w = EmptyString ->
  copy_loop (S fuel) src dest s d off w = w.
Proof.
  intros H. cbn [copy_loop]. unfold fread. rewrite H.
  now destruct off.
Qed.



(** ** read_default_backup_dir: empty files and bounds *)

Section Read_default_edges.

Lemma len_line (k : nat) (data : string) : len (line k data) <= k.
Proof.
  unfold len. revert data.
  induction k as [|k IH]; intros [|c r]; cbn [line String.length]; try lia.
  destruct (Ascii.eqb c LF); cbn [String.length]; [lia|].
  specialize (IH r). lia.
Qed.

Lemma len_take_le (n : nat) (s : string) : len (take n s) <= len s.
Proof. rewrite len_take. lia. Qed.

Lemma has_take_strcspn (c : ascii) (s : string) :
  has c (take (strcspn c s) s) = false.
Proof.
  induction s as [|a r IH]; [reflexivity|]. simpl.
  destruct (Ascii.eqb a c) eqn:E; [reflexivity|]. simpl. now rewrite E, IH.
Qed.

Lemma stripped_bounds (got : string) :
  len (stripped got) <= len got /\ has LF (stripped got) = false
  /\ has NUL (stripped got) = false.
Proof.
  unfold stripped, c_str. split; [|split].
  - etransitivity; [apply len_take_le|apply len_take_le].
  - apply has_take_strcspn.
  - apply has_take. apply has_take_strcspn.
Qed.

Lemma fopen_r_emit_full (p : string) (ev : event) (w : world) :
  Fs.fopen_r p (emit ev w)
  = (fst (Fs.fopen_r p w), emit ev (snd (Fs.fopen_r p w))).
Proof.
  unfold Fs.fopen_r.
  change (Fs.namei (emit ev w) true p) with (Fs.namei w true p).
  change (inodes (emit ev w)) with (inodes w).
  destruct (Fs.namei w true p); try reflexivity.
  destruct (inodes w !! Fs.top stk); try reflexivity.
  now destruct (Fs.may_inode Fs.R i).
Qed.

End Read_default_edges.

(** X4.  A configuration file that can be opened but holds nothing --
    an empty file, or a directory under that name -- gives the built-in
    default with the same warning as a missing file: [fgets] returns
    [NULL]. *)
Theorem read_default_backup_dir_empty (w : world) (f : nat) :
  fst (Fs.fopen_r (config_path_of w) w) = Some f ->
  (exists own perm, inodes w !! f = Some (IReg own perm EmptyString))
  \/ (exists own perm ents, inodes w !! f = Some (IDir own perm ents)) ->
  fst (read_default_backup_dir w) = DEFAULT_TARGET_DIR
  /\ inodes (snd (read_default_backup_dir w)) = inodes w
  /\ log (snd (read_default_backup_dir w))
     = log w
         ++ [Stderr (GRAY +++ "[DEBUG] Reading config file: "
                       +++ config_path_of w +++ NL +++ RESET);
             Stderr (YELLOW +++ "   [WARNING] Config file not found or empty. Using default target directory."
                       +++ NL +++ RESET)].
Proof.
  intros Hopen Hempty.
  unfold read_default_backup_dir, random_delay, eprint.
  rewrite fopen_r_emit_full.
  destruct (fopen_r_found _ _ _ Hopen) as (-> & _). cbn [fst snd].
  assert (Hc : Fs.contents f w = EmptyString).
  { unfold Fs.contents.
    destruct Hempty as [(own & perm & ->)|(own & perm & ents & ->)]; reflexivity. }
  unfold Fs.contents in *. rewrite inodes_emit, Hc.
  cbn [fgets nonempty fst snd]. repeat split.
  rewrite !log_emit, <- List.app_assoc. reflexivity.
Qed.

(** X5.  Whatever the configuration file holds, the path
    [read_default_backup_dir] returns fits the [PATH_MAX] bytes of
    [target_dir] with its terminator and has no newline in it; the
    call changes nothing in the file system. *)
Theorem read_default_backup_dir_bounds (w : world) :
  len (fst (read_default_backup_dir w)) < PATH_MAX
  /\ has LF (fst (read_default_backup_dir w)) = false
  /\ has NUL (fst (read_default_backup_dir w)) = false
  /\ inodes (snd (read_default_backup_dir w)) = inodes w
  /\ space (snd (read_default_backup_dir w)) = space w.
Proof.
  unfold read_default_backup_dir, random_delay, eprint.
  rewrite fopen_r_emit_full.
  destruct (Fs.fopen_r (config_path_of w) w) as [[f|] w1] eqn:E; cbn [fst snd].
  - apply fopen_r_some in E as ->.
    unfold fgets. destruct (nonempty (Fs.contents f _)); cbn [fst snd].
    + destruct (stripped_bounds (line (PATH_MAX - 1) (Fs.contents f
                  (emit (Stderr (GRAY +++ "[DEBUG] Reading config file: "
                                      +++ config_path_of w +++ NL +++ RESET)) w))))
        as (H1 & H2 & H3).
      pose proof (len_line (PATH_MAX - 1) (Fs.contents f
                  (emit (Stderr (GRAY +++ "[DEBUG] Reading config file: "
                                      +++ config_path_of w +++ NL +++ RESET)) w))) as H4.
      repeat split; try assumption. unfold PATH_MAX in *. lia.
    + repeat split. unfold PATH_MAX. simpl. lia.
  - apply fopen_r_none in E as [e ->]. repeat split.
    unfold PATH_MAX. simpl. lia.
Qed.

(** The configuration file that [-t] leaves on a full device is
    empty. *)
Lemma read_default_backup_dir_empty_witness :
  fst (read_default_backup_dir
         (restart (snd (main "backup" ["-t"; "/media/pi"]
                             (set_space 0 Sample.w0)))))
  = DEFAULT_TARGET_DIR.
Proof.
  apply (read_default_backup_dir_empty
           (restart (snd (main "backup" ["-t"; "/media/pi"]
                               (set_space 0 Sample.w0)))) 15).
  - vm_compute. reflexivity.
  - left. vm_compute. eauto.
Defined.

(** ** ensure_config_dir_exists *)

Section Ensure.

Lemma length_created d name n t : length (created d name n t) = S (length t).
Proof. unfold created. rewrite length_app, length_link_in. simpl. lia. Qed.

Lemma mkdir_same (w w' : world) p mode :
  inodes w' = inodes w -> cwd w' = cwd w ->
  fst (Fs.mkdir p mode w) = false -> fst (Fs.mkdir p mode w') = false.
Proof.
  intros Hi Hc. unfold Fs.mkdir, Fs.create.
  rewrite (namei_same w w') by assumption. rewrite Hi.
  destruct (Fs.namei w false p) as [stk|stk name| |]; try reflexivity.
  destruct (inodes w !! Fs.top stk) as [[|own perm ents| |]|]; try reflexivity.
  now destruct (Fs.may Fs.W own perm).
Qed.

(** When [mkdir] fails, whatever the reason, nothing changes. *)
Lemma ensure_config_dir_exists_failed (cfg : string) (w : world) :
  fst (Fs.mkdir (dirname cfg) (octal "755") w) = false ->
  inodes (ensure_config_dir_exists cfg w) = inodes w
  /\ cwd (ensure_config_dir_exists cfg w) = cwd w.
Proof.
  intros H. unfold ensure_config_dir_exists, eprint, perror, random_delay.
  rewrite mkdir_emit.
  destruct (Fs.mkdir (dirname cfg) (octal "755") w) as [[] w1] eqn:Em;
    [discriminate|]. cbn [fst snd].
  apply mkdir_false in Em as [e ->].
  now destruct (negb _).
Qed.

Lemma ensure_config_dir_exists_found (cfg : string) (w : world) stk :
  Fs.namei w false (dirname cfg) = Fs.Found stk ->
  inodes (ensure_config_dir_exists cfg w) = inodes w
  /\ log (ensure_config_dir_exists cfg w)
     = log w ++ [Stderr (GRAY +++ "[DEBUG] Ensuring config directory exists: "
                              +++ dirname cfg +++ NL +++ RESET);
                 Stderr (GRAY +++ "[DEBUG] Config directory already exists." +++ NL
                              +++ RESET)].
Proof.
  intros H. unfold ensure_config_dir_exists, eprint, perror, random_delay.
  rewrite mkdir_emit, (mkdir_exists _ _ w stk H). cbn [fst snd].
  cbn [errno emit set_errno errno_eqb negb]. split; [reflexivity|].
  rewrite !log_emit, <- List.app_assoc. reflexivity.
Qed.

Lemma ensure_config_dir_exists_made (cfg : string) (w : world) :
  fst (Fs.mkdir (dirname cfg) (octal "755") w) = true ->
  exists stk,
    Fs.namei (ensure_config_dir_exists cfg w) false (dirname cfg) = Fs.Found stk.
Proof.
  intros H. unfold ensure_config_dir_exists, eprint, perror, random_delay.
  rewrite mkdir_emit.
  destruct (Fs.mkdir (dirname cfg) (octal "755") w) as [[] w1] eqn:Em;
    [|discriminate]. cbn [fst snd].
  apply mkdir_true in Em as (stk & name & Hn & ->).
  destruct (namei_absent_dir _ _ _ _ _ Hn) as (own & perm & ents & Hd & Hnone).
  exists ((name, length (inodes w)) :: stk).
  apply (namei_absent_grows w _ false (dirname cfg) stk name
           (length (inodes w)) own perm
           (ents ++ [(name, length (inodes w))])
           (IDir true (Fs.masked (octal "755") w) [])).
  - apply grows_created.
  - reflexivity.
  - exact Hn.
  - now apply created_dir.
  - now apply assoc_app_none.
  - apply created_new.
  - reflexivity.
Qed.

End Ensure.

(** X6.  [ensure_config_dir_exists] makes at most one directory, the
    last component of the directory part of [config_path], and calling
    it again changes nothing.  When that name is taken -- by a
    directory or by anything else -- [mkdir] fails with [EEXIST], which
    is not reported as an error: nothing changes and the two [DEBUG]
    lines are all that is written. *)
Theorem ensure_config_dir_exists_again (config_path : string) (w : world) :
  length (inodes (ensure_config_dir_exists config_path w))
  <= S (length (inodes w))
  /\ inodes (ensure_config_dir_exists config_path
               (ensure_config_dir_exists config_path w))
     = inodes (ensure_config_dir_exists config_path w)
  /\ (forall stk,
        Fs.namei w false (dirname config_path) = Fs.Found stk ->
        inodes (ensure_config_dir_exists config_path w) = inodes w
        /\ log (ensure_config_dir_exists config_path w)
           = log w ++ [Stderr (GRAY +++ "[DEBUG] Ensuring config directory exists: "
                                    +++ dirname config_path +++ NL +++ RESET);
                       Stderr (GRAY +++ "[DEBUG] Config directory already exists."
                                    +++ NL +++ RESET)]).
Proof.
  split; [|split].
  - destruct (ensure_config_dir_exists_effect config_path w)
      as (_ & _ & _ & _ & [->|(stk & name & _ & -> & _)]).
    + lia.
    + rewrite length_created. lia.
  - destruct (Fs.mkdir (dirname config_path) (octal "755") w) as [made w1] eqn:Em.
    destruct made.
    + destruct (ensure_config_dir_exists_made config_path w) as [stk Hfound].
      { now rewrite Em. }
      remember (ensure_config_dir_exists config_path w) as w2 eqn:E2. clear E2.
      now apply (ensure_config_dir_exists_found config_path w2) in Hfound.
    + destruct (ensure_config_dir_exists_failed config_path w) as [Hi Hc].
      { now rewrite Em. }
      remember (ensure_config_dir_exists config_path w) as w2 eqn:E2. clear E2.
      apply (ensure_config_dir_exists_failed config_path w2).
      apply (mkdir_same w w2); try assumption. now rewrite Em.
  - intros stk. apply ensure_config_dir_exists_found.
Qed.

(** [/media/pi/piBackup] is there. *)
Lemma ensure_config_dir_exists_again_witness :
  inodes (ensure_config_dir_exists "/media/pi/piBackup/tool.conf" Sample.w0)
  = inodes Sample.w0.
Proof.
  destruct (proj2 (proj2 (ensure_config_dir_exists_again
                            "/media/pi/piBackup/tool.conf" Sample.w0))
                  [("piBackup", 11); ("pi", 10); ("media", 9)]) as [H _].
  - reflexivity.
  - exact H.
Defined.

(** ** main: options and operands *)

Section Operands.

(** An argument that does not begin with [-] is an operand: [getopt]
    passes over it. *)
Lemma option_loop_skip prog a rest target_dir update_default operands w :
  starts_with "-" a = false ->
  option_loop prog (a :: rest) target_dir update_default operands w
  = option_loop prog rest target_dir update_default (a :: operands) w.
Proof.
  intros H. destruct a as [|c r]; [reflexivity|].
  simpl in H. cbn [option_loop].
  destruct (Ascii.eqb_spec c "-") as [->|Hne]; [discriminate|].
  assert (E : String.eqb (String c r) "--" = false).
  { apply String.eqb_neq. intros E. inversion E. contradiction. }
  rewrite E.
  destruct c as [[] [] [] [] [] [] [] []]; try reflexivity.
  now contradiction Hne.
Qed.

Lemma option_loop_operands prog (pre rest : list string) :
  Forall (fun a => starts_with "-" a = false) pre ->
  forall target_dir update_default operands w,
    option_loop prog (pre ++ rest) target_dir update_default operands w
    = option_loop prog rest target_dir update_default (rev pre ++ operands) w.
Proof.
  induction 1 as [|a pre Ha _ IH]; intros; [reflexivity|].
  cbn [app]. rewrite option_loop_skip by assumption. rewrite IH.
  cbn [rev]. now rewrite <- List.app_assoc.
Qed.

(** An option other than [-t]. *)
Lemma option_loop_unknown prog c more rest target_dir update_default operands w :
  c <> "t"%char -> String "-" (String c more) <> "--" ->
  option_loop prog (String "-" (String c more) :: rest) target_dir update_default
              operands w
  = invalid_usage prog
      (eprint (prog +++ ": invalid option -- '" +++ String c EmptyString
                    +++ "'" +++ NL) w).
Proof.
  intros Hc Hdd. cbn [option_loop].
  rewrite (proj2 (String.eqb_neq _ _) Hdd).
  destruct (Ascii.eqb_spec c "t") as [->|_]; [contradiction|]. reflexivity.
Qed.

(** [main] with a single operand, up to the test of the source
    directory. *)
Lemma main_operand (prog source : string) (w : world) :
  starts_with "-" source = false -> len source < PATH_MAX ->
  exists w4 k,
    same_fs w w4
    /\ log w4
       = log w
           ++ [Stderr (GRAY +++ "[DEBUG] Starting backup tool." +++ NL +++ RESET);
               Stderr (GRAY +++ "[DEBUG] Reading default backup directory." +++ NL
                            +++ RESET)]
           ++ k
           ++ [Stderr (GRAY +++ "[DEBUG] Validating source directory: "
                         +++ source +++ NL +++ RESET)]
    /\ main prog [source] w
       = match Fs.stat source w4 with
         | (Some st_mode, w5) =>
             if Fs.S_ISDIR st_mode
             then backup source (fst (read_default_backup_dir w)) w5
             else (Exit EXIT_FAILURE,
                   perror (RED +++ "Invalid source directory" +++ RESET) w5)
         | (None, w5) =>
             (Exit EXIT_FAILURE,
              perror (RED +++ "Invalid source directory" +++ RESET) w5)
         end.
Proof.
  intros Hop Hlen.
  unfold main. rewrite (option_loop_operand _ _ _ _ _ Hop). cbv iota beta.
  unfold eprint, random_delay.
  set (w2 := emit _ (emit _ w)).
  assert (H2 : same_fs w w2) by (eapply same_fs_trans; apply same_fs_emit).
  assert (L2 : log w2
               = log w ++ [Stderr (GRAY +++ "[DEBUG] Starting backup tool." +++ NL
                                        +++ RESET);
                           Stderr (GRAY +++ "[DEBUG] Reading default backup directory."
                                        +++ NL +++ RESET)]).
  { unfold w2. rewrite !log_emit, <- List.app_assoc. reflexivity. }
  clearbody w2.
  pose proof (read_default_backup_dir_same_fs w2) as Hs3.
  pose proof (read_default_backup_dir_later w2) as [k Hk].
  pose proof (same_fs_read_default_backup_dir w w2 H2) as Ht.
  destruct (read_default_backup_dir w2) as [target' w3].
  cbn [fst snd] in Hs3, Hk, Ht. subst target'.
  destruct (Nat.leb_spec PATH_MAX (len source)) as [|_]; [lia|].
  exists (emit (Stderr (GRAY +++ "[DEBUG] Validating source directory: "
                             +++ source +++ NL +++ RESET)) w3), k.
  split; [|split].
  - eapply same_fs_trans; [exact H2|].
    eapply same_fs_trans; [exact Hs3 | apply same_fs_emit].
  - rewrite log_emit, Hk, L2, <- !List.app_assoc. reflexivity.
  - reflexivity.
Qed.

(** [create_timestamped_dir] returns a path or exits. *)
Lemma create_timestamped_dir_outcome base w :
  (exists b, fst (create_timestamped_dir base w) = Done b)
  \/ fst (create_timestamped_dir base w) = Exit EXIT_FAILURE.
Proof.
  unfold create_timestamped_dir. destruct (localtime w); [|now right].
  destruct (Strftime.strftime 30 t); [|now right].
  destruct (PATH_MAX <=? _); [now right | left; eauto].
Qed.

Lemma backup_no_overrun source target w :
  fst (backup source target w) <> Overrun.
Proof.
  unfold backup, eprint, random_delay.
  destruct (create_timestamped_dir_outcome target
              (emit (Stderr (GRAY +++ "[DEBUG] Creating timestamped backup directory in: "
                                  +++ target +++ NL +++ RESET)) w)) as [[b H]|H];
    destruct (create_timestamped_dir _ _) as [r w1]; cbn [fst] in H; subst r.
  - destruct (Fs.mkdir b (octal "755") w1) as [[] w2]; [|discriminate].
    destruct (copy_directory _ _ _); discriminate.
  - discriminate.
Qed.

End Operands.

(** X7.  The operand is copied into [source_dir] with [strcpy], without
    a look at its length: an operand of [PATH_MAX] characters or more
    overruns the buffer, and that is the only way [main] overruns one;
    nothing has been written to the file system by then. *)
Theorem main_operand_overrun (prog operand : string) (w : world) :
  starts_with "-" operand = false ->
  (fst (main prog [operand] w) = Overrun <-> PATH_MAX <= len operand)
  /\ (PATH_MAX <= len operand -> inodes (snd (main prog [operand] w)) = inodes w).
Proof.
  intros Hop. split; [split|].
  - intros Hover.
    destruct (Nat.le_gt_cases PATH_MAX (len operand)) as [|Hlt]; [assumption|].
    exfalso.
    destruct (main_operand prog operand w Hop Hlt) as (w4 & k & _ & _ & E).
    rewrite E in Hover. clear E.
    destruct (Fs.stat operand w4) as [[m|] w5]; [|discriminate].
    destruct (Fs.S_ISDIR m); [|discriminate].
    now apply backup_no_overrun in Hover.
  - intros Hlen. unfold main.
    rewrite (option_loop_operand _ _ _ _ _ Hop). cbv iota beta.
    destruct (read_default_backup_dir _) as [target w3].
    now rewrite (proj2 (Nat.leb_le _ _) Hlen).
  - intros Hlen. unfold main.
    rewrite (option_loop_operand _ _ _ _ _ Hop). cbv iota beta.
    unfold eprint, random_delay.
    set (w2 := emit _ (emit _ w)).
    assert (H2 : same_fs w w2) by (eapply same_fs_trans; apply same_fs_emit).
    clearbody w2.
    pose proof (read_default_backup_dir_same_fs w2) as Hs3.
    destruct (read_default_backup_dir w2) as [target w3]. cbn [snd] in Hs3.
    rewrite (proj2 (Nat.leb_le _ _) Hlen). cbn [snd].
    exact (proj1 (same_fs_trans _ _ _ H2 Hs3)).
Qed.

Lemma main_operand_overrun_witness :
  fst (main "backup" [Strftime.zeros PATH_MAX] Sample.w0) = Overrun.
Proof.
  apply (proj1 (main_operand_overrun "backup" (Strftime.zeros PATH_MAX)
                  Sample.w0 eq_refl)).
  vm_compute. lia.
Defined.

(** X8.  A source operand that is missing, or is no directory: the
    process exits with [EXIT_FAILURE] after [perror], before any
    directory is made. *)
Theorem main_invalid_source (prog source : string) (w : world) :
  starts_with "-" source = false -> len source < PATH_MAX ->
  (forall m, fst (Fs.stat source w) = Some m -> Fs.S_ISDIR m = false) ->
  let r := main prog [source] w in
  fst r = Exit EXIT_FAILURE /\ EXIT_FAILURE <> 0%Z
  /\ inodes (snd r) = inodes w
  /\ exists k e,
      log (snd r)
      = log w ++ k ++ [Perror (RED +++ "Invalid source directory" +++ RESET) e].
Proof.
  intros Hop Hlen Hbad. cbv zeta.
  destruct (main_operand prog source w Hop Hlen) as (w4 & k & H4 & L4 & ->).
  pose proof (same_fs_stat w w4 source H4) as Hst.
  pose proof (stat_same_fs source w4) as Hs5.
  pose proof (log_stat source w4) as L5.
  destruct (Fs.stat source w4) as [r w5]. cbn [fst snd] in Hst, Hs5, L5.
  assert (Hlog : log (perror (RED +++ "Invalid source directory" +++ RESET) w5)
                 = log w
                     ++ ([Stderr (GRAY +++ "[DEBUG] Starting backup tool." +++ NL
                                       +++ RESET);
                          Stderr (GRAY +++ "[DEBUG] Reading default backup directory."
                                       +++ NL +++ RESET)]
                           ++ k
                           ++ [Stderr (GRAY +++ "[DEBUG] Validating source directory: "
                                         +++ source +++ NL +++ RESET)])
                     ++ [Perror (RED +++ "Invalid source directory" +++ RESET)
                                (errno w5)]).
  { unfold perror. rewrite log_emit, L5, L4, <- !List.app_assoc. reflexivity. }
  assert (Hin : inodes (perror (RED +++ "Invalid source directory" +++ RESET) w5)
                = inodes w).
  { unfold perror. rewrite inodes_emit.
    exact (proj1 (same_fs_trans _ _ _ H4 Hs5)). }
  destruct r as [m|].
  - rewrite (Hbad m) by (now rewrite <- Hst). cbn [fst snd].
    repeat split; try discriminate; eauto.
  - cbn [fst snd]. repeat split; try discriminate; eauto.
Qed.

(** A regular file given as the source. *)
Lemma main_invalid_source_witness :
  fst (main "backup" ["docs/a.txt"] Sample.w0) = Exit EXIT_FAILURE.
Proof.
  apply (main_invalid_source "backup" "docs/a.txt" Sample.w0).
  - reflexivity.
  - vm_compute. lia.
  - intros m H. vm_compute in H. inversion H. reflexivity.
Defined.

Section Backup.

(** [main] with a source that is a directory, up to [mkdir]. *)
Lemma main_backup (prog source target b : string) (m : Z) (w : world) :
  starts_with "-" source = false -> len source < PATH_MAX ->
  fst (Fs.stat source w) = Some m -> Fs.S_ISDIR m = true ->
  fst (read_default_backup_dir w) = target ->
  fst (create_timestamped_dir target w) = Done b ->
  exists w6 k,
    same_fs w w6 /\ log w6 = log w ++ k
    /\ main prog [source] w
       = match Fs.mkdir b (octal "755") w6 with
         | (false, w) =>
             (Exit EXIT_FAILURE,
              perror (RED +++ "Failed to create backup directory" +++ RESET) w)
         | (true, w) =>
             let w := print ("Backing up '" +++ source +++ "' to '" +++ b
                               +++ "'" +++ NL) (random_delay w) in
             let w := eprint (GRAY +++ "[DEBUG] Starting backup process." +++ NL
                                   +++ RESET) (random_delay w) in
             match copy_directory source b w with
             | None => (Diverge, w)
             | Some w =>
                 let w := eprint (GRAY +++ "[DEBUG] Backup process completed successfully."
                                    +++ NL +++ RESET) (random_delay w) in
                 (Done 0%Z,
                  print ("Backup completed successfully!" +++ NL) (random_delay w))
             end
         end.
Proof.
  intros Hop Hlen Hstat Hdir Htarget Hstamp.
  destruct (main_operand prog source w Hop Hlen) as (w4 & k & H4 & L4 & ->).
  rewrite Htarget.
  pose proof (same_fs_stat w w4 source H4) as Hst.
  pose proof (stat_same_fs source w4) as Hs5.
  pose proof (log_stat source w4) as L5.
  destruct (Fs.stat source w4) as [r w5]. cbn [fst snd] in Hst, Hs5, L5.
  rewrite Hstat in Hst. subst r. rewrite Hdir.
  unfold backup.
  set (w6 := eprint (GRAY +++ "[DEBUG] Creating timestamped backup directory in: "
                       +++ target +++ NL +++ RESET) (random_delay w5)).
  assert (H6 : same_fs w w6).
  { eapply same_fs_trans; [exact H4|].
    eapply same_fs_trans; [exact Hs5 | apply same_fs_emit]. }
  assert (L6 : log w6 = log w5 ++ [Stderr (GRAY +++ "[DEBUG] Creating timestamped backup directory in: "
                                         +++ target +++ NL +++ RESET)])
    by apply log_emit.
  clearbody w6.
  pose proof (same_fs_create_timestamped_dir target w w6 H6) as Hc.
  rewrite Hstamp in Hc.
  pose proof (create_timestamped_dir_done target w6 b Hc) as L7.
  destruct (create_timestamped_dir target w6) as [r w7].
  cbn [fst snd] in Hc, L7. subst r w7.
  eexists w6, _. split; [exact H6|]. split; [|reflexivity].
  rewrite L6, L5, L4, <- !List.app_assoc. reflexivity.
Qed.

End Backup.

(** X9.  When the time-stamped directory cannot be made, for whatever
    reason -- the target directory is missing or read-only, the name is
    taken -- the process exits with [EXIT_FAILURE] after [perror], and
    the file system is as it was. *)
Theorem main_backup_dir_not_made (prog source target b : string) (m : Z)
        (w : world) :
  starts_with "-" source = false -> len source < PATH_MAX ->
  fst (Fs.stat source w) = Some m -> Fs.S_ISDIR m = true ->
  fst (read_default_backup_dir w) = target ->
  fst (create_timestamped_dir target w) = Done b ->
  fst (Fs.mkdir b (octal "755") w) = false ->
  let r := main prog [source] w in
  fst r = Exit EXIT_FAILURE /\ EXIT_FAILURE <> 0%Z
  /\ inodes (snd r) = inodes w
  /\ exists k e,
      log (snd r)
      = log w ++ k
          ++ [Perror (RED +++ "Failed to create backup directory" +++ RESET) e].
Proof.
  intros Hop Hlen Hstat Hdir Htarget Hstamp Hmk. cbv zeta.
  destruct (main_backup prog source target b m w Hop Hlen Hstat Hdir Htarget Hstamp)
    as (w6 & k & H6 & L6 & ->).
  pose proof (same_fs_mkdir w w6 b (octal "755") H6) as Hm.
  rewrite Hmk in Hm.
  destruct (Fs.mkdir b (octal "755") w6) as [made w7] eqn:Em.
  cbn [fst] in Hm. subst made.
  apply mkdir_false in Em as [e ->]. cbn [fst snd].
  repeat split; try discriminate.
  - unfold perror. rewrite inodes_emit, inodes_set_errno. exact (proj1 H6).
  - exists k, e. unfold perror. rewrite log_emit, log_set_errno, L6.
    now rewrite <- List.app_assoc.
Qed.

(** The backup disk is read-only. *)
Lemma main_backup_dir_not_made_witness :
  fst (main "backup" ["docs"]
            (set_inodes (<[11 := IDir true (octal "555") []]> Sample.fs) Sample.w0))
  = Exit EXIT_FAILURE.
Proof.
  apply (main_backup_dir_not_made "backup" "docs" "/media/pi/piBackup"
           "/media/pi/piBackup/Backup 2024-11-05 09-03-07"
           (Fs.st_mode (IDir true Sample.rwx []))
           (set_inodes (<[11 := IDir true (octal "555") []]> Sample.fs) Sample.w0)).
  - reflexivity.
  - vm_compute. lia.
  - vm_compute. reflexivity.
  - reflexivity.
  - vm_compute. reflexivity.
  - vm_compute. reflexivity.
  - vm_compute. reflexivity.
Defined.

Section Unreadable.

(** A directory that cannot be read is still one after a directory has
    been made somewhere. *)
Lemma opendir_unreadable (source : string) (w w' : world) stk own perm ents
      d name n :
  Fs.namei w true source = Fs.Found stk ->
  inodes w !! Fs.top stk = Some (IDir own perm ents) ->
  Fs.may Fs.R own perm = false ->
  inodes w' = created d name n (inodes w) -> cwd w' = cwd w ->
  Fs.opendir source w' = (None, set_errno EACCES w').
Proof.
  intros Hn Hi Hr Hi' Hc.
  assert (Hn' : Fs.namei w' true source = Fs.Found stk).
  { apply (namei_grows w w'); [|exact Hc|exact Hn].
    rewrite Hi'. apply grows_created. }
  assert (Hd : exists ents', inodes w' !! Fs.top stk = Some (IDir own perm ents')).
  { rewrite Hi'. destruct (grows_created d name n (inodes w) _ _ Hi)
      as (n' & Hn'' & Hg).
    destruct n' as [| own' perm' ents' | |]; try contradiction.
    destruct Hg as (-> & -> & _). eauto. }
  destruct Hd as [ents' Hd].
  unfold Fs.opendir. now rewrite Hn', Hd, Hr.
Qed.

End Unreadable.

(** X10.  A source directory that the user may not read passes the
    test of [main] -- [stat] needs no read permission -- and the
    backup directory is made; [copy_directory] then fails to open the
    source and returns, and [main] goes on to report success: it
    prints [Backup completed successfully!] and returns 0, the new
    directory being empty. *)
Theorem main_unreadable_source (prog source target b : string) (w : world)
        (stk : Fs.stack) own perm ents :
  starts_with "-" source = false -> len source < PATH_MAX ->
  Fs.namei w true source = Fs.Found stk ->
  inodes w !! Fs.top stk = Some (IDir own perm ents) ->
  Fs.may Fs.R own perm = false ->
  fst (read_default_backup_dir w) = target ->
  fst (create_timestamped_dir target w) = Done b ->
  fst (Fs.mkdir b (octal "755") w) = true ->
  let r := main prog [source] w in
  fst r = Done 0%Z
  /\ inodes (snd r) = inodes (snd (Fs.mkdir b (octal "755") w))
  /\ exists k,
      log (snd r)
      = log w ++ k
          ++ [Perror (RED +++ "Failed to open source directory" +++ RESET) EACCES;
              Stderr (RED +++ "   [ERROR] Could not open directory: " +++ source
                          +++ NL +++ RESET);
              Stderr (GRAY +++ "[DEBUG] Backup process completed successfully."
                           +++ NL +++ RESET);
              Stdout ("Backup completed successfully!" +++ NL)].
Proof.
  intros Hop Hlen Hn Hi Hr Htarget Hstamp Hmk. cbv zeta.
  destruct (main_backup prog source target b
              (Fs.st_mode (IDir own perm ents)) w Hop Hlen)
    as (w6 & k & H6 & L6 & ->); try assumption.
  { now rewrite (stat_found source w stk _ Hn Hi). }
  { now rewrite S_ISDIR_inode. }
  pose proof (same_fs_mkdir w w6 b (octal "755") H6) as Hm.
  rewrite Hmk in Hm.
  destruct (Fs.mkdir b (octal "755") w) as [made wm] eqn:Em0.
  cbn [fst] in Hmk. subst made. cbn [snd].
  apply mkdir_true in Em0 as (stk0 & name0 & Hn0 & ->).
  destruct (Fs.mkdir b (octal "755") w6) as [made w7] eqn:Em.
  cbn [fst] in Hm. subst made.
  apply mkdir_true in Em as (stkb & name & Hnb & ->).
  rewrite (same_fs_namei w w6 false b H6) in Hnb.
  rewrite Hn0 in Hnb. inversion Hnb; subst stkb name; clear Hnb.
  destruct H6 as (Hi6 & _ & Hc6 & _ & Hu6 & _).
  assert (Hmask : Fs.masked (octal "755") w6 = Fs.masked (octal "755") w).
  { unfold Fs.masked. now rewrite Hu6. }
  rewrite Hmask, Hi6. cbv zeta. unfold print, eprint, random_delay.
  set (w9 := emit _ (emit _ (set_inodes _ w6))).
  assert (Hi9 : inodes w9
                = created (Fs.top stk0) name0
                          (IDir true (Fs.masked (octal "755") w) []) (inodes w))
    by reflexivity.
  assert (Hc9 : cwd w9 = cwd w) by exact Hc6.
  assert (L9 : log w9
               = log w6
                   ++ [Stdout ("Backing up '" +++ source +++ "' to '" +++ b
                                 +++ "'" +++ NL);
                       Stderr (GRAY +++ "[DEBUG] Starting backup process." +++ NL
                                    +++ RESET)]).
  { unfold w9. rewrite !log_emit, log_set_inodes, <- List.app_assoc. reflexivity. }
  clearbody w9.
  pose proof (opendir_unreadable source w w9 stk own perm ents _ _ _
                Hn Hi Hr Hi9 Hc9) as Ho.
  unfold copy_directory. rewrite copy_directory_at_body.
  unfold copy_directory_body. rewrite Ho.
  unfold eprint, random_delay, perror. cbn [fst snd].
  split; [reflexivity|]. split.
  - rewrite !inodes_emit, inodes_set_errno. exact Hi9.
  - exists (k ++ [Stdout ("Backing up '" +++ source +++ "' to '" +++ b
                            +++ "'" +++ NL);
                  Stderr (GRAY +++ "[DEBUG] Starting backup process." +++ NL
                               +++ RESET)]).
    rewrite !log_emit, log_set_errno, L9, L6. cbn [errno set_errno].
    rewrite <- !List.app_assoc. reflexivity.
Qed.

(** [docs] without read permission. *)
Lemma main_unreadable_source_witness :
  fst (main "backup" ["docs"]
            (set_inodes (<[3 := IDir true (octal "300") [("a.txt", 4)]]> Sample.fs)
                        Sample.w0))
  = Done 0%Z.
Proof.
  apply (main_unreadable_source "backup" "docs" "/media/pi/piBackup"
           "/media/pi/piBackup/Backup 2024-11-05 09-03-07"
           (set_inodes (<[3 := IDir true (octal "300") [("a.txt", 4)]]> Sample.fs)
                       Sample.w0)
           [("docs", 3); ("pi", 2); ("home", 1)] true (octal "300") [("a.txt", 4)]).
  - reflexivity.
  - vm_compute. lia.
  - vm_compute. reflexivity.
  - reflexivity.
  - reflexivity.
  - vm_compute. reflexivity.
  - vm_compute. reflexivity.
  - vm_compute. reflexivity.
Defined.

(** X11.  An option other than [-t], wherever it stands among the
    operands, and [-t] without its argument end the run: [getopt]
    reports the option, the usage line is written, the process exits
    with [EXIT_FAILURE]; nothing has been read or written in the file
    system. *)
Theorem main_invalid_usage (prog : string) (pre rest : list string)
        (c : ascii) (more : string) (w : world) :
  Forall (fun a => starts_with "-" a = false) pre ->
  (c <> "t"%char /\ String "-" (String c more) <> "--" ->
   let r := main prog (pre ++ String "-" (String c more) :: rest) w in
   fst r = Exit EXIT_FAILURE /\ inodes (snd r) = inodes w
   /\ log (snd r)
      = log w
          ++ [Stderr (GRAY +++ "[DEBUG] Starting backup tool." +++ NL +++ RESET);
              Stderr (prog +++ ": invalid option -- '" +++ String c EmptyString
                           +++ "'" +++ NL);
              Stderr (RED +++ "   [ERROR] Invalid usage." +++ NL +++ RESET);
              Stderr (usage prog)])
  /\ (let r := main prog (pre ++ ["-t"]) w in
      fst r = Exit EXIT_FAILURE /\ inodes (snd r) = inodes w
      /\ log (snd r)
         = log w
             ++ [Stderr (GRAY +++ "[DEBUG] Starting backup tool." +++ NL +++ RESET);
                 Stderr (prog +++ ": option requires an argument -- 't'" +++ NL);
                 Stderr (RED +++ "   [ERROR] Invalid usage." +++ NL +++ RESET);
                 Stderr (usage prog)]).
Proof.
  intros Hpre. split.
  - intros [Hc Hdd]. cbv zeta. unfold main.
    rewrite (option_loop_operands prog pre _ Hpre).
    rewrite option_loop_unknown by assumption.
    unfold invalid_usage, eprint, random_delay. cbn [fst snd].
    split; [reflexivity|]. split; [reflexivity|].
    rewrite !log_emit, <- !List.app_assoc. reflexivity.
  - cbv zeta. unfold main.
    rewrite (option_loop_operands prog pre _ Hpre).
    cbn [option_loop String.eqb Ascii.eqb Bool.eqb].
    unfold invalid_usage, eprint, random_delay. cbn [fst snd].
    split; [reflexivity|]. split; [reflexivity|].
    rewrite !log_emit, <- !List.app_assoc. reflexivity.
Qed.

(** [backup docs -x]. *)
Lemma main_invalid_usage_witness :
  fst (main "backup" (["docs"] ++ ["-x"]) Sample.w0) = Exit EXIT_FAILURE.
Proof.
  apply (proj1 (main_invalid_usage "backup" ["docs"] [] "x" EmptyString Sample.w0
                  ltac:(repeat constructor))).
  split; discriminate.
Defined.

(** X12.  With [-t], operands are not looked at: whatever stands before
    and after the option, the run is the run of [-t optarg] alone -- no
    backup is made of a source directory given with [-t]. *)
Theorem main_set_default_ignores_operands (prog optarg : string)
        (pre post : list string) (w : world) :
  Forall (fun a => starts_with "-" a = false) pre ->
  Forall (fun a => starts_with "-" a = false) post ->
  main prog (pre ++ "-t" :: optarg :: post) w = main prog ["-t"; optarg] w.
Proof.
  intros Hpre Hpost. unfold main.
  rewrite (option_loop_operands prog pre _ Hpre).
  rewrite !option_loop_t.
  destruct (Fs.realpath optarg _) as [[resolved|] w1]; [|reflexivity].
  rewrite <- (List.app_nil_r post) at 1.
  rewrite (option_loop_operands prog post [] Hpost).
  reflexivity.
Qed.

(** [backup docs -t /media/pi]. *)
Lemma main_set_default_ignores_operands_witness :
  main "backup" (["docs"] ++ "-t" :: "/media/pi" :: ["more"]) Sample.w0
  = main "backup" ["-t"; "/media/pi"] Sample.w0.
Proof.
  apply (main_set_default_ignores_operands "backup" "/media/pi" ["docs"] ["more"]
           Sample.w0).
  - repeat constructor.
  - repeat constructor.
Defined.

(** ** Runs from worlds with the same file system *)

Section Same_fs_writes.

Lemma same_fs_sym (w w' : world) : same_fs w w' -> same_fs w' w.
Proof. intros (?&?&?&?&?&?). now repeat split. Qed.

(** Two worlds with the same file system, after the same change of
    the inode table and of the room left. *)
Lemma same_fs_set (w w' : world) t n :
  same_fs w w' -> same_fs (set_space n (set_inodes t w)) (set_space n (set_inodes t w')).
Proof. intros (?&?&?&?&?&?). now repeat split. Qed.

Lemma same_fs_set_inodes (w w' : world) t :
  same_fs w w' -> same_fs (set_inodes t w) (set_inodes t w').
Proof. intros (?&?&?&?&?&?). now repeat split. Qed.

Lemma same_fs_errno_l (w w' : world) e : same_fs w w' -> same_fs (set_errno e w) w'.
Proof. intros (?&?&?&?&?&?). now repeat split. Qed.

Lemma same_fs_errno_r (w w' : world) e : same_fs w w' -> same_fs w (set_errno e w').
Proof. intros (?&?&?&?&?&?). now repeat split. Qed.

Lemma same_fs_emit_both (w w' : world) ev ev' :
  same_fs w w' -> same_fs (emit ev w) (emit ev' w').
Proof. intros (?&?&?&?&?&?). now repeat split. Qed.

Lemma same_fs_emit_r (w w' : world) ev : same_fs w w' -> same_fs w (emit ev w').
Proof. intros (?&?&?&?&?&?). now repeat split. Qed.

Lemma same_fs_create (w w' : world) d name n :
  same_fs w w' ->
  fst (Fs.create d name n w') = fst (Fs.create d name n w)
  /\ same_fs (snd (Fs.create d name n w)) (snd (Fs.create d name n w')).
Proof.
  intros H. pose proof H as (Hi & _). unfold Fs.create. rewrite Hi.
  destruct (inodes w !! d) as [[|own perm ents| |]|]; cbn [fst snd];
    try (split; [reflexivity|]; apply same_fs_errno_l, same_fs_errno_r, H).
  destruct (Fs.may Fs.W own perm); cbn [fst snd].
  - split; [reflexivity|]. now apply same_fs_set_inodes.
  - split; [reflexivity|]. apply same_fs_errno_l, same_fs_errno_r, H.
Qed.

Lemma same_fs_mkdir_world (w w' : world) p mode :
  same_fs w w' ->
  same_fs (snd (Fs.mkdir p mode w)) (snd (Fs.mkdir p mode w')).
Proof.
  intros H. pose proof H as (Hi & _ & _ & _ & Hu & _). unfold Fs.mkdir.
  rewrite (same_fs_namei w w' false p H).
  destruct (Fs.namei w false p) as [stk|stk name| |]; cbn [fst snd];
    try (apply same_fs_errno_l, same_fs_errno_r, H).
  assert (Hm : Fs.masked mode w' = Fs.masked mode w)
    by (unfold Fs.masked; now rewrite Hu).
  rewrite Hm.
  destruct (same_fs_create w w' (Fs.top stk) name
              (IDir true (Fs.masked mode w) []) H) as [Hf Hs].
  destruct (Fs.create _ _ _ w) as [[i|] w1], (Fs.create _ _ _ w') as [[i'|] w1'];
    cbn [fst snd] in *; try discriminate; exact Hs.
Qed.

Lemma same_fs_fopen_w (w w' : world) p :
  same_fs w w' ->
  fst (Fs.fopen_w p w') = fst (Fs.fopen_w p w)
  /\ same_fs (snd (Fs.fopen_w p w)) (snd (Fs.fopen_w p w')).
Proof.
  intros H. pose proof H as (Hi & _ & _ & _ & Hu & _). unfold Fs.fopen_w.
  rewrite (same_fs_namei w w' true p H), Hi.
  destruct (Fs.namei w true p) as [stk|stk name| |]; cbn [fst snd];
    try (split; [reflexivity|]; apply same_fs_errno_l, same_fs_errno_r, H).
  - destruct (inodes w !! Fs.top stk) as [[own perm data|? ? ?|?|? own perm]|];
      cbn [fst snd];
      try (split; [reflexivity|]; apply same_fs_errno_l, same_fs_errno_r, H).
    + destruct (Fs.may Fs.W own perm); cbn [fst snd].
      * split; [reflexivity|]. now apply same_fs_set_inodes.
      * split; [reflexivity|]. apply same_fs_errno_l, same_fs_errno_r, H.
    + destruct (Fs.may Fs.W own perm); cbn [fst snd].
      * split; [reflexivity|]. exact H.
      * split; [reflexivity|]. apply same_fs_errno_l, same_fs_errno_r, H.
  - assert (Hm : Fs.masked (octal "666") w' = Fs.masked (octal "666") w)
      by (unfold Fs.masked; now rewrite Hu).
    rewrite Hm. now apply same_fs_create.
Qed.

Lemma same_fs_write (w w' : world) f buf :
  same_fs w w' ->
  same_fs (snd (Fs.write f buf w)) (snd (Fs.write f buf w')).
Proof.
  intros H. pose proof H as (Hi & Hs & _). unfold Fs.write. rewrite Hi, Hs.
  destruct (inodes w !! f) as [[own perm data| | |]|]; cbn [fst snd];
    try (apply same_fs_errno_l, same_fs_errno_r, H); try exact H.
  destruct (_ <? _).
  - apply same_fs_errno_l, same_fs_errno_r. now apply same_fs_set.
  - now apply same_fs_set.
Qed.

Lemma same_fs_ensure_config_dir_exists (w w' : world) cfg :
  same_fs w w' ->
  same_fs (ensure_config_dir_exists cfg w) (ensure_config_dir_exists cfg w').
Proof.
  intros H. unfold ensure_config_dir_exists, eprint, perror, random_delay.
  rewrite !mkdir_emit. cbn [fst snd].
  pose proof (same_fs_mkdir w w' (dirname cfg) (octal "755") H) as Hf.
  pose proof (same_fs_mkdir_world w w' (dirname cfg) (octal "755") H) as Hs.
  destruct (Fs.mkdir (dirname cfg) (octal "755") w) as [m1 w1],
           (Fs.mkdir (dirname cfg) (octal "755") w') as [m2 w2].
  cbn [fst snd] in *. subst m2.
  destruct m1.
  - now apply same_fs_emit_both.
  - destruct (negb _), (negb _); repeat apply same_fs_emit_both; assumption.
Qed.

Lemma same_fs_store (w w' : world) cfg c :
  same_fs w w' -> same_fs (store cfg c w) (store cfg c w').
Proof.
  intros H. rewrite !store_unfold.
  destruct (same_fs_fopen_w w w' cfg H) as [Hf Hs].
  destruct (Fs.fopen_w cfg w) as [r1 w1], (Fs.fopen_w cfg w') as [r2 w2].
  cbn [fst snd] in *. subst r2.
  destruct r1 as [f|].
  - apply same_fs_emit_both. now apply same_fs_write.
  - now apply same_fs_emit_both.
Qed.

Lemma same_fs_write_default_backup_dir (w w' : world) c :
  same_fs w w' ->
  same_fs (write_default_backup_dir c w) (write_default_backup_dir c w').
Proof.
  intros H. rewrite !write_default_backup_dir_unfold.
  rewrite (same_fs_config_path w w' H).
  apply same_fs_store, same_fs_emit_both.
  now apply same_fs_ensure_config_dir_exists.
Qed.

End Same_fs_writes.

(** X13.  When [-t] is given twice, each argument is resolved, and it
    is the last one that is stored: provided the first resolves, the
    run ends as the run of the second [-t] alone and leaves the file
    system it would leave. *)
Theorem main_last_target_wins (prog a b ca : string) (w : world) :
  fst (Fs.realpath a w) = Some ca ->
  fst (main prog ["-t"; a; "-t"; b] w) = fst (main prog ["-t"; b] w)
  /\ same_fs (snd (main prog ["-t"; b] w)) (snd (main prog ["-t"; a; "-t"; b] w)).
Proof.
  intros Ha. unfold main. rewrite !option_loop_t.
  unfold eprint, random_delay.
  set (w1 := emit _ w).
  assert (H1 : same_fs w w1) by apply same_fs_emit. clearbody w1.
  set (wa := emit (Stderr (GRAY +++ "[DEBUG] -t option provided with argument: "
                                +++ a +++ NL +++ RESET)) w1).
  assert (Hwa : same_fs w1 wa) by apply same_fs_emit.
  pose proof (same_fs_realpath w wa a (same_fs_trans _ _ _ H1 Hwa)) as Hra.
  pose proof (realpath_same_fs a wa) as Hsa.
  rewrite Ha in Hra. clearbody wa.
  destruct (Fs.realpath a wa) as [ra w2]. cbn [fst snd] in Hra, Hsa. subst ra.
  rewrite option_loop_t. unfold eprint, random_delay.
  set (wb := emit (Stderr (GRAY +++ "[DEBUG] -t option provided with argument: "
                                +++ b +++ NL +++ RESET)) w1).
  set (wb' := emit (Stderr (GRAY +++ "[DEBUG] -t option provided with argument: "
                                 +++ b +++ NL +++ RESET)) w2).
  assert (Hbb : same_fs wb wb').
  { apply same_fs_emit_both.
    eapply same_fs_trans; [exact Hwa | exact Hsa]. }
  clearbody wb wb'.
  pose proof (same_fs_realpath wb wb' b Hbb) as Hrb.
  pose proof (realpath_same_fs b wb) as Hs1.
  pose proof (realpath_same_fs b wb') as Hs2.
  destruct (Fs.realpath b wb) as [rb w3], (Fs.realpath b wb') as [rb' w3'].
  cbn [fst snd] in Hrb, Hs1, Hs2. subst rb'.
  assert (H3 : same_fs w3 w3').
  { eapply same_fs_trans; [apply same_fs_sym, Hs1|].
    eapply same_fs_trans; [exact Hbb | exact Hs2]. }
  destruct rb as [cb|]; cbn [option_loop fst snd].
  - split; [reflexivity|].
    unfold print. apply same_fs_emit_both.
    apply same_fs_write_default_backup_dir. now apply same_fs_emit_both.
  - split; [reflexivity|]. unfold perror. now apply same_fs_emit_both.
Qed.

(** [backup -t /media -t /media/pi]. *)
Lemma main_last_target_wins_witness :
  fst (main "backup" ["-t"; "/media"; "-t"; "/media/pi"] Sample.w0)
  = fst (main "backup" ["-t"; "/media/pi"] Sample.w0).
Proof.
  apply (main_last_target_wins "backup" "/media" "/media/pi" "/media" Sample.w0).
  reflexivity.
Defined.

(** ** copy_directory: an empty directory *)

Section Made.

(** The directory [mkdir] has made is found under its name. *)
Lemma mkdir_made (p : string) (mode : Z) (w w' : world) :
  Fs.mkdir p mode w = (true, w') ->
  exists stk name,
    Fs.namei w false p = Fs.Absent stk name
    /\ w' = set_inodes (created (Fs.top stk) name
                                (IDir true (Fs.masked mode w) []) (inodes w)) w
    /\ Fs.namei w' false p = Fs.Found ((name, length (inodes w)) :: stk)
    /\ inodes w' !! length (inodes w) = Some (IDir true (Fs.masked mode w) []).
Proof.
  intros Em. apply mkdir_true in Em as (stk & name & Hn & ->).
  destruct (namei_absent_dir _ _ _ _ _ Hn) as (own & perm & ents & Hd & Hnone).
  exists stk, name. split; [exact Hn|]. split; [reflexivity|].
  assert (Hf : Fs.namei (set_inodes (created (Fs.top stk) name
                                       (IDir true (Fs.masked mode w) []) (inodes w)) w)
                        false p
               = Fs.Found ((name, length (inodes w)) :: stk)).
  { apply (namei_absent_grows w _ false p stk name
             (length (inodes w)) own perm
             (ents ++ [(name, length (inodes w))])
             (IDir true (Fs.masked mode w) [])).
    - apply grows_created.
    - reflexivity.
    - exact Hn.
    - now apply created_dir.
    - now apply assoc_app_none.
    - apply created_new.
    - reflexivity. }
  split; [exact Hf|]. apply created_new.
Qed.

End Made.



(** ** Resolving a name in a directory that has been resolved *)

Section Child.

Lemma split_nonnil (sep : ascii) (s : string) : split sep s <> [].
Proof.
  induction s as [|a r IH]; [discriminate|]. simpl.
  destruct (Ascii.eqb a sep); [discriminate|].
  destruct (split sep r); [contradiction | discriminate].
Qed.

Lemma split_app_sep (sep : ascii) (a b : string) :
  split sep (a +++ String sep b) = split sep a ++ split sep b.
Proof.
  induction a as [|c r IH]; simpl.
  - now rewrite Ascii.eqb_refl.
  - destruct (Ascii.eqb c sep); [now rewrite IH|].
    rewrite IH. pose proof (split_nonnil sep r) as Hn.
    destruct (split sep r); [contradiction | reflexivity].
Qed.

Lemma split_plain (sep : ascii) (s : string) :
  has sep s = false -> split sep s = [s].
Proof.
  induction s as [|c r IH]; [reflexivity|]. simpl.
  destruct (Ascii.eqb c sep); [discriminate|]. intros H.
  now rewrite (IH H).
Qed.

Lemma components_child (p name : string) :
  nonempty name = true -> has "/" name = false ->
  Fs.components (p +++ "/" +++ name) = Fs.components p ++ [name].
Proof.
  intros Hne Hs. unfold Fs.components.
  change (p +++ "/" +++ name) with (p +++ String "/" name).
  rewrite split_app_sep, List.filter_app, (split_plain _ _ Hs).
  simpl. now rewrite Hne.
Qed.

Lemma starts_with_app (c : ascii) (p q : string) :
  nonempty p = true -> starts_with c (p +++ q) = starts_with c p.
Proof. now destruct p. Qed.

Lemma nonempty_app (p q : string) :
  nonempty p = true -> nonempty (p +++ q) = true.
Proof. now destruct p. Qed.

Lemma is_nil_app {A} (l r : list A) : r <> [] -> Fs.is_nil (l ++ r) = false.
Proof. intros H. destruct l; [now destruct r | reflexivity]. Qed.

Variable t : list inode.

(** Components that follow a walk that has come to its end. *)
Lemma walk_app (f : bool) (rest : list string) :
  rest <> [] ->
  forall cs stk,
    match Fs.walk t true stk cs with
    | Fs.Found s => Fs.walk t f stk (cs ++ rest) = Fs.walk t f s rest
    | Fs.Link s tg r => Fs.walk t f stk (cs ++ rest) = Fs.Link s tg (r ++ rest)
    | _ => True
    end.
Proof.
  intros Hrest. induction cs as [|c r IH]; intros stk; [reflexivity|].
  cbn [Fs.walk app].
  destruct (t !! Fs.top stk) as [[|own perm ents| |]|]; try exact I.
  destruct (negb (Fs.may Fs.X own perm)); [exact I|].
  destruct (String.eqb c "."); [apply IH|].
  destruct (String.eqb c ".."); [apply IH|].
  destruct (NAME_MAX <? len c); [exact I|].
  destruct (Fs.assoc c ents) as [i|]; [|now destruct (Fs.is_nil r)].
  destruct (t !! i) as [[| |target|]|]; try apply IH; try exact I.
  cbn [orb]. now rewrite (is_nil_app r rest Hrest), orb_true_r.
Qed.

Lemma resolve_app (f : bool) (rest : list string) :
  rest <> [] ->
  forall hops stk cs s,
    Fs.resolve hops t true stk cs = Fs.Found s ->
    (forall a b c, Fs.walk t f s rest <> Fs.Link a b c) ->
    Fs.resolve hops t f stk (cs ++ rest) = Fs.walk t f s rest.
Proof.
  intros Hrest. induction hops as [|h IH]; intros stk cs s Hr Hnl.
  - cbn [Fs.resolve] in *. pose proof (walk_app f rest Hrest cs stk) as Hw.
    destruct (Fs.walk t true stk cs) as [s'| | |]; try discriminate.
    inversion Hr; subst s'. rewrite Hw.
    destruct (Fs.walk t f s rest) as [| |a b c|]; try reflexivity.
    now contradiction (Hnl a b c).
  - cbn [Fs.resolve] in *. pose proof (walk_app f rest Hrest cs stk) as Hw.
    destruct (Fs.walk t true stk cs) as [s'| |s' tg r|]; try discriminate.
    + inversion Hr; subst s'. rewrite Hw.
      destruct (Fs.walk t f s rest) as [| |a b c|]; try reflexivity.
      now contradiction (Hnl a b c).
    + rewrite Hw. destruct (nonempty tg); [|discriminate].
      rewrite List.app_assoc. now apply IH.
Qed.

(** The walk over one name in the directory on top of the stack. *)
Lemma walk_name (f : bool) (stk : Fs.stack) (name : string) own perm ents :
  t !! Fs.top stk = Some (IDir own perm ents) -> Fs.may Fs.X own perm = true ->
  entry_name name ->
  Fs.walk t f stk [name]
  = match Fs.assoc name ents with
    | None => Fs.Absent stk name
    | Some i =>
        match t !! i with
        | Some (ILnk target) =>
            if f then Fs.Link stk target [] else Fs.Found ((name, i) :: stk)
        | Some _ => Fs.Found ((name, i) :: stk)
        | None => Fs.Fail ENOENT
        end
    end.
Proof.
  intros Hd Hx (Hne & Hs & Hdot & Hdd & Hlen). cbn [Fs.walk]. rewrite Hd, Hx.
  cbn [negb]. rewrite (proj2 (String.eqb_neq _ _) Hdot).
  rewrite (proj2 (String.eqb_neq _ _) Hdd).
  rewrite (proj2 (Nat.ltb_ge _ _) Hlen).
  destruct (Fs.assoc name ents) as [i|]; [|reflexivity].
  destruct (t !! i) as [[| |target|]|]; try reflexivity.
  now destruct f.
Qed.

(** Whether the last component is followed makes no difference when
    it is no link. *)
Lemma walk_follow :
  forall cs stk,
    match Fs.walk t false stk cs with
    | Fs.Found s =>
        (forall n, t !! Fs.top s = Some n -> is_link n = false) ->
        Fs.walk t true stk cs = Fs.Found s
    | Fs.Link s tg r => Fs.walk t true stk cs = Fs.Link s tg r
    | _ => True
    end.
Proof.
  induction cs as [|c r IH]; intros stk; [now intros _|].
  cbn [Fs.walk].
  destruct (t !! Fs.top stk) as [[|own perm ents| |]|]; try exact I.
  destruct (negb (Fs.may Fs.X own perm)); [exact I|].
  destruct (String.eqb c "."); [apply IH|].
  destruct (String.eqb c ".."); [apply IH|].
  destruct (NAME_MAX <? len c); [exact I|].
  destruct (Fs.assoc c ents) as [i|]; [|now destruct (Fs.is_nil r)].
  destruct (t !! i) as [[| |target|]|] eqn:Ei; try apply IH; try exact I.
  cbn [orb]. destruct r as [|c' r']; [|reflexivity].
  cbn [Fs.is_nil negb Fs.walk Fs.top]. intros H.
  specialize (H _ Ei). discriminate H.
Qed.

Lemma resolve_follow :
  forall hops stk cs s,
    Fs.resolve hops t false stk cs = Fs.Found s ->
    (forall n, t !! Fs.top s = Some n -> is_link n = false) ->
    Fs.resolve hops t true stk cs = Fs.Found s.
Proof.
  induction hops as [|h IH]; intros stk cs s Hr Hn;
    cbn [Fs.resolve] in *; pose proof (walk_follow cs stk) as Hw;
    destruct (Fs.walk t false stk cs) as [s'| |s' tg r|]; try discriminate;
    cbn iota beta in Hw.
  - inversion Hr; subst s'. now rewrite (Hw Hn).
  - inversion Hr; subst s'. now rewrite (Hw Hn).
  - rewrite Hw. destruct (nonempty tg); [|discriminate]. now apply IH.
Qed.

End Child.

Section Child_path.

Lemma namei_follow (w : world) (p : string) (s : Fs.stack) :
  Fs.namei w false p = Fs.Found s ->
  (forall n, inodes w !! Fs.top s = Some n -> is_link n = false) ->
  Fs.namei w true p = Fs.Found s.
Proof.
  unfold Fs.namei. intros H Hn.
  destruct (negb (nonempty p)); [discriminate|].
  destruct (PATH_MAX <=? len p); [discriminate|].
  now apply resolve_follow.
Qed.

(** The path [p/name], [p] being a directory that can be searched. *)
Lemma namei_child (w : world) (f : bool) (p name : string) stk own perm ents :
  Fs.namei w true p = Fs.Found stk ->
  inodes w !! Fs.top stk = Some (IDir own perm ents) ->
  Fs.may Fs.X own perm = true ->
  entry_name name -> len (p +++ "/" +++ name) < PATH_MAX ->
  (forall i target, Fs.assoc name ents = Some i ->
                    inodes w !! i <> Some (ILnk target)) ->
  Fs.namei w f (p +++ "/" +++ name)
  = match Fs.assoc name ents with
    | None => Fs.Absent stk name
    | Some i =>
        match inodes w !! i with
        | Some _ => Fs.Found ((name, i) :: stk)
        | None => Fs.Fail ENOENT
        end
    end.
Proof.
  unfold Fs.namei. intros Hp Hd Hx Hname Hlen Hnl.
  destruct (nonempty p) eqn:Hne; [|discriminate]. cbn [negb] in *.
  rewrite (nonempty_app p _ Hne). cbn [negb].
  destruct (PATH_MAX <=? len p); [discriminate|].
  rewrite (proj2 (Nat.leb_gt _ _) Hlen).
  rewrite (starts_with_app "/" p _ Hne).
  destruct Hname as (Hn1 & Hn2 & Hn3).
  rewrite (components_child p name Hn1 Hn2).
  assert (Hw : Fs.walk (inodes w) f stk [name]
               = match Fs.assoc name ents with
                 | None => Fs.Absent stk name
                 | Some i =>
                     match inodes w !! i with
                     | Some _ => Fs.Found ((name, i) :: stk)
                     | None => Fs.Fail ENOENT
                     end
                 end).
  { rewrite (walk_name (inodes w) f stk name own perm ents Hd Hx)
      by (repeat split; tauto).
    destruct (Fs.assoc name ents) as [i|] eqn:Ea; [|reflexivity].
    destruct (inodes w !! i) as [[| |target|]|] eqn:Ei; try reflexivity.
    now contradiction (Hnl i target eq_refl). }
  assert (Hnolink : forall a b c,
             Fs.walk (inodes w) f stk [name] <> Fs.Link a b c).
  { intros a b c. rewrite Hw. destruct (Fs.assoc name ents) as [i|]; [|discriminate].
    destruct (inodes w !! i); discriminate. }
  rewrite <- Hw.
  destruct (starts_with "/" p).
  - apply resolve_app; [discriminate|assumption|assumption].
  - rewrite List.app_assoc.
    apply resolve_app; [discriminate|assumption|assumption].
Qed.

Lemma child_path_fits (dir name : string) :
  len (dir +++ "/" +++ name) < PATH_MAX ->
  child_path dir name = dir +++ "/" +++ name.
Proof.
  intros H. unfold child_path, snprintf. apply take_all.
  unfold PATH_MAX in *. lia.
Qed.

End Child_path.

(** ** copy_file: a new file *)

Section Creates.

Lemma created_insert_new d name n n' t :
  <[length t := n']> (created d name n t) = created d name n' t.
Proof.
  unfold created.
  rewrite insert_app_r_alt by (rewrite length_link_in; lia).
  rewrite length_link_in, Nat.sub_diag. reflexivity.
Qed.

Lemma fopen_w_absent (p : string) (w : world) stk name own perm ents :
  Fs.namei w true p = Fs.Absent stk name ->
  inodes w !! Fs.top stk = Some (IDir own perm ents) ->
  Fs.may Fs.W own perm = true ->
  Fs.fopen_w p w
  = (Some (length (inodes w)),
     set_inodes (created (Fs.top stk) name
                         (IReg true (Fs.masked (octal "666") w) EmptyString)
                         (inodes w)) w).
Proof.
  intros Hn Hd Hw. unfold Fs.fopen_w, Fs.create. now rewrite Hn, Hd, Hw.
Qed.

Lemma fopen_r_reg (p : string) (w : world) stk own perm data :
  Fs.namei w true p = Fs.Found stk ->
  inodes w !! Fs.top stk = Some (IReg own perm data) ->
  Fs.may Fs.R own perm = true ->
  Fs.fopen_r p w = (Some (Fs.top stk), w).
Proof.
  intros Hn Hi Hr. unfold Fs.fopen_r. rewrite Hn, Hi. cbn [Fs.may_inode].
  now rewrite Hr.
Qed.

Lemma umask_write (i : nat) (buf : string) (w : world) :
  umask (snd (Fs.write i buf w)) = umask w.
Proof.
  unfold Fs.write. destruct (inodes w !! i) as [[? ? ?| | |]|]; try reflexivity.
  now destruct (_ <? _).
Qed.

Lemma umask_copy_loop (src dest : string) (s d : nat) :
  forall fuel off w, umask (copy_loop fuel src dest s d off w) = umask w.
Proof.
  induction fuel as [|fuel IH]; intros off w; [reflexivity|].
  cbn [copy_loop]. destruct (_ =? 0); [reflexivity|].
  pose proof (umask_write d (fread s off w) w) as H.
  destruct (Fs.write d (fread s off w) w) as [written w1]. cbn [snd] in H.
  destruct (_ =? _); [now rewrite IH|]. exact H.
Qed.

(** A readable regular file copied to a name that is free in a
    directory the user may write to, on a device with room: the inode
    table afterwards is the table before with one new file, which has
    the bytes and the permission bits of the source. *)
Lemma copy_file_creates (src dest : string) (w : world)
      stks os ps data stk name own perm ents :
  Fs.namei w true src = Fs.Found stks ->
  inodes w !! Fs.top stks = Some (IReg os ps data) ->
  Fs.may Fs.R os ps = true ->
  Fs.namei w true dest = Fs.Absent stk name ->
  inodes w !! Fs.top stk = Some (IDir own perm ents) ->
  Fs.may Fs.W own perm = true ->
  len data <= space w ->
  inodes (copy_file src dest w)
  = created (Fs.top stk) name (IReg true (Z.land ps Fs.ALLPERMS) data) (inodes w)
  /\ space (copy_file src dest w) = space w - len data
  /\ cwd (copy_file src dest w) = cwd w
  /\ umask (copy_file src dest w) = umask w.
Proof.
  intros Hns Hs Hr Hnd Hd Hw Hroom.
  assert (Hnone : Fs.assoc name ents = None).
  { destruct (namei_absent_dir _ _ _ _ _ Hnd) as (o & p & e & Hd' & Hnone).
    rewrite Hd in Hd'. now inversion Hd'. }
  unfold copy_file.
  rewrite (fopen_r_reg src w stks os ps data Hns Hs Hr).
  unfold eprint, random_delay. rewrite fopen_w_emit.
  rewrite (fopen_w_absent dest w stk name own perm ents Hnd Hd Hw).
  cbn [fst snd].
  remember (Fs.masked (octal "666") w) as m eqn:Em. clear Em.
  remember (length (inodes w)) as L eqn:EL.
  remember (Fs.top stks) as s eqn:Es.
  remember (Fs.top stk) as D eqn:ED.
  apply lookup_lt_Some in Hs as Hslt.
  apply lookup_lt_Some in Hd as HDlt.
  assert (HsD : s <> D) by (intros ->; rewrite Hs in Hd; discriminate).
  assert (HsL : s <> L) by lia.
  set (wc := emit _ (emit _ (set_inodes _ w))).
  assert (Hiwc : inodes wc = created D name (IReg true m EmptyString) (inodes w))
    by reflexivity.
  assert (Hswc : space wc = space w) by reflexivity.
  assert (Hcwc : cwd wc = cwd w) by reflexivity.
  assert (Huwc : umask wc = umask w) by reflexivity.
  clearbody wc.
  assert (Hs1 : inodes wc !! s = Some (IReg os ps data)).
  { rewrite Hiwc, created_other by lia. exact Hs. }
  assert (Hd1 : inodes wc !! L = Some (IReg true m EmptyString)).
  { rewrite Hiwc, EL. apply created_new. }
  assert (Hc : Fs.contents s wc = data).
  { unfold Fs.contents. now rewrite Hs1. }
  rewrite Hc.
  pose proof (copy_loop_prefix src dest s L os ps data true m HsL
                (S (len data)) 0 wc EmptyString Hs1 Hd1 ltac:(lia)) as P.
  cbv zeta in P. rewrite Nat.sub_0_r, Hswc, Hcwc in P.
  rewrite (Nat.min_l _ _ Hroom) in P.
  rewrite (take_all (len data) (drop 0 data)) in P by (rewrite len_drop; lia).
  pose proof (umask_copy_loop src dest s L) as Hu.
  specialize (Hu (S (len data)) 0 wc). rewrite Huwc in Hu.
  remember (copy_loop (S (len data)) src dest s L 0 wc) as wl eqn:El. clear El.
  destruct P as (Hi & Hsp & Hcw & _).
  remember (emit (Stderr (GRAY +++ "   [INFO] File copy completed: " +++ src
                               +++ " -> " +++ dest +++ NL +++ RESET)) wl)
    as wd eqn:Ed.
  assert (Hid : inodes wd = created D name (IReg true m data) (inodes w)).
  { rewrite Ed, inodes_emit, Hi, Hiwc, EL. cbn [drop String.append].
    apply created_insert_new. }
  assert (Hcd : cwd wd = cwd w) by (rewrite Ed, cwd_emit; exact Hcw).
  assert (Hsd : space wd = space w - len data)
    by (rewrite Ed, space_emit; exact Hsp).
  assert (Hud : umask wd = umask w) by (rewrite Ed, umask_emit; exact Hu).
  clear Ed Hi Hcw Hsp Hu wl Hc Hs1 Hd1 Hiwc Hswc Hcwc Huwc wc.
  assert (G : grows (inodes w) (inodes wd)).
  { rewrite Hid. apply grows_created. }
  assert (Hs2 : inodes wd !! s = Some (IReg os ps data)).
  { rewrite Hid, created_other by lia. exact Hs. }
  assert (Hd2 : inodes wd !! L = Some (IReg true m data)).
  { rewrite Hid, EL. apply created_new. }
  assert (Hnsd : Fs.namei wd true src = Fs.Found stks).
  { apply (namei_grows w wd); assumption. }
  assert (Hndd : Fs.namei wd true dest = Fs.Found ((name, L) :: stk)).
  { apply (namei_absent_grows w wd true dest stk name L own perm
             (ents ++ [(name, L)]) (IReg true m data)); try assumption.
    - rewrite <- ED, Hid, EL. now apply created_dir.
    - now apply assoc_app_none.
    - reflexivity. }
  rewrite (stat_found src wd stks (IReg os ps data) Hnsd)
    by (rewrite <- Es; exact Hs2).
  rewrite (chmod_file dest _ wd ((name, L) :: stk) m data Hndd)
    by exact Hd2.
  rewrite perms_of_st_mode. cbn [Fs.top].
  rewrite inodes_emit, inodes_set_inodes, space_emit, space_set_inodes.
  rewrite cwd_emit, cwd_set_inodes, umask_emit, umask_set_inodes.
  split; [|split; [exact Hsd|split; [exact Hcd|exact Hud]]].
  rewrite Hid, EL. apply created_insert_new.
Qed.

End Creates.

(** ** copy_directory: a directory of regular files *)

Section Files.

Lemma assoc_in (ents : list (string * nat)) (name : string) (i : nat) :
  List.NoDup (map fst ents) -> In (name, i) ents -> Fs.assoc name ents = Some i.
Proof.
  induction ents as [|[k j] r IH]; intros Hnd Hin; [contradiction|].
  cbn [map fst] in Hnd. apply List.NoDup_cons_iff in Hnd as [Hk Hnd].
  cbn [Fs.assoc]. destruct Hin as [E|Hin].
  - inversion E; subst. now rewrite String.eqb_refl.
  - destruct (String.eqb_spec k name) as [->|_]; [|now apply IH].
    exfalso. apply Hk.
    change name with (fst (name, i)). now apply List.in_map.
Qed.

Lemma assoc_app_ne (ents : list (string * nat)) (name other : string) (j : nat) :
  other <> name ->
  Fs.assoc other (ents ++ [(name, j)]) = Fs.assoc other ents.
Proof.
  intros Hne. induction ents as [|[k i] r IH]; cbn [app Fs.assoc].
  - now rewrite (proj2 (String.eqb_neq _ _) (not_eq_sym Hne)).
  - now rewrite IH.
Qed.

Variable recurse : string -> string -> world -> option world.
Variables src dest : string.

(** The world [w] in which the source directory was opened. *)
Variable w : world.
Variable stks : Fs.stack.
Variables (own : bool) (perm : Z) (ents : list (string * nat)).
Hypothesis Hsrc : Fs.namei w true src = Fs.Found stks.
Hypothesis Hdir : inodes w !! Fs.top stks = Some (IDir own perm ents).
Hypothesis Hsearch : Fs.may Fs.X own perm = true.
Hypothesis Hnodup : List.NoDup (map fst ents).

(** The destination directory, made after that. *)
Variable stkd : Fs.stack.
Variable m : Z.
Hypothesis Hmw : Fs.may Fs.W true m = true.
Hypothesis Hmx : Fs.may Fs.X true m = true.

Lemma copy_entries_files :
  forall (todo : list (string * nat)) (wk : world) (entsD : list (string * nat)),
    List.NoDup (map fst todo) ->
    (forall name i, In (name, i) todo ->
       In (name, i) ents /\ entry_name name
       /\ len (src +++ "/" +++ name) < PATH_MAX
       /\ len (dest +++ "/" +++ name) < PATH_MAX
       /\ Fs.assoc name entsD = None
       /\ exists o p d, inodes w !! i = Some (IReg o p d)
                        /\ inodes wk !! i = Some (IReg o p d)
                        /\ Fs.may Fs.R o p = true) ->
    grows (inodes w) (inodes wk) -> cwd wk = cwd w ->
    Fs.namei wk true dest = Fs.Found stkd ->
    inodes wk !! Fs.top stkd = Some (IDir true m entsD) ->
    list_sum (map (fun e => len (Fs.contents (snd e) w)) todo) <= space wk ->
    exists w',
      copy_entries recurse src dest (map fst todo) wk = Some w'
      /\ length (inodes w') = length (inodes wk) + length todo
      /\ grows (inodes wk) (inodes w')
      /\ cwd w' = cwd w
      /\ (forall j, j <> Fs.top stkd -> j < length (inodes wk) ->
            inodes w' !! j = inodes wk !! j)
      /\ (forall name i o p d,
            In (name, i) todo -> inodes w !! i = Some (IReg o p d) ->
            exists j,
              Fs.namei w' true (dest +++ "/" +++ name)
              = Fs.Found ((name, j) :: stkd)
              /\ inodes w' !! j = Some (IReg true (Z.land p Fs.ALLPERMS) d)).
Proof.
  induction todo as [|[name i] rest IH];
    intros wk entsD Hnd Htodo G Hc Hnd' HD Hroom.
  - exists wk. cbn [map copy_entries length]. rewrite Nat.add_0_r.
    split; [reflexivity|]. split; [reflexivity|]. split; [apply grows_refl|].
    split; [exact Hc|]. split; [reflexivity|]. intros ? ? ? ? ? [].
  - cbn [map fst] in Hnd. apply List.NoDup_cons_iff in Hnd as [Hfresh Hnd].
    destruct (Htodo name i (or_introl eq_refl))
      as (Hin & Hname & Hls & Hld & Hnone & o & p & d & Hi & Hik & Hr).
    pose proof Hname as (Hn1 & Hn2 & Hdot & Hdd & Hn5).
    cbn [map fst copy_entries list_sum] in *.
    (* the entry is a regular file *)
    assert (Hns : Fs.namei w true (src +++ "/" +++ name)
                  = Fs.Found ((name, i) :: stks)).
    { rewrite (namei_child w true src name stks own perm ents Hsrc Hdir Hsearch
                 Hname Hls).
      - now rewrite (assoc_in ents name i Hnodup Hin), Hi.
      - intros i' target Ha. rewrite (assoc_in ents name i Hnodup Hin) in Ha.
        inversion Ha; subst i'. now rewrite Hi. }
    unfold copy_entry.
    rewrite (proj2 (String.eqb_neq _ _) Hdot), (proj2 (String.eqb_neq _ _) Hdd).
    cbn [orb]. cbv zeta.
    rewrite (child_path_fits src name Hls), (child_path_fits dest name Hld).
    rewrite (stat_found (src +++ "/" +++ name) wk ((name, i) :: stks)
               (IReg o p d) (namei_grows w wk true _ _ G Hc Hns) Hik).
    rewrite S_ISDIR_inode, S_ISREG_inode.
    unfold eprint, random_delay.
    remember (emit (Stderr (GRAY +++ "   [INFO] Found file: "
                                 +++ (src +++ "/" +++ name) +++ NL +++ RESET)) wk)
      as wf eqn:Ef.
    assert (Hif : inodes wf = inodes wk) by (now rewrite Ef).
    assert (Hcf : cwd wf = cwd wk) by (now rewrite Ef).
    assert (Hsf : space wf = space wk) by (now rewrite Ef).
    clear Ef.
    assert (Hcontents : Fs.contents i w = d).
    { unfold Fs.contents. now rewrite Hi. }
    cbn [snd] in Hroom. rewrite Hcontents in Hroom.
    change (len d + list_sum (map (fun e => len (Fs.contents (snd e) w)) rest)
            <= space wk) in Hroom.
    assert (Hnsf : Fs.namei wf true (src +++ "/" +++ name)
                   = Fs.Found ((name, i) :: stks)).
    { rewrite <- (namei_grows w wk true _ _ G Hc Hns).
      apply namei_same; [exact Hif|exact Hcf]. }
    assert (Hndf : Fs.namei wf true dest = Fs.Found stkd).
    { rewrite <- Hnd'. apply namei_same; [exact Hif|exact Hcf]. }
    assert (HDf : inodes wf !! Fs.top stkd = Some (IDir true m entsD)).
    { rewrite Hif. exact HD. }
    assert (Hikf : inodes wf !! i = Some (IReg o p d)).
    { rewrite Hif. exact Hik. }
    assert (Habs : Fs.namei wf true (dest +++ "/" +++ name) = Fs.Absent stkd name).
    { rewrite (namei_child wf true dest name stkd true m entsD Hndf HDf Hmx
                 Hname Hld).
      - now rewrite Hnone.
      - intros i' target Ha. rewrite Hnone in Ha. discriminate. }
    assert (Hfits : len d <= space wf) by (rewrite Hsf; lia).
    destruct (copy_file_creates (src +++ "/" +++ name) (dest +++ "/" +++ name) wf
                ((name, i) :: stks) o p d stkd name true m entsD
                Hnsf Hikf Hr Habs HDf Hmw Hfits)
      as (Hi1 & Hs1 & Hc1 & _).
    clear Hnsf Hndf HDf Hikf Habs Hfits.
    remember (copy_file (src +++ "/" +++ name) (dest +++ "/" +++ name) wf)
      as w1 eqn:E1. clear E1.
    rewrite Hif in Hi1. rewrite Hsf in Hs1. rewrite Hcf, Hc in Hc1.
    clear Hif Hcf Hsf wf.
    apply lookup_lt_Some in HD as HDlt.
    apply lookup_lt_Some in Hik as Hilt.
    assert (HiD : i <> Fs.top stkd).
    { intros E. rewrite E, HD in Hik. discriminate. }
    assert (G1 : grows (inodes wk) (inodes w1)).
    { rewrite Hi1. apply grows_created. }
    assert (HD1 : inodes w1 !! Fs.top stkd
                  = Some (IDir true m (entsD ++ [(name, length (inodes wk))]))).
    { rewrite Hi1. now apply created_dir. }
    assert (Hnd1 : Fs.namei w1 true dest = Fs.Found stkd).
    { apply (namei_grows wk w1); [exact G1|now rewrite Hc1, Hc|exact Hnd']. }
    assert (Htodo1 : forall name' i', In (name', i') rest ->
              In (name', i') ents /\ entry_name name'
              /\ len (src +++ "/" +++ name') < PATH_MAX
              /\ len (dest +++ "/" +++ name') < PATH_MAX
              /\ Fs.assoc name' (entsD ++ [(name, length (inodes wk))]) = None
              /\ exists o p d, inodes w !! i' = Some (IReg o p d)
                               /\ inodes w1 !! i' = Some (IReg o p d)
                               /\ Fs.may Fs.R o p = true).
    { intros name' i' Hin'.
      destruct (Htodo name' i' (or_intror Hin'))
        as (Hin0 & Hname' & Hls' & Hld' & Hnone' & o' & p' & d' & Hi' & Hik' & Hr').
      split; [exact Hin0|]. split; [exact Hname'|]. split; [exact Hls'|].
      split; [exact Hld'|]. split.
      - rewrite assoc_app_ne; [exact Hnone'|].
        intros ->. apply Hfresh.
        change name with (fst (name, i')). now apply List.in_map.
      - exists o', p', d'. split; [exact Hi'|]. split; [|exact Hr'].
        rewrite Hi1, created_other; [exact Hik'| |].
        + intros E. rewrite E, HD in Hik'. discriminate.
        + now apply lookup_lt_Some in Hik'. }
    assert (Hroom1 : list_sum (map (fun e => len (Fs.contents (snd e) w)) rest)
                     <= space w1) by (rewrite Hs1; lia).
    destruct (IH w1 (entsD ++ [(name, length (inodes wk))]) Hnd Htodo1
                 (grows_trans _ _ _ G G1) Hc1 Hnd1 HD1 Hroom1)
      as (w' & Hrun & Hlen & G' & Hc' & Hframe & Hfiles).
    exists w'. split; [exact Hrun|].
    assert (Hl1 : length (inodes w1) = S (length (inodes wk))).
    { rewrite Hi1. apply length_created. }
    split; [rewrite Hlen, Hl1; cbn [length]; lia|].
    split; [exact (grows_trans _ _ _ G1 G')|]. split; [exact Hc'|]. split.
    + intros j Hj Hlt. rewrite Hframe by (rewrite ?Hl1; lia).
      rewrite Hi1. now apply created_other.
    + intros name' i' o' p' d' [E|Hin'] Hi'.
      * inversion E; subst name' i'. rewrite Hi in Hi'.
        inversion Hi'; subst o' p' d'. exists (length (inodes wk)).
        assert (HL1 : inodes w1 !! length (inodes wk)
                      = Some (IReg true (Z.land p Fs.ALLPERMS) d)).
        { rewrite Hi1. apply created_new. }
        split.
        -- apply (namei_grows w1 w'); [exact G'|now rewrite Hc', Hc1|].
           rewrite (namei_child w1 true dest name stkd true m
                      (entsD ++ [(name, length (inodes wk))]) Hnd1 HD1 Hmx
                      Hname Hld).
           ++ now rewrite (assoc_app_none name entsD _ Hnone), HL1.
           ++ intros i' target Ha.
              rewrite (assoc_app_none name entsD _ Hnone) in Ha.
              inversion Ha; subst i'. now rewrite HL1.
        -- rewrite Hframe; [exact HL1|lia|rewrite Hl1; lia].
      * now apply Hfiles with (i := i') (o := o').
Qed.

End Files.

Lemma copy_entry_dot recurse src dest w :
  copy_entry recurse src dest "." w = Some w
  /\ copy_entry recurse src dest ".." w = Some w.
Proof. split; reflexivity. Qed.

Lemma opendir_dir (p : string) (w : world) stk own perm ents :
  Fs.namei w true p = Fs.Found stk ->
  inodes w !! Fs.top stk = Some (IDir own perm ents) ->
  Fs.may Fs.R own perm = true ->
  Fs.opendir p w = (Some ("." :: ".." :: map fst ents), w).
Proof. intros Hn Hd Hr. unfold Fs.opendir. now rewrite Hn, Hd, Hr. Qed.

(** The loop, from a world in which the destination directory is
    there, newly made or not. *)
Lemma copy_directory_after_mkdir (src dest : string) (w : world)
      (stks : Fs.stack) (own : bool) (perm : Z) (ents : list (string * nat))
      (stkd : Fs.stack) (m : Z) (entsD : list (string * nat)) :
  Fs.namei w true src = Fs.Found stks ->
  inodes w !! Fs.top stks = Some (IDir own perm ents) ->
  Fs.may Fs.R own perm = true -> Fs.may Fs.X own perm = true ->
  List.NoDup (map fst ents) ->
  forall w1 : world,
    (exists made, Fs.mkdir dest (octal "755") w = (made, w1)
                  /\ negb made && negb (errno_eqb (errno w1) EEXIST) = false) ->
    grows (inodes w) (inodes w1) -> cwd w1 = cwd w -> space w1 = space w ->
    Fs.namei w1 true dest = Fs.Found stkd ->
    inodes w1 !! Fs.top stkd = Some (IDir true m entsD) ->
    Fs.may Fs.W true m = true -> Fs.may Fs.X true m = true ->
    (forall name i, In (name, i) ents ->
       entry_name name
       /\ len (src +++ "/" +++ name) < PATH_MAX
       /\ len (dest +++ "/" +++ name) < PATH_MAX
       /\ Fs.assoc name entsD = None
       /\ exists o p d, inodes w !! i = Some (IReg o p d)
                        /\ inodes w1 !! i = Some (IReg o p d)
                        /\ Fs.may Fs.R o p = true) ->
    list_sum (map (fun e => len (Fs.contents (snd e) w)) ents) <= space w ->
    exists w',
      copy_directory src dest w = Some w'
      /\ length (inodes w') = length (inodes w1) + length ents
      /\ cwd w' = cwd w
      /\ (exists k, log w' = log w ++ k)
      /\ grows (inodes w1) (inodes w')
      /\ (forall j, j <> Fs.top stkd -> j < length (inodes w1) ->
            inodes w' !! j = inodes w1 !! j)
      /\ (forall name i o p d,
            In (name, i) ents -> inodes w !! i = Some (IReg o p d) ->
            exists j,
              Fs.namei w' true (dest +++ "/" +++ name)
              = Fs.Found ((name, j) :: stkd)
              /\ inodes w' !! j = Some (IReg true (Z.land p Fs.ALLPERMS) d)).
Proof.
  intros Hsrc Hdir Hread Hsearch Hnodup w1 (made & Em & Hgo) G1 Hc1 Hs1 Hnd1 HD1
         Hmw Hmx Hents Hroom.
  assert (Hlater : forall w', copy_directory src dest w = Some w' ->
                              exists k, log w' = log w ++ k).
  { intros w' H. apply copy_directory_at_later in H. exact H. }
  unfold copy_directory in *. rewrite copy_directory_at_body in *.
  unfold copy_directory_body in *.
  rewrite (opendir_dir src w stks own perm ents Hsrc Hdir Hread) in *.
  unfold eprint, random_delay in *. rewrite mkdir_emit in *.
  rewrite Em in *. cbn [fst snd] in *.
  assert (Hgo' : negb made
                 && negb (errno_eqb
                            (errno (emit (Stderr (GRAY +++ "   [INFO] Opened source directory: "
                                                       +++ src +++ NL +++ RESET)) w1))
                            EEXIST) = false) by exact Hgo.
  rewrite Hgo' in *. clear Hgo'.
  cbn [copy_entries] in *.
  rewrite (proj1 (copy_entry_dot _ src dest _)) in *.
  rewrite (proj2 (copy_entry_dot _ src dest _)) in *.
  remember (emit (Stderr (GRAY +++ "   [INFO] Destination directory created or already exists: "
                               +++ dest +++ NL +++ RESET))
                 (emit (Stderr (GRAY +++ "   [INFO] Opened source directory: "
                                     +++ src +++ NL +++ RESET)) w1)) as wk eqn:Ek.
  assert (Hik : inodes wk = inodes w1) by (now rewrite Ek, !inodes_emit).
  assert (Hck : cwd wk = cwd w) by (now rewrite Ek, !cwd_emit).
  assert (Hsk : space wk = space w) by (now rewrite Ek, !space_emit).
  clear Ek.
  assert (Hndk : Fs.namei wk true dest = Fs.Found stkd).
  { rewrite <- Hnd1. apply namei_same; [exact Hik|now rewrite Hck, Hc1]. }
  assert (Htodo : forall name i, In (name, i) ents ->
            In (name, i) ents /\ entry_name name
            /\ len (src +++ "/" +++ name) < PATH_MAX
            /\ len (dest +++ "/" +++ name) < PATH_MAX
            /\ Fs.assoc name entsD = None
            /\ exists o p d, inodes w !! i = Some (IReg o p d)
                             /\ inodes wk !! i = Some (IReg o p d)
                             /\ Fs.may Fs.R o p = true).
  { intros name i Hin. rewrite Hik. split; [exact Hin|]. now apply Hents. }
  assert (Hroomk : list_sum (map (fun e => len (Fs.contents (snd e) w)) ents)
                   <= space wk) by (rewrite Hsk; exact Hroom).
  assert (Gk : grows (inodes w) (inodes wk)) by (rewrite Hik; exact G1).
  assert (HDk : inodes wk !! Fs.top stkd = Some (IDir true m entsD))
    by (rewrite Hik; exact HD1).
  match goal with
  | |- context [copy_entries ?r src dest (map fst ents) wk] =>
      destruct (copy_entries_files r src dest w stks own perm ents Hsrc Hdir
                  Hsearch Hnodup stkd m Hmw Hmx
                  ents wk entsD Hnodup Htodo Gk Hck Hndk HDk Hroomk)
        as (w' & Hrun & Hlen & G' & Hc' & Hframe & Hfiles)
  end.
  rewrite Hrun in *. eexists. split; [reflexivity|].
  rewrite inodes_emit, cwd_emit. rewrite Hik in Hlen, Hframe.
  rewrite Hik in G'.
  split; [exact Hlen|]. split; [exact Hc'|]. split; [now apply Hlater|].
  split; [exact G'|]. split; [exact Hframe|].
  intros name i o p d Hin Hi.
  destruct (Hfiles name i o p d Hin Hi) as (j & Hnj & Hj).
  exists j. split; [|exact Hj].
  rewrite <- Hnj. apply namei_same; reflexivity.
Qed.



(** X16.  The same source copied into a directory that is already
    there -- a directory of the user, which they may write to and
    search, and which has none of the names of the source: [mkdir]
    fails with [EEXIST], which [copy_directory] lets pass, and the
    files are added to the directory.  One inode is new for every
    file; what the destination held, and every other inode, is as it
    was. *)
Theorem copy_directory_merges (src dest : string) (w : world)
        (stks : Fs.stack) (own : bool) (perm : Z) (ents : list (string * nat))
        (stk0 stkd : Fs.stack) (m : Z) (entsD : list (string * nat)) :
  Fs.namei w true src = Fs.Found stks ->
  inodes w !! Fs.top stks = Some (IDir own perm ents) ->
  Fs.may Fs.R own perm = true -> Fs.may Fs.X own perm = true ->
  List.NoDup (map fst ents) ->
  Fs.namei w false dest = Fs.Found stk0 ->
  Fs.namei w true dest = Fs.Found stkd ->
  inodes w !! Fs.top stkd = Some (IDir true m entsD) ->
  Fs.may Fs.W true m = true -> Fs.may Fs.X true m = true ->
  (forall name i, In (name, i) ents ->
     entry_name name
     /\ len (src +++ "/" +++ name) < PATH_MAX
     /\ len (dest +++ "/" +++ name) < PATH_MAX
     /\ Fs.assoc name entsD = None
     /\ exists o p d, inodes w !! i = Some (IReg o p d)
                      /\ Fs.may Fs.R o p = true) ->
  list_sum (map (fun e => len (Fs.contents (snd e) w)) ents) <= space w ->
  exists w',
    copy_directory src dest w = Some w'
    /\ length (inodes w') = length (inodes w) + length ents
    /\ (forall j, j <> Fs.top stkd -> j < length (inodes w) ->
          inodes w' !! j = inodes w !! j)
    /\ (forall name i, Fs.assoc name entsD = Some i ->
          exists entsD', inodes w' !! Fs.top stkd = Some (IDir true m entsD')
                         /\ Fs.assoc name entsD' = Some i)
    /\ forall name i o p d,
        In (name, i) ents -> inodes w !! i = Some (IReg o p d) ->
        exists stk',
          Fs.namei w' true (dest +++ "/" +++ name) = Fs.Found stk'
          /\ inodes w' !! Fs.top stk'
             = Some (IReg true (Z.land p Fs.ALLPERMS) d).
Proof.
  intros Hsrc Hdir Hread Hsearch Hnodup Hthere Hnd HD Hmw Hmx Hents Hroom.
  pose proof (mkdir_exists dest (octal "755") w stk0 Hthere) as Em.
  destruct (copy_directory_after_mkdir src dest w stks own perm ents
              stkd m entsD Hsrc Hdir Hread Hsearch Hnodup (set_errno EEXIST w)
              (ex_intro _ false (conj Em eq_refl)) (grows_refl _) eq_refl eq_refl
              Hnd HD Hmw Hmx)
    as (w' & Hrun & Hlen & _ & _ & G & Hframe & Hfiles).
  { intros name i Hin.
    destruct (Hents name i Hin) as (H1 & H2 & H3 & H4 & o & p & d & Hi & Hr).
    split; [exact H1|]. split; [exact H2|]. split; [exact H3|].
    split; [exact H4|]. exists o, p, d. split; [exact Hi|]. split; [exact Hi|exact Hr]. }
  { exact Hroom. }
  rewrite inodes_set_errno in Hlen, G, Hframe.
  exists w'. split; [exact Hrun|]. split; [exact Hlen|]. split; [exact Hframe|].
  split.
  - intros name i Ha. destruct (G _ _ HD) as (n' & Hn' & Hg).
    destruct n' as [|own' perm' entsD'| |]; try contradiction.
    destruct Hg as (-> & -> & Hkeep). exists entsD'. split; [exact Hn'|].
    now apply Hkeep.
  - intros name i o p d Hin Hi.
    destruct (Hfiles name i o p d Hin Hi) as (j & Hnj & Hj).
    exists ((name, j) :: stkd). split; [exact Hnj|exact Hj].
Qed.

(** [docs/sub] copied into the directory [/media/pi/piBackup]. *)
Lemma copy_directory_merges_witness :
  exists w',
    copy_directory "docs/sub" "/media/pi/piBackup" Sample.w0 = Some w'
    /\ length (inodes w') = length (inodes Sample.w0) + 1.
Proof.
  destruct (copy_directory_merges "docs/sub" "/media/pi/piBackup" Sample.w0
              [("sub", 8); ("docs", 3); ("pi", 2); ("home", 1)]
              true (octal "700") [("b.txt", 12)]
              [("piBackup", 11); ("pi", 10); ("media", 9)]
              [("piBackup", 11); ("pi", 10); ("media", 9)]
              (octal "755") [])
    as (w' & Hrun & Hlen & _).
  - vm_compute. reflexivity.
  - vm_compute. reflexivity.
  - vm_compute. reflexivity.
  - vm_compute. reflexivity.
  - repeat constructor. simpl. tauto.
  - vm_compute. reflexivity.
  - vm_compute. reflexivity.
  - vm_compute. reflexivity.
  - vm_compute. reflexivity.
  - vm_compute. reflexivity.
  - intros name i [E|[]]. inversion E; subst name i.
    split; [|split; [|split; [|split]]].
    + unfold entry_name. vm_compute. repeat split; try discriminate; lia.
    + vm_compute. lia.
    + vm_compute. lia.
    + reflexivity.
    + exists true, (octal "600"), "world". split; vm_compute; reflexivity.
  - vm_compute. lia.
  - exists w'. split; [exact Hrun|exact Hlen].
Defined.

(** X17.  A plain run on a source directory that holds readable
    regular files only, the time-stamped directory being free and not
    in the source directory itself, on a device with room: [main]
    returns 0 after [Backup completed successfully!]; the backup
    directory and one file for every entry are new, nothing else is;
    every file of the source is in the backup directory under its name,
    with the same bytes and the same permission bits, and is itself
    unchanged. *)
Theorem main_backs_up_files (prog source target b : string) (w : world)
        (stks stk0 : Fs.stack) (name0 : string)
        (own : bool) (perm : Z) (ents : list (string * nat)) :
  starts_with "-" source = false -> len source < PATH_MAX ->
  Fs.namei w true source = Fs.Found stks ->
  inodes w !! Fs.top stks = Some (IDir own perm ents) ->
  Fs.may Fs.R own perm = true -> Fs.may Fs.X own perm = true ->
  List.NoDup (map fst ents) ->
  (forall name i, In (name, i) ents ->
     entry_name name
     /\ len (source +++ "/" +++ name) < PATH_MAX
     /\ len (b +++ "/" +++ name) < PATH_MAX
     /\ exists o p d, inodes w !! i = Some (IReg o p d)
                      /\ Fs.may Fs.R o p = true) ->
  fst (read_default_backup_dir w) = target ->
  fst (create_timestamped_dir target w) = Done b ->
  Fs.namei w false b = Fs.Absent stk0 name0 -> Fs.top stk0 <> Fs.top stks ->
  fst (Fs.mkdir b (octal "755") w) = true ->
  Fs.may Fs.W true (Fs.masked (octal "755") w) = true ->
  Fs.may Fs.X true (Fs.masked (octal "755") w) = true ->
  list_sum (map (fun e => len (Fs.contents (snd e) w)) ents) <= space w ->
  let r := main prog [source] w in
  fst r = Done 0%Z
  /\ length (inodes (snd r)) = length (inodes w) + 1 + length ents
  /\ (forall name i o p d,
        In (name, i) ents -> inodes w !! i = Some (IReg o p d) ->
        inodes (snd r) !! i = Some (IReg o p d)
        /\ exists stk',
            Fs.namei (snd r) true (b +++ "/" +++ name) = Fs.Found stk'
            /\ inodes (snd r) !! Fs.top stk'
               = Some (IReg true (Z.land p Fs.ALLPERMS) d))
  /\ exists k,
      log (snd r) = log w ++ k ++ [Stdout ("Backup completed successfully!" +++ NL)].
Proof.
  intros Hop Hlen Hsrc Hdir Hread Hsearch Hnodup Hents Htarget Hstamp Hn0 Hpar
         Hmk Hmw Hmx Hroom. cbv zeta.
  destruct (main_backup prog source target b (Fs.st_mode (IDir own perm ents)) w
              Hop Hlen) as (w6 & k & H6 & L6 & ->); try assumption.
  { now rewrite (stat_found source w stks _ Hsrc Hdir). }
  { now rewrite S_ISDIR_inode. }
  pose proof (same_fs_mkdir w w6 b (octal "755") H6) as Hm.
  rewrite Hmk in Hm.
  destruct (Fs.mkdir b (octal "755") w6) as [made w7] eqn:Em.
  cbn [fst] in Hm. subst made.
  destruct (mkdir_made _ _ _ _ Em) as (stk0' & name0' & Hn0' & E7 & Hf7 & Hnew7).
  rewrite (same_fs_namei w w6 false b H6), Hn0 in Hn0'.
  inversion Hn0'; subst stk0' name0'; clear Hn0' Em.
  destruct H6 as (Hi6 & Hs6 & Hc6 & _ & Hu6 & _).
  assert (Hmask : Fs.masked (octal "755") w6 = Fs.masked (octal "755") w).
  { unfold Fs.masked. now rewrite Hu6. }
  rewrite Hmask, Hi6 in *.
  remember (Fs.masked (octal "755") w) as m eqn:Emask. clear Emask Hmask.
  cbv zeta. unfold print, eprint, random_delay.
  remember (emit (Stderr (GRAY +++ "[DEBUG] Starting backup process." +++ NL
                               +++ RESET))
                 (emit (Stdout ("Backing up '" +++ source +++ "' to '" +++ b
                                  +++ "'" +++ NL)) w7)) as w9 eqn:E9.
  assert (Hi9 : inodes w9
                = created (Fs.top stk0) name0 (IDir true m []) (inodes w)).
  { rewrite E9, !inodes_emit, E7. apply inodes_set_inodes. }
  assert (Hc9 : cwd w9 = cwd w).
  { rewrite E9, !cwd_emit, E7, cwd_set_inodes. exact Hc6. }
  assert (Hs9 : space w9 = space w).
  { rewrite E9, !space_emit, E7, space_set_inodes. exact Hs6. }
  assert (L9 : log w9
               = log w ++ k
                   ++ [Stdout ("Backing up '" +++ source +++ "' to '" +++ b
                                 +++ "'" +++ NL);
                       Stderr (GRAY +++ "[DEBUG] Starting backup process." +++ NL
                                    +++ RESET)]).
  { rewrite E9, !log_emit, E7, log_set_inodes, L6, <- !List.app_assoc.
    reflexivity. }
  assert (Hf9 : Fs.namei w9 false b
                = Fs.Found ((name0, length (inodes w)) :: stk0)).
  { rewrite <- Hf7. apply namei_same.
    - rewrite Hi9, E7. symmetry. apply inodes_set_inodes.
    - rewrite Hc9, E7, cwd_set_inodes. symmetry. exact Hc6. }
  assert (HD9 : inodes w9 !! length (inodes w) = Some (IDir true m [])).
  { rewrite Hi9. apply created_new. }
  clear E9 E7 Hf7 Hnew7 w7 L6 Hi6 Hs6 Hc6 Hu6 w6.
  destruct (namei_absent_dir _ _ _ _ _ Hn0) as (o0 & p0 & e0 & Hd0 & _).
  assert (Hkeep : forall i n, inodes w !! i = Some n -> i <> Fs.top stk0 ->
                              inodes w9 !! i = Some n).
  { intros i n Hi Hne. rewrite Hi9, created_other; [exact Hi|exact Hne|].
    now apply lookup_lt_Some in Hi. }
  assert (Hfile : forall i o p d, inodes w !! i = Some (IReg o p d) ->
                                  inodes w9 !! i = Some (IReg o p d)).
  { intros i o p d Hi. apply Hkeep; [exact Hi|].
    intros E. rewrite E, Hd0 in Hi. discriminate. }
  assert (G9 : grows (inodes w) (inodes w9)).
  { rewrite Hi9. apply grows_created. }
  assert (Hsrc9 : Fs.namei w9 true source = Fs.Found stks).
  { apply (namei_grows w w9); [exact G9|exact Hc9|exact Hsrc]. }
  assert (Hdir9 : inodes w9 !! Fs.top stks = Some (IDir own perm ents)).
  { apply Hkeep; [exact Hdir|]. intros E. apply Hpar. now rewrite E. }
  assert (Hnd9 : Fs.namei (set_errno EEXIST w9) true b
                 = Fs.Found ((name0, length (inodes w)) :: stk0)).
  { assert (H : Fs.namei w9 true b
                = Fs.Found ((name0, length (inodes w)) :: stk0)).
    { apply namei_follow; [exact Hf9|]. cbn [Fs.top]. intros n Hn.
      rewrite HD9 in Hn. now inversion Hn. }
    rewrite <- H. apply namei_same; reflexivity. }
  assert (Hroom9 : list_sum (map (fun e => len (Fs.contents (snd e) w9)) ents)
                   <= space w9).
  { rewrite Hs9. erewrite List.map_ext_in; [exact Hroom|].
    intros [name i] Hin. cbn [snd].
    destruct (Hents name i Hin) as (_ & _ & _ & o & p & d & Hi & _).
    unfold Fs.contents. now rewrite (Hfile i o p d Hi), Hi. }
  destruct (copy_directory_after_mkdir source b w9 stks own perm ents
              ((name0, length (inodes w)) :: stk0) m []
              Hsrc9 Hdir9 Hread Hsearch Hnodup (set_errno EEXIST w9)
              (ex_intro _ false
                 (conj (mkdir_exists b (octal "755") w9 _ Hf9) eq_refl))
              (grows_refl _) eq_refl eq_refl Hnd9 HD9 Hmw Hmx)
    as (w' & Hrun & Hlen' & _ & (k' & Hk') & _ & Hframe & Hfiles).
  { intros name i Hin.
    destruct (Hents name i Hin) as (H1 & H2 & H3 & o & p & d & Hi & Hr).
    split; [exact H1|]. split; [exact H2|]. split; [exact H3|].
    split; [reflexivity|]. exists o, p, d.
    split; [now apply Hfile|]. split; [now apply Hfile|exact Hr]. }
  { exact Hroom9. }
  rewrite Hrun. cbn [fst snd].
  rewrite inodes_set_errno in Hlen', Hframe.
  assert (Hl9 : length (inodes w9) = S (length (inodes w))).
  { rewrite Hi9. apply length_created. }
  split; [reflexivity|]. split; [rewrite !inodes_emit, Hlen', Hl9; lia|]. split.
  - intros name i o p d Hin Hi. rewrite !inodes_emit. split.
    + apply lookup_lt_Some in Hi as Hlt. cbn [Fs.top] in Hframe.
      rewrite Hframe by lia. now apply Hfile.
    + destruct (Hfiles name i o p d Hin (Hfile i o p d Hi)) as (j & Hnj & Hj).
      exists ((name, j) :: (name0, length (inodes w)) :: stk0). split.
      * rewrite <- Hnj. apply namei_same; reflexivity.
      * exact Hj.
  - exists (k ++ [Stdout ("Backing up '" +++ source +++ "' to '" +++ b
                            +++ "'" +++ NL);
                  Stderr (GRAY +++ "[DEBUG] Starting backup process." +++ NL
                               +++ RESET)]
              ++ k'
              ++ [Stderr (GRAY +++ "[DEBUG] Backup process completed successfully."
                            +++ NL +++ RESET)]).
    rewrite !log_emit, Hk', L9, <- !List.app_assoc. reflexivity.
Qed.

(** [backup docs/sub] on the sample machine. *)
Lemma main_backs_up_files_witness :
  fst (main "backup" ["docs/sub"] Sample.w0) = Done 0%Z.
Proof.
  destruct (main_backs_up_files "backup" "docs/sub" "/media/pi/piBackup"
              "/media/pi/piBackup/Backup 2024-11-05 09-03-07" Sample.w0
              [("sub", 8); ("docs", 3); ("pi", 2); ("home", 1)]
              [("piBackup", 11); ("pi", 10); ("media", 9)]
              "Backup 2024-11-05 09-03-07"
              true (octal "700") [("b.txt", 12)])
    as (H & _).
  - reflexivity.
  - vm_compute. lia.
  - vm_compute. reflexivity.
  - vm_compute. reflexivity.
  - vm_compute. reflexivity.
  - vm_compute. reflexivity.
  - repeat constructor. simpl. tauto.
  - intros name i [E|[]]. inversion E; subst name i.
    split; [|split; [|split]].
    + unfold entry_name. vm_compute. repeat split; try discriminate; lia.
    + vm_compute. lia.
    + vm_compute. lia.
    + exists true, (octal "600"), "world". split; vm_compute; reflexivity.
  - vm_compute. reflexivity.
  - vm_compute. reflexivity.
  - vm_compute. reflexivity.
  - vm_compute. discriminate.
  - vm_compute. reflexivity.
  - vm_compute. reflexivity.
  - vm_compute. reflexivity.
  - vm_compute. lia.
  - exact H.
Defined.

(** ** Nothing is removed *)

Section Extends.

Lemma extends_refl (w : world) : extends w w.
Proof. split; [apply grows_refl|reflexivity]. Qed.

Lemma extends_trans (a b c : world) : extends a b -> extends b c -> extends a c.
Proof.
  intros [G1 C1] [G2 C2]. split; [eapply grows_trans; eassumption|].
  now rewrite C2.
Qed.

Lemma extends_emit (ev : event) (w : world) : extends w (emit ev w).
Proof. split; [apply grows_refl|reflexivity]. Qed.

Lemma extends_set_errno (e : errno_t) (w : world) : extends w (set_errno e w).
Proof. split; [apply grows_refl|reflexivity]. Qed.

Lemma extends_same (w w' : world) :
  inodes w' = inodes w -> cwd w' = cwd w -> extends w w'.
Proof. intros Hi Hc. split; [rewrite Hi; apply grows_refl|exact Hc]. Qed.

Lemma extends_namei (w w' : world) follow p s :
  extends w w' -> Fs.namei w follow p = Fs.Found s ->
  Fs.namei w' follow p = Fs.Found s.
Proof. intros [G C]. now apply namei_grows. Qed.

Lemma extends_stat p w : extends w (snd (Fs.stat p w)).
Proof.
  destruct (Fs.stat p w) as [r w'] eqn:E.
  apply stat_world in E as (Hi & _ & _ & Hc). now apply extends_same.
Qed.

Lemma extends_opendir p w : extends w (snd (Fs.opendir p w)).
Proof.
  destruct (Fs.opendir p w) as [r w'] eqn:E.
  apply opendir_world in E as (Hi & _ & _ & Hc). now apply extends_same.
Qed.

Lemma extends_fopen_r p w : extends w (snd (Fs.fopen_r p w)).
Proof.
  destruct (Fs.fopen_r p w) as [[f|] w'] eqn:E; cbn [snd].
  - apply fopen_r_some in E as ->. apply extends_refl.
  - apply fopen_r_none in E as [e ->]. apply extends_set_errno.
Qed.

Lemma extends_mkdir p mode w : extends w (snd (Fs.mkdir p mode w)).
Proof.
  destruct (Fs.mkdir p mode w) as [[] w'] eqn:E; cbn [snd].
  - apply mkdir_true in E as (stk & name & _ & ->).
    split; [apply grows_created|reflexivity].
  - apply mkdir_false in E as [e ->]. apply extends_set_errno.
Qed.

Lemma extends_fopen_w p w : extends w (snd (Fs.fopen_w p w)).
Proof.
  destruct (Fs.fopen_w p w) as [[d|] w'] eqn:E; cbn [snd].
  - apply fopen_w_some in E as ((t1 & -> & G & _) & _).
    split; [exact G|reflexivity].
  - apply fopen_w_none in E as [e ->]. apply extends_set_errno.
Qed.

Lemma extends_write i buf w : extends w (snd (Fs.write i buf w)).
Proof.
  unfold Fs.write.
  destruct (inodes w !! i) as [[own perm data| | |]|] eqn:Ei; cbn [snd];
    try apply extends_set_errno; try apply extends_refl.
  assert (G : grows (inodes w)
                (<[i := IReg own perm
                          (data +++ take (Nat.min (len buf) (space w)) buf)]>
                   (inodes w))).
  { eapply grows_insert; [exact Ei|exact I]. }
  destruct (_ <? _); (split; [exact G|reflexivity]).
Qed.

Lemma extends_copy_loop src dest s d :
  forall fuel off w, extends w (copy_loop fuel src dest s d off w).
Proof.
  induction fuel as [|fuel IH]; intros off w; cbn [copy_loop];
    [apply extends_refl|].
  destruct (len (fread s off w) =? 0); [apply extends_refl|].
  pose proof (extends_write d (fread s off w) w) as L.
  destruct (Fs.write d (fread s off w) w) as [written w1]. cbn [snd] in L.
  destruct (written =? len (fread s off w)).
  - eapply extends_trans; [exact L | apply IH].
  - unfold eprint, perror, random_delay.
    eapply extends_trans; [exact L|].
    eapply extends_trans; apply extends_emit.
Qed.

(** [chmod] on a path that does not name a directory. *)
Lemma extends_chmod p mode w :
  (forall stk own perm ents,
     Fs.namei w true p = Fs.Found stk ->
     inodes w !! Fs.top stk <> Some (IDir own perm ents)) ->
  extends w (snd (Fs.chmod p mode w)).
Proof.
  intros Hnd. unfold Fs.chmod.
  destruct (Fs.namei w true p) as [stk| | |] eqn:En; cbn [snd];
    try apply extends_set_errno.
  specialize (Hnd stk).
  destruct (inodes w !! Fs.top stk) as [[[] ? ?|[] ? ?| |? [] ?]|] eqn:Ei;
    cbn [snd]; try apply extends_set_errno.
  - split; [|reflexivity]. eapply grows_insert; [exact Ei|exact I].
  - now contradiction (Hnd true perm entries eq_refl).
  - split; [|reflexivity]. eapply grows_insert; [exact Ei|exact I].
Qed.

(** What [fopen(dest, "w")] has opened is no directory, and is none
    later. *)
Lemma fopen_w_no_dir (p : string) (w w1 w2 : world) (d : nat) :
  Fs.fopen_w p w = (Some d, w1) -> extends w1 w2 ->
  forall stk own perm ents,
    Fs.namei w2 true p = Fs.Found stk ->
    inodes w2 !! Fs.top stk <> Some (IDir own perm ents).
Proof.
  intros E X stk own perm ents Hn Hi.
  apply fopen_w_some in E as (_ & (stk1 & Hn1 & Ht1) & Hkind).
  rewrite (extends_namei w1 w2 true p stk1 X Hn1) in Hn.
  inversion Hn; subst stk; clear Hn. rewrite Ht1 in Hi.
  destruct X as [G _].
  destruct Hkind as [(o & pm & Hd1 & _)|(kind & o & pm & Hd & Hsame)].
  - destruct (G _ _ Hd1) as (n' & Hn' & Hg). rewrite Hi in Hn'.
    inversion Hn'; subst n'. exact Hg.
  - rewrite <- Hsame in Hd. destruct (G _ _ Hd) as (n' & Hn' & Hg).
    rewrite Hi in Hn'. inversion Hn'; subst n'. exact Hg.
Qed.

Lemma extends_copy_file src dest w : extends w (copy_file src dest w).
Proof.
  unfold copy_file, eprint, perror, random_delay.
  pose proof (extends_fopen_r src w) as X1.
  destruct (Fs.fopen_r src w) as [[f|] w1]; cbn [snd] in X1.
  2:{ eapply extends_trans; [exact X1|].
      eapply extends_trans; apply extends_emit. }
  rewrite fopen_w_emit.
  pose proof (extends_fopen_w dest w1) as X2.
  destruct (Fs.fopen_w dest w1) as [[d|] w2] eqn:Ew; cbn [fst snd] in *.
  2:{ eapply extends_trans; [exact X1|]. eapply extends_trans; [exact X2|].
      eapply extends_trans; [apply extends_emit|].
      eapply extends_trans; apply extends_emit. }
  remember (emit (Stderr (GRAY +++ "   [INFO] Created destination file: " +++ dest
                               +++ NL +++ RESET))
                 (emit (Stderr (GRAY +++ "   [INFO] Opened source file: " +++ src
                                     +++ NL +++ RESET)) w2)) as wc eqn:Ec.
  assert (X3 : extends w2 wc).
  { rewrite Ec. eapply extends_trans; apply extends_emit. }
  clear Ec.
  pose proof (extends_copy_loop src dest f d (S (len (Fs.contents f wc))) 0 wc)
    as X4.
  remember (copy_loop (S (len (Fs.contents f wc))) src dest f d 0 wc) as wl eqn:El.
  clear El.
  remember (emit (Stderr (GRAY +++ "   [INFO] File copy completed: " +++ src
                               +++ " -> " +++ dest +++ NL +++ RESET)) wl)
    as wd eqn:Ed.
  assert (X5 : extends wl wd) by (rewrite Ed; apply extends_emit).
  clear Ed.
  assert (X25 : extends w2 wd).
  { eapply extends_trans; [exact X3|]. eapply extends_trans; eassumption. }
  assert (X05 : extends w wd).
  { eapply extends_trans; [exact X1|]. eapply extends_trans; eassumption. }
  pose proof (extends_stat src wd) as X6.
  destruct (Fs.stat src wd) as [[st_mode|] w6]; cbn [snd] in X6.
  2:{ eapply extends_trans; eassumption. }
  assert (X26 : extends w2 w6) by (eapply extends_trans; eassumption).
  pose proof (extends_chmod dest st_mode w6
                (fopen_w_no_dir dest w1 w2 w6 d Ew X26)) as X7.
  destruct (Fs.chmod dest st_mode w6) as [[] w7]; cbn [snd] in X7.
  - eapply extends_trans; [exact X05|]. eapply extends_trans; [exact X6|].
    eapply extends_trans; [exact X7|]. apply extends_emit.
  - eapply extends_trans; [exact X05|]. eapply extends_trans; [exact X6|].
    eapply extends_trans; [exact X7|].
    eapply extends_trans; apply extends_emit.
Qed.

End Extends.

Section Extends_directory.

Variable recurse : string -> string -> world -> option world.
Hypothesis recurse_extends :
  forall s d w w', recurse s d w = Some w' -> extends w w'.

Lemma extends_copy_entry (src dest d_name : string) (w w' : world) :
  copy_entry recurse src dest d_name w = Some w' -> extends w w'.
Proof.
  unfold copy_entry, eprint, perror, random_delay.
  destruct (_ || _); [intros H; inversion H; apply extends_refl|].
  pose proof (extends_stat (child_path src d_name) w) as X1.
  destruct (Fs.stat (child_path src d_name) w) as [[m|] w1]; cbn [snd] in X1.
  - destruct (Fs.S_ISDIR m).
    + destruct (_ && _); [discriminate|]. intros H.
      apply recurse_extends in H.
      eapply extends_trans; [exact X1|].
      eapply extends_trans; [apply extends_emit|exact H].
    + destruct (Fs.S_ISREG m); intros H; inversion H; subst w'; clear H.
      * eapply extends_trans; [exact X1|].
        eapply extends_trans; [apply extends_emit|apply extends_copy_file].
      * eapply extends_trans; [exact X1|apply extends_emit].
  - intros H; inversion H; subst w'; clear H.
    eapply extends_trans; [exact X1|].
    eapply extends_trans; apply extends_emit.
Qed.

Lemma extends_copy_entries (src dest : string) :
  forall names w w',
    copy_entries recurse src dest names w = Some w' -> extends w w'.
Proof.
  induction names as [|n r IH]; intros w w' H; cbn [copy_entries] in H.
  - inversion H. apply extends_refl.
  - destruct (copy_entry recurse src dest n w) as [w1|] eqn:E; [|discriminate].
    apply extends_copy_entry in E. eapply extends_trans; [exact E|].
    now apply IH.
Qed.

Lemma extends_copy_directory_body (src dest : string) (w w' : world) :
  copy_directory_body recurse src dest w = Some w' -> extends w w'.
Proof.
  unfold copy_directory_body, eprint, perror, random_delay.
  pose proof (extends_opendir src w) as X1.
  destruct (Fs.opendir src w) as [[names|] w1]; cbn [snd] in X1.
  2:{ intros H; inversion H; subst w'; clear H.
      eapply extends_trans; [exact X1|].
      eapply extends_trans; apply extends_emit. }
  rewrite mkdir_emit.
  pose proof (extends_mkdir dest (octal "755") w1) as X2.
  destruct (Fs.mkdir dest (octal "755") w1) as [made w2]; cbn [fst snd] in *.
  destruct (_ && _).
  - intros H; inversion H; subst w'; clear H.
    eapply extends_trans; [exact X1|]. eapply extends_trans; [exact X2|].
    eapply extends_trans; [apply extends_emit|].
    eapply extends_trans; apply extends_emit.
  - destruct (copy_entries recurse src dest names _) as [w3|] eqn:E;
      [|discriminate].
    apply extends_copy_entries in E.
    intros H; inversion H; subst w'; clear H.
    eapply extends_trans; [exact X1|]. eapply extends_trans; [exact X2|].
    eapply extends_trans; [apply extends_emit|].
    eapply extends_trans; [apply extends_emit|].
    eapply extends_trans; [exact E|apply extends_emit].
Qed.

End Extends_directory.

Lemma grows_length (t t' : list inode) : grows t t' -> length t <= length t'.
Proof.
  intros G. destruct (Nat.le_gt_cases (length t) (length t')) as [|Hlt];
    [assumption|].
  destruct (lookup_lt_is_Some_2 t (length t - 1) ltac:(lia)) as [x Hx].
  destruct (G _ _ Hx) as (n' & Hn' & _).
  apply lookup_lt_Some in Hn'. lia.
Qed.

Lemma extends_copy_directory_at :
  forall depth src dest w w',
    copy_directory_at depth src dest w = Some w' -> extends w w'.
Proof.
  induction depth as [|depth IH]; intros src dest w w' H;
    rewrite copy_directory_at_body in H;
    apply extends_copy_directory_body in H; try exact H.
  - discriminate.
  - exact IH.
Qed.

(** X18.  [copy_directory] removes and renames nothing: when it
    returns, every inode there was is still there with its type; a
    directory has the owner and the mode it had and every entry it had;
    a symbolic link has its target; so that every path that named
    something names the same thing. *)
Theorem copy_directory_keeps (src dest : string) (w w' : world) :
  copy_directory src dest w = Some w' ->
  grows (inodes w) (inodes w')
  /\ length (inodes w) <= length (inodes w')
  /\ forall follow p stk,
      Fs.namei w follow p = Fs.Found stk -> Fs.namei w' follow p = Fs.Found stk.
Proof.
  intros H. apply extends_copy_directory_at in H. pose proof H as [G C].
  split; [exact G|]. split.
  - now apply grows_length.
  - intros follow p stk. now apply extends_namei.
Qed.

(** [docs] copied to [/media/pi/piBackup/new]: [docs/link] is still the
    link it was. *)
Lemma copy_directory_keeps_witness :
  grows (inodes Sample.w0) (inodes Sample.copied).
Proof.
  apply (copy_directory_keeps "docs" Sample.dest Sample.w0 Sample.copied).
  vm_compute. reflexivity.
Defined.

Section Extends_main.

Lemma same_fs_extends (w w' : world) : same_fs w w' -> extends w w'.
Proof. intros (Hi & _ & Hc & _). now apply extends_same. Qed.

Lemma extends_ensure_config_dir_exists cfg w :
  extends w (ensure_config_dir_exists cfg w).
Proof.
  unfold ensure_config_dir_exists, eprint, perror, random_delay.
  rewrite mkdir_emit.
  pose proof (extends_mkdir (dirname cfg) (octal "755") w) as X.
  destruct (Fs.mkdir (dirname cfg) (octal "755") w) as [[] w1];
    cbn [fst snd] in *.
  - eapply extends_trans; [exact X|apply extends_emit].
  - destruct (negb _).
    + eapply extends_trans; [exact X|].
      eapply extends_trans; apply extends_emit.
    + eapply extends_trans; [exact X|].
      eapply extends_trans; apply extends_emit.
Qed.

Lemma extends_store cfg c w : extends w (store cfg c w).
Proof.
  rewrite store_unfold.
  pose proof (extends_fopen_w cfg w) as X1.
  destruct (Fs.fopen_w cfg w) as [[f|] w3]; cbn [snd] in X1.
  - eapply extends_trans; [exact X1|].
    eapply extends_trans; [apply extends_write|apply extends_emit].
  - eapply extends_trans; [exact X1|apply extends_emit].
Qed.

Lemma extends_write_default_backup_dir c w :
  extends w (write_default_backup_dir c w).
Proof.
  rewrite write_default_backup_dir_unfold.
  eapply extends_trans; [apply extends_ensure_config_dir_exists|].
  eapply extends_trans; [apply extends_emit|apply extends_store].
Qed.

Lemma extends_backup source target w : extends w (snd (backup source target w)).
Proof.
  unfold backup, print, eprint, perror, random_delay.
  set (w1 := emit _ w).
  assert (X1 : extends w w1) by apply extends_emit. clearbody w1.
  pose proof (same_fs_extends _ _ (create_timestamped_dir_same_fs target w1)) as X2.
  destruct (create_timestamped_dir target w1) as [[b| | |] w2]; cbn [snd] in *;
    try (eapply extends_trans; eassumption).
  pose proof (extends_mkdir b (octal "755") w2) as X3.
  destruct (Fs.mkdir b (octal "755") w2) as [[] w3]; cbn [snd] in *.
  - set (w4 := emit _ (emit _ w3)).
    assert (X4 : extends w3 w4) by (eapply extends_trans; apply extends_emit).
    clearbody w4.
    assert (X04 : extends w w4).
    { eapply extends_trans; [exact X1|]. eapply extends_trans; [exact X2|].
      eapply extends_trans; eassumption. }
    destruct (copy_directory source b w4) as [w5|] eqn:E; cbn [snd].
    + apply extends_copy_directory_at in E.
      eapply extends_trans; [exact X04|]. eapply extends_trans; [exact E|].
      eapply extends_trans; apply extends_emit.
    + exact X04.
  - eapply extends_trans; [exact X1|]. eapply extends_trans; [exact X2|].
    eapply extends_trans; [exact X3|apply extends_emit].
Qed.

End Extends_main.

(** X19.  Whatever its arguments and however it ends, [main] removes
    and renames nothing: every inode is still there with its type, a
    directory with its owner, its mode and the entries it had, a
    symbolic link with its target; every path that named something
    names the same thing afterwards. *)
Theorem main_keeps (prog : string) (args : list string) (w : world) :
  grows (inodes w) (inodes (snd (main prog args w)))
  /\ length (inodes w) <= length (inodes (snd (main prog args w)))
  /\ forall follow p stk,
      Fs.namei w follow p = Fs.Found stk ->
      Fs.namei (snd (main prog args w)) follow p = Fs.Found stk.
Proof.
  assert (X : extends w (snd (main prog args w))).
  { unfold main, print, eprint, perror, random_delay.
    set (w1 := emit _ w).
    assert (X1 : extends w w1) by apply extends_emit. clearbody w1.
    pose proof (same_fs_extends _ _
                  (option_loop_same_fs prog args DEFAULT_TARGET_DIR false [] w1))
      as X2.
    destruct (option_loop prog args DEFAULT_TARGET_DIR false [] w1)
      as [[[target_dir update_default operands]| | |] w2]; cbn [snd] in *;
      try (eapply extends_trans; eassumption).
    assert (X02 : extends w w2) by (eapply extends_trans; eassumption).
    destruct update_default; cbn [snd].
    - eapply extends_trans; [exact X02|].
      eapply extends_trans; [apply extends_emit|].
      eapply extends_trans; [apply extends_write_default_backup_dir|].
      apply extends_emit.
    - set (w3 := emit _ w2).
      assert (X3 : extends w2 w3) by apply extends_emit. clearbody w3.
      pose proof (same_fs_extends _ _ (read_default_backup_dir_same_fs w3)) as X4.
      destruct (read_default_backup_dir w3) as [target w4]; cbn [snd] in *.
      assert (X04 : extends w w4).
      { eapply extends_trans; [exact X02|]. eapply extends_trans; eassumption. }
      destruct operands as [|operand rest]; cbn [snd].
      + eapply extends_trans; [exact X04|].
        eapply extends_trans; apply extends_emit.
      + destruct (PATH_MAX <=? len operand); cbn [snd]; [exact X04|].
        set (w5 := emit _ w4).
        assert (X5 : extends w4 w5) by apply extends_emit. clearbody w5.
        pose proof (extends_stat operand w5) as X6.
        destruct (Fs.stat operand w5) as [[m|] w6]; cbn [snd] in *.
        * destruct (Fs.S_ISDIR m); cbn [snd].
          -- eapply extends_trans; [exact X04|].
             eapply extends_trans; [exact X5|].
             eapply extends_trans; [exact X6|apply extends_backup].
          -- eapply extends_trans; [exact X04|].
             eapply extends_trans; [exact X5|].
             eapply extends_trans; [exact X6|apply extends_emit].
        * eapply extends_trans; [exact X04|].
          eapply extends_trans; [exact X5|].
          eapply extends_trans; [exact X6|apply extends_emit]. }
  remember (snd (main prog args w)) as w' eqn:E. clear E.
  destruct X as [G C]. split; [exact G|]. split; [now apply grows_length|].
  intros follow p stk. now apply namei_grows.
Qed.

(** ** copy_directory: trees *)

Section Tree_facts.

(** The recursive equation of [copy_directory]. *)
Lemma copy_directory_unfold (src dest : string) (w : world) :
  copy_directory src dest w = copy_directory_body copy_directory src dest w.
Proof.
  unfold copy_directory at 1. rewrite copy_directory_at_body.
  apply copy_directory_body_ext. intros Hs Hd d_name w' Hne.
  destruct (child_path_len src d_name Hs) as [[Hs1 Hs2] Hs3].
  destruct (child_path_len dest d_name Hd) as [[Hd1 Hd2] Hd3].
  assert (Hroom : room (child_path src d_name) (child_path dest d_name)
                  < room src dest).
  { unfold room. destruct Hne as [H|H]; [apply Hs3 in H|apply Hd3 in H]; lia. }
  destruct (room src dest) as [|d]; [lia|].
  apply copy_directory_depth. lia.
Qed.

Lemma mkdir_absent (p : string) (mode : Z) (w : world) stk name own perm ents :
  Fs.namei w false p = Fs.Absent stk name ->
  inodes w !! Fs.top stk = Some (IDir own perm ents) ->
  Fs.may Fs.W own perm = true ->
  Fs.mkdir p mode w
  = (true, set_inodes (created (Fs.top stk) name
                                (IDir true (Fs.masked mode w) []) (inodes w)) w).
Proof.
  intros Hn Hd Hw. unfold Fs.mkdir, Fs.create. now rewrite Hn, Hd, Hw.
Qed.

Lemma copy_of_weaken (t t' : list inode) (m : Z) (lo lo' : nat) :
  lo' <= lo ->
  forall depth i i', copy_of depth t t' m lo i i' -> copy_of depth t t' m lo' i i'.
Proof.
  intros Hlo. induction depth as [|k IH]; intros i i' [Hb H]; cbn [copy_of] in *.
  - split; [lia|exact H].
  - split; [lia|].
    destruct (t !! i) as [[| o p ents | |]|]; try exact H.
    destruct H as (ents' & H1 & H2 & H3). exists ents'.
    split; [exact H1|]. split; [exact H2|].
    intros name j Hin. destruct (H3 name j Hin) as (j' & Ha & Hc).
    exists j'. split; [exact Ha|]. now apply IH.
Qed.

(** A copy is one still when the inodes from [lo] on are as they were. *)
Lemma copy_of_stable (t t' t'' : list inode) (m : Z) (lo : nat) :
  (forall x, lo <= x -> x < length t' -> t'' !! x = t' !! x) ->
  forall depth i i', copy_of depth t t' m lo i i' -> copy_of depth t t'' m lo i i'.
Proof.
  intros Hsame. induction depth as [|k IH]; intros i i' [Hb H];
    cbn [copy_of] in *; (split; [exact Hb|]).
  - destruct (t !! i) as [[| o p ents | |]|]; try exact H.
    rewrite Hsame; [exact H|exact Hb|]. now apply lookup_lt_Some in H.
  - destruct (t !! i) as [[| o p ents | |]|]; try exact H.
    + rewrite Hsame; [exact H|exact Hb|]. now apply lookup_lt_Some in H.
    + destruct H as (ents' & H1 & H2 & H3). exists ents'.
      split; [|split; [exact H2|]].
      * rewrite Hsame; [exact H1|exact Hb|]. now apply lookup_lt_Some in H1.
      * intros name j Hin. destruct (H3 name j Hin) as (j' & Ha & Hc).
        exists j'. split; [exact Ha|]. now apply IH.
Qed.

Lemma assoc_names (ents : list (string * nat)) (name : string) :
  ~ In name (map fst ents) -> Fs.assoc name ents = None.
Proof.
  induction ents as [|[k i] r IH]; intros H; [reflexivity|].
  cbn [Fs.assoc map fst In] in *.
  destruct (String.eqb_spec k name) as [->|_]; [tauto|]. apply IH. tauto.
Qed.

Lemma assoc_app_l (ents more : list (string * nat)) (name : string) (i : nat) :
  Fs.assoc name ents = Some i -> Fs.assoc name (ents ++ more) = Some i.
Proof. apply assoc_app_some. Qed.

Lemma assoc_app_r (ents more : list (string * nat)) (name : string) :
  Fs.assoc name ents = None -> Fs.assoc name (ents ++ more) = Fs.assoc name more.
Proof.
  induction ents as [|[k i] r IH]; intros H; [reflexivity|].
  cbn [Fs.assoc app] in *. destruct (String.eqb k name); [discriminate|].
  now apply IH.
Qed.

End Tree_facts.

Section Tree_kinds.

Variables (t t' : list inode) (avoid : nat) (m : Z) (lo : nat).

Lemma copyable_kind k src dest j :
  copyable k t avoid src dest j ->
  (exists o p d, t !! j = Some (IReg o p d) /\ Fs.may Fs.R o p = true)
  \/ (exists k' o p ents,
        k = S k' /\ t !! j = Some (IDir o p ents) /\ j <> avoid
        /\ Fs.may Fs.R o p = true /\ Fs.may Fs.X o p = true
        /\ List.NoDup (map fst ents)
        /\ forall name i, In (name, i) ents ->
             entry_name name
             /\ len (src +++ "/" +++ name) < PATH_MAX
             /\ len (dest +++ "/" +++ name) < PATH_MAX
             /\ copyable k' t avoid (src +++ "/" +++ name)
                         (dest +++ "/" +++ name) i).
Proof.
  intros H. destruct k as [|k']; cbn [copyable] in H;
    destruct (t !! j) as [[o p d|o p ents| |]|]; try contradiction;
    try (left; eauto; fail).
  destruct H as (H1 & H2 & H3 & H4 & H5). right. exists k', o, p, ents.
  split; [reflexivity|]. split; [reflexivity|]. split; [exact H1|].
  split; [exact H2|]. split; [exact H3|]. split; [exact H4|exact H5].
Qed.

Lemma tree_size_file k j o p d :
  t !! j = Some (IReg o p d) -> tree_size k t j = len d.
Proof. intros H. destruct k; cbn [tree_size]; now rewrite H. Qed.

Lemma tree_size_dir k j o p ents :
  t !! j = Some (IDir o p ents) ->
  tree_size (S k) t j = list_sum (map (fun e => tree_size k t (snd e)) ents).
Proof. intros H. cbn [tree_size]. now rewrite H. Qed.

Lemma copy_of_file k j j' o p d :
  t !! j = Some (IReg o p d) -> lo <= j' ->
  t' !! j' = Some (IReg true (Z.land p Fs.ALLPERMS) d) ->
  copy_of k t t' m lo j j'.
Proof. intros H Hlo H'. destruct k; cbn [copy_of]; now rewrite H. Qed.

Lemma copy_of_dir k j j' o p ents ents' :
  t !! j = Some (IDir o p ents) -> lo <= j' ->
  t' !! j' = Some (IDir true m ents') ->
  map fst ents' = map fst ents ->
  (forall name i, In (name, i) ents ->
     exists i', Fs.assoc name ents' = Some i' /\ copy_of k t t' m lo i i') ->
  copy_of (S k) t t' m lo j j'.
Proof.
  intros H Hlo H' Hn Hc. cbn [copy_of]. rewrite H. split; [exact Hlo|].
  exists ents'. split; [exact H'|]. split; [exact Hn|exact Hc].
Qed.

End Tree_kinds.
(** ** copy_directory: the loop over a tree *)

Section Tree.

(** The state [w] in which the copy began, the one inode [avoid] that
    the copy changes among those of [w] (the directory that receives
    the copy), and the mode [m] of the directories it makes. *)
Variable w : world.
Variable avoid : nat.
Variable m : Z.
Hypothesis Hmask : Fs.masked (octal "755") w = m.
Hypothesis Hmw : Fs.may Fs.W true m = true.
Hypothesis Hmx : Fs.may Fs.X true m = true.
Hypothesis Havoid : forall o p d, inodes w !! avoid <> Some (IReg o p d).

Lemma undisturbed_lookup (wk : world) (i : nat) (n : inode) :
  undisturbed avoid w wk -> inodes w !! i = Some n -> i <> avoid ->
  inodes wk !! i = Some n.
Proof.
  intros (_ & _ & H) Hi Hne. rewrite H; [exact Hi| |exact Hne].
  now apply lookup_lt_Some in Hi.
Qed.

Lemma undisturbed_file (wk : world) (i : nat) o p d :
  undisturbed avoid w wk -> inodes w !! i = Some (IReg o p d) ->
  inodes wk !! i = Some (IReg o p d).
Proof.
  intros H Hi. apply (undisturbed_lookup wk i _ H Hi).
  intros ->. now apply Havoid in Hi.
Qed.

Lemma undisturbed_masked (wk : world) :
  umask wk = umask w -> Fs.masked (octal "755") wk = m.
Proof. intros H. rewrite <- Hmask. unfold Fs.masked. now rewrite H. Qed.

Lemma child_differs (dir name : string) :
  String.eqb (dir +++ "/" +++ name) dir = false.
Proof.
  apply String.eqb_neq. intros E. apply (f_equal len) in E.
  rewrite !len_app in E. cbn [len String.length] in E. lia.
Qed.

Lemma list_sum_cons (a : nat) (l : list nat) : list_sum (a :: l) = a + list_sum l.
Proof. reflexivity. Qed.

(** One round and the rounds after it. *)
Lemma loop_post_cons k d ownD permD entsD name j rest wk w1 w' news1 :
  d < length (inodes wk) ->
  loop_post k w m d ownD permD entsD [(name, j)] wk w1 ->
  inodes w1 !! d = Some (IDir ownD permD (entsD ++ news1)) ->
  loop_post k w m d ownD permD (entsD ++ news1) rest w1 w' ->
  loop_post k w m d ownD permD entsD ((name, j) :: rest) wk w'.
Proof.
  intros Hd (E1 & U1 & S1 & F1 & L1 & n1 & D1 & N1 & C1) HD
         (E2 & U2 & S2 & F2 & L2 & n2 & D2 & N2 & C2).
  rewrite D1 in HD. injection HD as HD. apply app_inv_head in HD. subst n1.
  split; [exact (extends_trans _ _ _ E1 E2)|]. split; [now rewrite U2|]. split.
  { rewrite S2, S1. cbn [map]. rewrite !list_sum_cons. cbn [list_sum foldr]. lia. }
  split. { intros x Hx Hxd. rewrite F2; [now apply F1|lia|exact Hxd]. }
  split; [lia|].
  exists (news1 ++ n2). split; [now rewrite app_assoc|]. split.
  { rewrite List.map_app, N1, N2. reflexivity. }
  intros name' j' [E|Hin].
  - inversion E; subst name' j'.
    destruct (C1 name j (or_introl eq_refl)) as (i' & A & C).
    exists i'. split; [rewrite app_assoc; now apply assoc_app_l|].
    apply (copy_of_stable (inodes w) (inodes w1) (inodes w') m
             (length (inodes wk))); [|exact C].
    intros x Hlo Hx. apply F2; [exact Hx|lia].
  - destruct (C2 name' j' Hin) as (i' & A & C). exists i'.
    split; [now rewrite app_assoc|].
    apply (copy_of_weaken _ _ m (length (inodes w1)) (length (inodes wk)));
      [exact L1|exact C].
Qed.

(** After a round the loop is where it was, one entry further. *)
Lemma loop_pre_next k src dest stks stkd ownD permD ents entsD name j rest
      wk w1 news1 :
  loop_pre k w avoid src dest stks stkd ownD permD ents entsD
           ((name, j) :: rest) wk ->
  loop_post k w m (Fs.top stkd) ownD permD entsD [(name, j)] wk w1 ->
  inodes w1 !! Fs.top stkd = Some (IDir ownD permD (entsD ++ news1)) ->
  map fst news1 = [name] ->
  loop_pre k w avoid src dest stks stkd ownD permD ents (entsD ++ news1) rest w1.
Proof.
  intros (U & Hs & Hdir & Hna & Hnd & Hd & HD & HW & HX & Hwhere & Hndt
          & Htodo & Hroom)
         (E1 & U1 & S1 & F1 & L1 & _) HD1 HN1.
  destruct U as (E0 & U0 & F0).
  cbn [map fst] in Hndt. apply List.NoDup_cons_iff in Hndt as [Hfresh Hndt].
  split.
  { split; [exact (extends_trans _ _ _ E0 E1)|]. split; [now rewrite U1|].
    intros i Hi Hia. rewrite F1; [now apply F0| |].
    - pose proof (grows_length _ _ (proj1 E0)). lia.
    - destruct Hwhere as [->|H]; [exact Hia|lia]. }
  split; [exact (extends_namei _ _ _ _ _ E1 Hs)|].
  split; [exact Hdir|]. split; [exact Hna|]. split; [exact Hnd|].
  split; [exact (extends_namei _ _ _ _ _ E1 Hd)|].
  split; [exact HD1|]. split; [exact HW|]. split; [exact HX|].
  split; [exact Hwhere|]. split; [exact Hndt|]. split.
  { intros name' j' Hin.
    destruct (Htodo name' j' (or_intror Hin)) as (H1 & H2 & H3 & H4 & H5 & H6).
    split; [exact H1|]. split; [exact H2|]. split; [exact H3|].
    split; [exact H4|]. split; [|exact H6].
    rewrite assoc_app_r by exact H5. apply assoc_names. rewrite HN1.
    intros [->|[]]. apply Hfresh.
    change name' with (fst (name', j')). now apply List.in_map. }
  rewrite S1. cbn [map] in Hroom |- *. rewrite !list_sum_cons in *.
  cbn [list_sum foldr]. lia.
Qed.

(** A round on a regular file. *)
Lemma round_file k recurse src dest stks stkd ownD permD ents entsD name j rest
      wk o p d :
  loop_pre k w avoid src dest stks stkd ownD permD ents entsD
           ((name, j) :: rest) wk ->
  inodes w !! j = Some (IReg o p d) ->
  exists w1,
    copy_entry recurse src dest name wk = Some w1
    /\ loop_post k w m (Fs.top stkd) ownD permD entsD [(name, j)] wk w1.
Proof.
  intros (U & Hs & (own & perm & Hdir & Hsearch) & Hna & Hnd & Hd & HD & HW & HX
          & Hwhere & Hndt & Htodo & Hroom) Hi.
  destruct (Htodo name j (or_introl eq_refl))
    as (Hin & Hname & Hls & Hld & Hnone & Hcp).
  assert (Hr : Fs.may Fs.R o p = true).
  { apply copyable_kind in Hcp
      as [(o' & p' & d' & Hi' & Hr)|(k' & o' & p' & e' & _ & Hi' & _)];
      rewrite Hi in Hi'; [|discriminate].
    now inversion Hi'; subst. }
  clear Hcp Htodo.
  pose proof Hname as (Hn1 & Hn2 & Hdot & Hdd & Hn5).
  pose proof (undisturbed_lookup wk _ _ U Hdir Hna) as Hdirk.
  pose proof (undisturbed_file wk j o p d U Hi) as Hik.
  assert (Hns : Fs.namei wk true (src +++ "/" +++ name)
                = Fs.Found ((name, j) :: stks)).
  { rewrite (namei_child wk true src name stks own perm ents Hs Hdirk Hsearch
               Hname Hls).
    - now rewrite (assoc_in ents name j Hnd Hin), Hik.
    - intros i' target Ha. rewrite (assoc_in ents name j Hnd Hin) in Ha.
      inversion Ha; subst i'. now rewrite Hik. }
  unfold copy_entry.
  rewrite (proj2 (String.eqb_neq _ _) Hdot), (proj2 (String.eqb_neq _ _) Hdd).
  cbn [orb]. cbv zeta.
  rewrite (child_path_fits src name Hls), (child_path_fits dest name Hld).
  rewrite (stat_found (src +++ "/" +++ name) wk ((name, j) :: stks)
             (IReg o p d) Hns Hik).
  rewrite S_ISDIR_inode, S_ISREG_inode.
  unfold eprint, random_delay.
  remember (emit (Stderr (GRAY +++ "   [INFO] Found file: "
                               +++ (src +++ "/" +++ name) +++ NL +++ RESET)) wk)
    as wf eqn:Ef.
  assert (Hif : inodes wf = inodes wk) by (now rewrite Ef, inodes_emit).
  assert (Hcf : cwd wf = cwd wk) by (now rewrite Ef, cwd_emit).
  assert (Hsf : space wf = space wk) by (now rewrite Ef, space_emit).
  assert (Huf : umask wf = umask wk) by (now rewrite Ef, umask_emit).
  clear Ef.
  cbn [map snd] in Hroom. rewrite list_sum_cons in Hroom.
  rewrite (tree_size_file (inodes w) k j o p d Hi) in Hroom.
  assert (Hnsf : Fs.namei wf true (src +++ "/" +++ name)
                 = Fs.Found ((name, j) :: stks)).
  { rewrite <- Hns. apply namei_same; [exact Hif|exact Hcf]. }
  assert (Hndf : Fs.namei wf true dest = Fs.Found stkd).
  { rewrite <- Hd. apply namei_same; [exact Hif|exact Hcf]. }
  assert (HDf : inodes wf !! Fs.top stkd = Some (IDir ownD permD entsD)).
  { rewrite Hif. exact HD. }
  assert (Hikf : inodes wf !! j = Some (IReg o p d)).
  { rewrite Hif. exact Hik. }
  assert (Habs : Fs.namei wf true (dest +++ "/" +++ name) = Fs.Absent stkd name).
  { rewrite (namei_child wf true dest name stkd ownD permD entsD Hndf HDf HX
               Hname Hld).
    - now rewrite Hnone.
    - intros i' target Ha. rewrite Hnone in Ha. discriminate. }
  assert (Hfits : len d <= space wf) by (rewrite Hsf; lia).
  destruct (copy_file_creates (src +++ "/" +++ name) (dest +++ "/" +++ name) wf
              ((name, j) :: stks) o p d stkd name ownD permD entsD
              Hnsf Hikf Hr Habs HDf HW Hfits)
    as (Hi1 & Hs1 & Hc1 & Hu1).
  clear Hnsf Hndf HDf Hikf Habs Hfits.
  remember (copy_file (src +++ "/" +++ name) (dest +++ "/" +++ name) wf)
    as w1 eqn:E1. clear E1.
  rewrite Hif in Hi1. rewrite Hsf in Hs1. rewrite Hcf in Hc1. rewrite Huf in Hu1.
  clear Hif Hcf Hsf Huf wf.
  exists w1. split; [reflexivity|].
  apply lookup_lt_Some in HD as HDlt.
  split. { split; [rewrite Hi1; apply grows_created|exact Hc1]. }
  split; [exact Hu1|]. split.
  { rewrite Hs1. cbn [map snd]. rewrite list_sum_cons.
    rewrite (tree_size_file (inodes w) k j o p d Hi). cbn [list_sum foldr]. lia. }
  split. { intros x Hx Hxd. rewrite Hi1. now apply created_other. }
  split. { rewrite Hi1, length_created. lia. }
  exists [(name, length (inodes wk))].
  split. { rewrite Hi1. now apply created_dir. }
  split; [reflexivity|].
  intros name' j' [E|[]]. inversion E; subst name' j'.
  exists (length (inodes wk)). split; [now apply assoc_app_none|].
  apply (copy_of_file (inodes w) (inodes w1) m (length (inodes wk)) k j _ o p d);
    [exact Hi|lia|].
  rewrite Hi1. apply created_new.
Qed.
Lemma undisturbed_emit (ev : event) (wk : world) :
  undisturbed avoid w wk -> undisturbed avoid w (emit ev wk).
Proof.
  intros (E & U & F). split; [exact (extends_trans _ _ _ E (extends_emit ev wk))|].
  split; [rewrite umask_emit; exact U|]. intros i Hi Hia.
  rewrite inodes_emit. now apply F.
Qed.

Lemma loop_post_emit k d ownD permD entsD todo (ev : event) (wk w' : world) :
  loop_post k w m d ownD permD entsD todo (emit ev wk) w' ->
  loop_post k w m d ownD permD entsD todo wk w'.
Proof.
  intros (E & U & S & F & L & news & D & N & C).
  rewrite umask_emit in U. rewrite space_emit in S.
  rewrite inodes_emit in L, C.
  split; [exact (extends_trans _ _ _ (extends_emit ev wk) E)|].
  split; [exact U|]. split; [exact S|]. split.
  { intros x Hx Hxd. rewrite F; [now rewrite inodes_emit|now rewrite inodes_emit|exact Hxd]. }
  split; [exact L|]. exists news. split; [exact D|]. split; [exact N|exact C].
Qed.

Lemma loop_post_nil k d ownD permD entsD (wk : world) :
  inodes wk !! d = Some (IDir ownD permD entsD) ->
  loop_post k w m d ownD permD entsD [] wk wk.
Proof.
  intros HD. split; [apply extends_refl|]. split; [reflexivity|].
  split. { cbn [map list_sum foldr]. lia. }
  split; [reflexivity|]. split; [lia|]. exists [].
  split; [now rewrite app_nil_r|]. split; [reflexivity|]. intros ? ? [].
Qed.

Section Level.

(** The loop at the levels below [k]. *)
Variable k : nat.
Hypothesis IHk :
  forall k', k = S k' ->
  forall src dest stks stkd ownD permD ents entsD todo wk,
    loop_pre k' w avoid src dest stks stkd ownD permD ents entsD todo wk ->
    exists w', copy_entries copy_directory src dest (map fst todo) wk = Some w'
               /\ loop_post k' w m (Fs.top stkd) ownD permD entsD todo wk w'.

(** [copy_directory] on a directory of the source, to a name that is
    free in a directory the user may write to. *)
Lemma copy_directory_new src dest stks stkd name ownD permD entsD j wk :
  undisturbed avoid w wk ->
  Fs.namei wk true src = Fs.Found stks -> Fs.top stks = j ->
  (exists o p ents, inodes w !! j = Some (IDir o p ents)) ->
  copyable k (inodes w) avoid src dest j ->
  Fs.namei wk false dest = Fs.Absent stkd name ->
  inodes wk !! Fs.top stkd = Some (IDir ownD permD entsD) ->
  Fs.may Fs.W ownD permD = true ->
  (Fs.top stkd = avoid \/ length (inodes w) <= Fs.top stkd) ->
  tree_size k (inodes w) j <= space wk ->
  exists w1,
    copy_directory src dest wk = Some w1
    /\ loop_post k w m (Fs.top stkd) ownD permD entsD [(name, j)] wk w1.
Proof.
  intros U Hs Hj (o0 & p0 & e0 & Hj0) Hcp Habs HD HW Hwhere Hroom.
  apply copyable_kind in Hcp
    as [(o' & p' & d' & Hi' & _)
       |(k' & o & p & ents & Ek & Hji & Hja & Hr & Hx & Hndj & Hkids)];
    [rewrite Hj0 in Hi'; discriminate|].
  clear o0 p0 e0 Hj0.
  pose proof (IHk k' Ek) as IH.
  rewrite Ek in Hroom |- *.
  rewrite (tree_size_dir (inodes w) k' j o p ents Hji) in Hroom.
  pose proof (undisturbed_lookup wk _ _ U Hji Hja) as Hjk.
  rewrite <- Hj in Hjk.
  destruct (namei_absent_dir wk false dest stkd name Habs)
    as (own0 & perm0 & ents0 & HD0 & Hnone).
  rewrite HD in HD0. injection HD0 as <- <- <-.
  rewrite copy_directory_unfold. unfold copy_directory_body.
  rewrite (opendir_dir src wk stks o p ents Hs Hjk Hr).
  unfold eprint, random_delay.
  remember (emit (Stderr (GRAY +++ "   [INFO] Opened source directory: "
                               +++ src +++ NL +++ RESET)) wk) as wo eqn:Eo.
  assert (Hio : inodes wo = inodes wk) by (now rewrite Eo, inodes_emit).
  assert (Hco : cwd wo = cwd wk) by (now rewrite Eo, cwd_emit).
  assert (Hso : space wo = space wk) by (now rewrite Eo, space_emit).
  assert (Huo : umask wo = umask wk) by (now rewrite Eo, umask_emit).
  clear Eo.
  assert (Habso : Fs.namei wo false dest = Fs.Absent stkd name).
  { rewrite <- Habs. apply namei_same; [exact Hio|exact Hco]. }
  assert (HDo : inodes wo !! Fs.top stkd = Some (IDir ownD permD entsD))
    by (rewrite Hio; exact HD).
  pose proof (mkdir_absent dest (octal "755") wo stkd name ownD permD entsD
                Habso HDo HW) as Em.
  destruct U as (E0 & U0 & F0).
  rewrite (undisturbed_masked wo) in Em by (rewrite Huo; exact U0).
  destruct (mkdir_made _ _ _ _ Em) as (stk' & name' & Hn' & _ & Hfound & _).
  rewrite Habso in Hn'. injection Hn' as <- <-.
  rewrite Em.
  remember (set_inodes (created (Fs.top stkd) name (IDir true m []) (inodes wo)) wo)
    as wm eqn:Emk in *.
  assert (Him : inodes wm
                = created (Fs.top stkd) name (IDir true m []) (inodes wk))
    by (rewrite Emk, inodes_set_inodes, Hio; reflexivity).
  assert (Hcm : cwd wm = cwd wk) by (now rewrite Emk, cwd_set_inodes).
  assert (Hsm : space wm = space wk) by (now rewrite Emk, space_set_inodes).
  assert (Hum : umask wm = umask wk) by (now rewrite Emk, umask_set_inodes).
  clear Emk Em.
  rewrite Hio in Hfound.
  cbn [negb andb].
  remember (emit (Stderr (GRAY +++ "   [INFO] Destination directory created or already exists: "
                               +++ dest +++ NL +++ RESET)) wm) as wk1 eqn:Ek1.
  assert (Hi1 : inodes wk1
                = created (Fs.top stkd) name (IDir true m []) (inodes wk))
    by (now rewrite Ek1, inodes_emit).
  assert (Hc1 : cwd wk1 = cwd wk) by (now rewrite Ek1, cwd_emit).
  assert (Hs1 : space wk1 = space wk) by (now rewrite Ek1, space_emit).
  assert (Hu1 : umask wk1 = umask wk) by (now rewrite Ek1, umask_emit).
  assert (Hfound1 : Fs.namei wk1 false dest
                    = Fs.Found ((name, length (inodes wk)) :: stkd)).
  { rewrite <- Hfound. apply namei_same; [now rewrite Hi1|now rewrite Hc1]. }
  clear Ek1 Hfound Him Hcm Hsm Hum Habso HDo Hio Hco Hso Huo.
  cbn [copy_entries].
  rewrite (proj1 (copy_entry_dot _ src dest _)).
  rewrite (proj2 (copy_entry_dot _ src dest _)).
  apply lookup_lt_Some in HD as HDlt.
  assert (G1 : grows (inodes wk) (inodes wk1)).
  { rewrite Hi1. apply grows_created. }
  assert (Hl1 : length (inodes wk1) = S (length (inodes wk))).
  { rewrite Hi1. apply length_created. }
  pose proof (grows_length _ _ (proj1 E0)) as Hl0.
  assert (Hpre : loop_pre k' w avoid src dest stks
                          ((name, length (inodes wk)) :: stkd) true m
                          ents [] ents wk1).
  { split.
    { split.
      - split; [exact (grows_trans _ _ _ (proj1 E0) G1)|].
        rewrite Hc1. exact (proj2 E0).
      - split; [rewrite Hu1; exact U0|]. intros i Hi Hia.
        rewrite Hi1, created_other; [now apply F0| |lia].
        destruct Hwhere as [->|H]; [exact Hia|lia]. }
    split; [exact (namei_grows wk wk1 true src stks G1 Hc1 Hs)|].
    split. { exists o, p. rewrite Hj. split; [exact Hji|exact Hx]. }
    split; [rewrite Hj; exact Hja|]. split; [exact Hndj|].
    split.
    { apply namei_follow; [exact Hfound1|]. cbn [Fs.top]. intros n Hn.
      rewrite Hi1, created_new in Hn. now inversion Hn. }
    split. { cbn [Fs.top]. rewrite Hi1. apply created_new. }
    split; [exact Hmw|]. split; [exact Hmx|].
    split. { right. cbn [Fs.top]. exact Hl0. }
    split; [exact Hndj|]. split.
    { intros c i Hin. destruct (Hkids c i Hin) as (H1 & H2 & H3 & H4).
      split; [exact Hin|]. split; [exact H1|]. split; [exact H2|].
      split; [exact H3|]. split; [reflexivity|exact H4]. }
    rewrite Hs1. exact Hroom. }
  destruct (IH src dest stks _ true m ents [] ents wk1 Hpre)
    as (w2 & Hrun & Hpost).
  rewrite Hrun. clear Hrun Hpre.
  destruct Hpost as (E2 & U2 & S2 & F2 & L2 & news & D2 & N2 & C2).
  cbn [Fs.top app] in F2, D2, C2.
  remember (emit (Stderr (GRAY +++ "   [INFO] Finished processing directory: "
                               +++ src +++ NL +++ RESET)) w2) as w1 eqn:E1.
  assert (Hiw : inodes w1 = inodes w2) by (now rewrite E1, inodes_emit).
  assert (Hcw : cwd w1 = cwd w2) by (now rewrite E1, cwd_emit).
  assert (Hsw : space w1 = space w2) by (now rewrite E1, space_emit).
  assert (Huw : umask w1 = umask w2) by (now rewrite E1, umask_emit).
  clear E1.
  exists w1. split; [reflexivity|].
  split.
  { split.
    - rewrite Hiw. exact (grows_trans _ _ _ G1 (proj1 E2)).
    - rewrite Hcw, (proj2 E2). exact Hc1. }
  split. { rewrite Huw, U2. exact Hu1. }
  split.
  { rewrite Hsw, S2, Hs1. cbn [map snd]. rewrite list_sum_cons.
    rewrite (tree_size_dir (inodes w) k' j o p ents Hji).
    cbn [list_sum foldr]. lia. }
  split.
  { intros x Hxl Hxd. rewrite Hiw, F2; [|lia|lia].
    rewrite Hi1. now apply created_other. }
  split. { rewrite Hiw. lia. }
  exists [(name, length (inodes wk))]. split.
  { rewrite Hiw, F2; [|lia|lia]. rewrite Hi1. now apply created_dir. }
  split; [reflexivity|].
  intros name' j' [E|[]]. inversion E; subst name' j'.
  exists (length (inodes wk)). split; [now apply assoc_app_none|].
  apply (copy_of_dir (inodes w) (inodes w1) m (length (inodes wk)) k' j _
           o p ents news); [exact Hji|lia|rewrite Hiw; exact D2|exact N2|].
  intros c i Hin. destruct (C2 c i Hin) as (i' & A & C).
  exists i'. split; [exact A|]. rewrite Hiw.
  apply (copy_of_weaken _ _ m (length (inodes wk1)) (length (inodes wk)));
    [lia|exact C].
Qed.
(** A round on a directory. *)
Lemma round_dir src dest stks stkd ownD permD ents entsD name j rest wk
      o p ents_j :
  loop_pre k w avoid src dest stks stkd ownD permD ents entsD
           ((name, j) :: rest) wk ->
  inodes w !! j = Some (IDir o p ents_j) ->
  exists w1,
    copy_entry copy_directory src dest name wk = Some w1
    /\ loop_post k w m (Fs.top stkd) ownD permD entsD [(name, j)] wk w1.
Proof.
  intros (U & Hs & (own & perm & Hdir & Hsearch) & Hna & Hnd & Hd & HD & HW & HX
          & Hwhere & Hndt & Htodo & Hroom) Hi.
  destruct (Htodo name j (or_introl eq_refl))
    as (Hin & Hname & Hls & Hld & Hnone & Hcp).
  clear Htodo.
  pose proof Hname as (Hn1 & Hn2 & Hdot & Hdd & Hn5).
  pose proof (undisturbed_lookup wk _ _ U Hdir Hna) as Hdirk.
  assert (Hja : j <> avoid).
  { apply copyable_kind in Hcp
      as [(o' & p' & d' & Hi' & _)|(k' & o' & p' & e' & _ & _ & Hja & _)];
      [rewrite Hi in Hi'; discriminate|exact Hja]. }
  pose proof (undisturbed_lookup wk _ _ U Hi Hja) as Hik.
  assert (Hns : Fs.namei wk true (src +++ "/" +++ name)
                = Fs.Found ((name, j) :: stks)).
  { rewrite (namei_child wk true src name stks own perm ents Hs Hdirk Hsearch
               Hname Hls).
    - now rewrite (assoc_in ents name j Hnd Hin), Hik.
    - intros i' target Ha. rewrite (assoc_in ents name j Hnd Hin) in Ha.
      inversion Ha; subst i'. now rewrite Hik. }
  unfold copy_entry.
  rewrite (proj2 (String.eqb_neq _ _) Hdot), (proj2 (String.eqb_neq _ _) Hdd).
  cbn [orb]. cbv zeta.
  rewrite (child_path_fits src name Hls), (child_path_fits dest name Hld).
  rewrite (stat_found (src +++ "/" +++ name) wk ((name, j) :: stks)
             (IDir o p ents_j) Hns Hik).
  rewrite S_ISDIR_inode, child_differs. cbn [andb].
  unfold eprint, random_delay.
  remember (Stderr (GRAY +++ "   [INFO] Found directory: "
                         +++ (src +++ "/" +++ name) +++ NL +++ RESET))
    as ev eqn:Eev. clear Eev.
  cbn [map snd] in Hroom. rewrite list_sum_cons in Hroom.
  assert (Hnsf : Fs.namei (emit ev wk) true (src +++ "/" +++ name)
                 = Fs.Found ((name, j) :: stks)).
  { rewrite <- Hns. apply namei_same; [apply inodes_emit|apply cwd_emit]. }
  assert (Hndf : Fs.namei (emit ev wk) true dest = Fs.Found stkd).
  { rewrite <- Hd. apply namei_same; [apply inodes_emit|apply cwd_emit]. }
  assert (HDf : inodes (emit ev wk) !! Fs.top stkd
                = Some (IDir ownD permD entsD)).
  { rewrite inodes_emit. exact HD. }
  assert (Habs : Fs.namei (emit ev wk) false (dest +++ "/" +++ name)
                 = Fs.Absent stkd name).
  { rewrite (namei_child (emit ev wk) false dest name stkd ownD permD entsD
               Hndf HDf HX Hname Hld).
    - now rewrite Hnone.
    - intros i' target Ha. rewrite Hnone in Ha. discriminate. }
  assert (Hfits : tree_size k (inodes w) j <= space (emit ev wk)).
  { rewrite space_emit. lia. }
  destruct (copy_directory_new (src +++ "/" +++ name) (dest +++ "/" +++ name)
              ((name, j) :: stks) stkd name ownD permD entsD j (emit ev wk)
              (undisturbed_emit ev wk U) Hnsf eq_refl
              (ex_intro _ o (ex_intro _ p (ex_intro _ ents_j Hi)))
              Hcp Habs HDf HW Hwhere Hfits)
    as (w1 & Hrun & Hpost).
  exists w1. split; [exact Hrun|]. exact (loop_post_emit _ _ _ _ _ _ ev wk w1 Hpost).
Qed.

(** The loop at the level [k]. *)
Lemma loop_level :
  forall todo src dest stks stkd ownD permD ents entsD wk,
    loop_pre k w avoid src dest stks stkd ownD permD ents entsD todo wk ->
    exists w', copy_entries copy_directory src dest (map fst todo) wk = Some w'
               /\ loop_post k w m (Fs.top stkd) ownD permD entsD todo wk w'.
Proof.
  induction todo as [|[name j] rest IH];
    intros src dest stks stkd ownD permD ents entsD wk Hpre.
  - exists wk. split; [reflexivity|]. apply loop_post_nil.
    exact (proj1 (proj2 (proj2 (proj2 (proj2 (proj2 (proj2 Hpre))))))).
  - assert (Hround : exists w1,
              copy_entry copy_directory src dest name wk = Some w1
              /\ loop_post k w m (Fs.top stkd) ownD permD entsD [(name, j)] wk w1).
    { pose proof Hpre as (_ & _ & _ & _ & _ & _ & _ & _ & _ & _ & _ & Htodo & _).
      destruct (Htodo name j (or_introl eq_refl)) as (_ & _ & _ & _ & _ & Hcp).
      apply copyable_kind in Hcp
        as [(o & p & d & Hi & _)|(k' & o & p & e & _ & Hi & _)].
      - exact (round_file k copy_directory src dest stks stkd ownD permD ents
                 entsD name j rest wk o p d Hpre Hi).
      - exact (round_dir src dest stks stkd ownD permD ents entsD name j rest wk
                 o p e Hpre Hi). }
    destruct Hround as (w1 & Hrun1 & Hpost1).
    pose proof Hpost1 as (_ & _ & _ & _ & _ & news1 & D1 & N1 & _).
    pose proof (loop_pre_next k src dest stks stkd ownD permD ents entsD name j
                  rest wk w1 news1 Hpre Hpost1 D1 N1) as Hpre1.
    destruct (IH src dest stks stkd ownD permD ents (entsD ++ news1) w1 Hpre1)
      as (w' & Hrun & Hpost).
    exists w'. split. { cbn [map fst copy_entries]. rewrite Hrun1. exact Hrun. }
    apply (loop_post_cons k _ ownD permD entsD name j rest wk w1 w' news1);
      [|exact Hpost1|exact D1|exact Hpost].
    pose proof Hpre as (_ & _ & _ & _ & _ & _ & HD & _).
    now apply lookup_lt_Some in HD.
Qed.

End Level.

(** The loop of [copy_directory] over entries that can be copied whole:
    it ends, and each entry has its copy in the destination. *)
Lemma copy_entries_tree :
  forall k todo src dest stks stkd ownD permD ents entsD wk,
    loop_pre k w avoid src dest stks stkd ownD permD ents entsD todo wk ->
    exists w', copy_entries copy_directory src dest (map fst todo) wk = Some w'
               /\ loop_post k w m (Fs.top stkd) ownD permD entsD todo wk w'.
Proof.
  induction k as [|k IH]; intros todo; apply loop_level.
  - intros k' E. discriminate.
  - intros k' E. injection E as <-. intros src dest stks stkd ownD permD ents
      entsD todo'. apply IH.
Qed.
Lemma loop_post_same k d ownD permD entsD todo (a a' b b' : world) :
  inodes a' = inodes a -> cwd a' = cwd a -> space a' = space a ->
  umask a' = umask a ->
  inodes b' = inodes b -> cwd b' = cwd b -> space b' = space b ->
  umask b' = umask b ->
  loop_post k w m d ownD permD entsD todo a b ->
  loop_post k w m d ownD permD entsD todo a' b'.
Proof.
  intros Ia Ca Sa Ua Ib Cb Sb Ub ((G & C) & U & S & F & L & news & D & N & Cp).
  split; [split; [rewrite Ia, Ib; exact G|rewrite Cb, Ca; exact C]|].
  split; [rewrite Ub, Ua; exact U|]. split; [rewrite Sb, Sa; exact S|].
  split; [rewrite Ia, Ib; exact F|]. split; [rewrite Ia, Ib; exact L|].
  exists news. rewrite Ia, Ib. split; [exact D|]. split; [exact N|exact Cp].
Qed.

(** [copy_directory] on a directory that can be copied whole, to a name
    that is free. *)
Lemma copy_directory_fresh k src dest stks stkd name ownD permD entsD j wk :
  undisturbed avoid w wk ->
  Fs.namei wk true src = Fs.Found stks -> Fs.top stks = j ->
  (exists o p ents, inodes w !! j = Some (IDir o p ents)) ->
  copyable k (inodes w) avoid src dest j ->
  Fs.namei wk false dest = Fs.Absent stkd name ->
  inodes wk !! Fs.top stkd = Some (IDir ownD permD entsD) ->
  Fs.may Fs.W ownD permD = true ->
  (Fs.top stkd = avoid \/ length (inodes w) <= Fs.top stkd) ->
  tree_size k (inodes w) j <= space wk ->
  exists w1,
    copy_directory src dest wk = Some w1
    /\ loop_post k w m (Fs.top stkd) ownD permD entsD [(name, j)] wk w1.
Proof.
  apply copy_directory_new. intros k' _ src' dest' stks' stkd' ownD' permD'
    ents' entsD' todo' wk'. apply copy_entries_tree.
Qed.

(** [copy_directory] on such a directory, to a directory that is
    there. *)
Lemma copy_directory_there k src dest stks stk0 stkd ownD permD o p ents entsD wk :
  undisturbed avoid w wk ->
  Fs.namei wk true src = Fs.Found stks ->
  inodes w !! Fs.top stks = Some (IDir o p ents) ->
  Fs.may Fs.R o p = true -> Fs.may Fs.X o p = true ->
  Fs.top stks <> avoid -> List.NoDup (map fst ents) ->
  Fs.namei wk false dest = Fs.Found stk0 ->
  Fs.namei wk true dest = Fs.Found stkd ->
  inodes wk !! Fs.top stkd = Some (IDir ownD permD entsD) ->
  Fs.may Fs.W ownD permD = true -> Fs.may Fs.X ownD permD = true ->
  (Fs.top stkd = avoid \/ length (inodes w) <= Fs.top stkd) ->
  (forall name j, In (name, j) ents ->
     entry_name name
     /\ len (src +++ "/" +++ name) < PATH_MAX
     /\ len (dest +++ "/" +++ name) < PATH_MAX
     /\ Fs.assoc name entsD = None
     /\ copyable k (inodes w) avoid (src +++ "/" +++ name)
                 (dest +++ "/" +++ name) j) ->
  list_sum (map (fun e => tree_size k (inodes w) (snd e)) ents) <= space wk ->
  exists w1,
    copy_directory src dest wk = Some w1
    /\ loop_post k w m (Fs.top stkd) ownD permD entsD ents wk w1.
Proof.
  intros U Hs Hdir Hr Hx Hna Hnd Hf0 Hd HD HW HX Hwhere Hents Hroom.
  pose proof (undisturbed_lookup wk _ _ U Hdir Hna) as Hdirk.
  rewrite copy_directory_unfold. unfold copy_directory_body.
  rewrite (opendir_dir src wk stks o p ents Hs Hdirk Hr).
  unfold eprint, random_delay.
  remember (emit (Stderr (GRAY +++ "   [INFO] Opened source directory: "
                               +++ src +++ NL +++ RESET)) wk) as wo eqn:Eo.
  assert (Hio : inodes wo = inodes wk) by (now rewrite Eo, inodes_emit).
  assert (Hco : cwd wo = cwd wk) by (now rewrite Eo, cwd_emit).
  assert (Hso : space wo = space wk) by (now rewrite Eo, space_emit).
  assert (Huo : umask wo = umask wk) by (now rewrite Eo, umask_emit).
  clear Eo.
  assert (Hf0o : Fs.namei wo false dest = Fs.Found stk0).
  { rewrite <- Hf0. apply namei_same; [exact Hio|exact Hco]. }
  rewrite (mkdir_exists dest (octal "755") wo stk0 Hf0o).
  replace (negb false && negb (errno_eqb (errno (set_errno EEXIST wo)) EEXIST))
    with false by reflexivity.
  remember (emit (Stderr (GRAY +++ "   [INFO] Destination directory created or already exists: "
                               +++ dest +++ NL +++ RESET))
                 (set_errno EEXIST wo)) as wk1 eqn:Ek1.
  assert (Hi1 : inodes wk1 = inodes wk) by (now rewrite Ek1, inodes_emit).
  assert (Hc1 : cwd wk1 = cwd wk) by (now rewrite Ek1, cwd_emit).
  assert (Hs1 : space wk1 = space wk) by (now rewrite Ek1, space_emit).
  assert (Hu1 : umask wk1 = umask wk) by (now rewrite Ek1, umask_emit).
  clear Ek1 Hf0o Hio Hco Hso Huo wo.
  cbn [copy_entries].
  rewrite (proj1 (copy_entry_dot _ src dest _)).
  rewrite (proj2 (copy_entry_dot _ src dest _)).
  assert (Hpre : loop_pre k w avoid src dest stks stkd ownD permD ents entsD
                          ents wk1).
  { destruct U as (E0 & U0 & F0). split.
    { split.
      - split; [rewrite Hi1; exact (proj1 E0)|rewrite Hc1; exact (proj2 E0)].
      - split; [rewrite Hu1; exact U0|]. intros i Hi Hia. rewrite Hi1.
        now apply F0. }
    split. { rewrite <- Hs. apply namei_same; [exact Hi1|exact Hc1]. }
    split. { exists o, p. split; [exact Hdir|exact Hx]. }
    split; [exact Hna|]. split; [exact Hnd|].
    split. { rewrite <- Hd. apply namei_same; [exact Hi1|exact Hc1]. }
    split; [rewrite Hi1; exact HD|]. split; [exact HW|]. split; [exact HX|].
    split; [exact Hwhere|]. split; [exact Hnd|]. split.
    { intros name j Hin. split; [exact Hin|]. now apply Hents. }
    rewrite Hs1. exact Hroom. }
  destruct (copy_entries_tree k ents src dest stks stkd ownD permD ents entsD
              wk1 Hpre) as (w2 & Hrun & Hpost).
  rewrite Hrun. eexists. split; [reflexivity|].
  apply (loop_post_same k _ ownD permD entsD ents wk1 wk w2 _);
    try (symmetry; assumption); try reflexivity. exact Hpost.
Qed.

End Tree.
Lemma copy_of_dir_inv k (t t' : list inode) (m : Z) (lo j j' : nat) o p ents :
  t !! j = Some (IDir o p ents) -> copy_of k t t' m lo j j' ->
  exists ents', t' !! j' = Some (IDir true m ents').
Proof.
  intros H. destruct k; cbn [copy_of]; rewrite H; intros [_ C];
    [contradiction|].
  destruct C as (e & He & _). now exists e.
Qed.



Ltac entry_tac :=
  unfold entry_name; vm_compute; repeat split; try discriminate; try lia.

(** A concrete tree can be copied whole. *)
Ltac tree_tac :=
  lazymatch goal with
  | |- match ?t !! ?i with _ => _ end =>
      let n := eval vm_compute in (t !! i) in
      change (t !! i) with n; cbv beta iota; tree_tac
  | |- _ = true => reflexivity
  | |- _ /\ _ =>
      split; [discriminate|]; split; [reflexivity|]; split; [reflexivity|];
      split; [repeat constructor; simpl; intuition discriminate|];
      let name := fresh "name" in
      let j := fresh "j" in
      let Hin := fresh "Hin" in
      intros name j Hin; simpl in Hin;
      repeat (destruct Hin as [Hin|Hin];
              [inversion Hin; subst name j; clear Hin;
               (split; [entry_tac|]); (split; [vm_compute; lia|]);
               (split; [vm_compute; lia|]); tree_tac
              |]);
      contradiction
  end.

Ltac copyable_tac := cbn [copyable]; tree_tac.



